(** * Terse: a shallow embedding of the run-block codec of [Terse.hpp]

    The development follows [src/include/Terse.hpp]: the encoder
    [Terse::f_compress], the width computation [Terse::f_highest_set_bit],
    the decoder [Terse::prolix], the lazy frame index
    [Terse::f_find_terse_frame], the public [push_back] / constructor with
    their container overloads, the dimensions [Terse::dim] and the stream
    form [Terse::write].

    [Bit_pointer.hpp] (the classes [Bit_pointer] and [Bit_range]) is not part
    of the sources at hand; the bit cursor is modelled from section 4.1 of
    the specification and the value reconstruction of [Bit_range::get_range]
    from section 4.2 ("Value unpacking"). *)

From Stdlib Require Import ZArith List Bool Lia Arith PeanoNat ZifyNat.
From Stdlib Require String Ascii DecimalString DecimalNat.
Import ListNotations.

Local Open Scope nat_scope.

(** ** Element types *)

(** The integral element types a frame or an output sink can have. *)
Inductive int_type : Type :=
  | Int8 | Int16 | Int32 | Int64
  | UInt8 | UInt16 | UInt32 | UInt64.

(** [sizeof(T)] in bytes. *)
Definition sizeof (T : int_type) : nat :=
  match T with
  | Int8 | UInt8 => 1
  | Int16 | UInt16 => 2
  | Int32 | UInt32 => 4
  | Int64 | UInt64 => 8
  end.

(** Width of [T] in bits. *)
Definition bits (T : int_type) : nat := 8 * sizeof T.

(** [std::is_signed_v<T>]. *)
Definition is_signed_v (T : int_type) : bool :=
  match T with
  | Int8 | Int16 | Int32 | Int64 => true
  | _ => false
  end.

(** [std::numeric_limits<T>::min()] and [max()]. *)
Definition min_value (T : int_type) : Z :=
  if is_signed_v T then (- 2 ^ Z.of_nat (bits T - 1))%Z else 0%Z.

Definition max_value (T : int_type) : Z :=
  if is_signed_v T then (2 ^ Z.of_nat (bits T - 1) - 1)%Z
  else (2 ^ Z.of_nat (bits T) - 1)%Z.

(** The values of type [T]. *)
Definition in_range (T : int_type) (v : Z) : Prop :=
  (min_value T <= v <= max_value T)%Z.

(** The same as a test. *)
Definition in_rangeb (T : int_type) (v : Z) : bool :=
  (min_value T <=? v)%Z && (v <=? max_value T)%Z.

(** A value of [T] whose absolute value the encoder computes: any value of
    an unsigned [T]; of a signed [T], any but the minimum (whose absolute
    value [T] does not have) that is below [2 ^ 31] in absolute value (the
    call [abs(val)] of [f_highest_set_bit] being that of [int]; this
    excludes values of a 64-bit type only). *)
Definition has_abs (T : int_type) (v : Z) : Prop :=
  in_range T v
  /\ (is_signed_v T = true ->
      v <> min_value T /\ (Z.abs v < 2 ^ 31)%Z).

(** The same as a test. *)
Definition has_absb (T : int_type) (v : Z) : bool :=
  in_rangeb T v
  && negb (is_signed_v T
           && ((v =? min_value T)%Z || (2 ^ 31 <=? Z.abs v)%Z)).

(** Conversion of an integer to [T]: modular, as C++20 defines it. *)
Definition to_type (T : int_type) (z : Z) : Z :=
  let m := (2 ^ Z.of_nat (bits T))%Z in
  let r := (z mod m)%Z in
  if is_signed_v T then (if (r <? m / 2)%Z then r else r - m)%Z else r.

(** [std::make_unsigned_t<T>(z)]. *)
Definition make_unsigned (T : int_type) (z : Z) : Z :=
  (z mod 2 ^ Z.of_nat (bits T))%Z.

(** [std::abs] at the type the argument is promoted to: [int] for the types
    narrower than [int], where the result is exact; the argument's own type
    for [int] and wider, where the absolute value of the minimum does not
    exist (undefined in C++) and two's complement hardware returns the
    minimum itself. *)
Definition std_abs (T : int_type) (v : Z) : Z :=
  match T with
  | Int32 | Int64 => to_type T (Z.abs v)
  | _ => Z.abs v
  end.

(** [int abs(int)] of the C library, which the unqualified call [abs(val)]
    of [f_highest_set_bit] resolves to: [Terse.hpp] includes [<cmath>], and
    with g++ and libstdc++ that leaves the overloads of [std::abs] out of
    the global namespace.  The argument is converted to [int]; the absolute
    value of the minimum of [int] does not exist (undefined in C++) and
    two's complement hardware returns the minimum itself. *)
Definition c_abs (v : Z) : Z := to_type Int32 (Z.abs (to_type Int32 v)).

(** ** Bit cursor over the packed bytes *)

(** Modelled from the spec: [Bit_pointer] and [Bit_range] of
    [Bit_pointer.hpp], which is missing.  A cursor is an absolute bit
    position in the byte vector; bits of a byte are numbered least
    significant first, and bit [i] of a range at cursor [c] is at [c + i]. *)
Definition buffer : Type := list Z.

(** [d[i] = b] on the byte vector.  A store past its end is outside the
    object (undefined in C++); the model stores nothing there, as the bytes
    the [resize] of line 548 adds at these positions afterwards are
    zero. *)
Fixpoint upd (d : buffer) (i : nat) (b : Z) : buffer :=
  match d, i with
  | [], _ => []
  | _ :: r, O => b :: r
  | x :: r, S j => x :: upd r j b
  end.

(** Modelled from the spec: [read_bit] without the advance.  A position
    past the end of the vector is outside the object (undefined in C++, a
    programmer error in section 4.1): the model reads a clear bit there,
    and says nothing of the program for a call that reads one. *)
Definition get_bit (d : buffer) (p : nat) : bool :=
  Z.testbit (nth (p / 8) d 0%Z) (Z.of_nat (p mod 8)).

(** Modelled from the spec: [write_bit(1)], OR semantics.  A position past
    the end of the vector is outside the object (undefined in C++): the
    write is dropped. *)
Definition set_bit (d : buffer) (p : nat) : buffer :=
  if p / 8 <? length d
  then upd d (p / 8) (Z.lor (nth (p / 8) d 0%Z) (2 ^ Z.of_nat (p mod 8)))
  else d.

(** Modelled from the spec: [write_bits(value, n)], the [n] low bits of
    [value] (two's complement for a negative one) OR-merged at the cursor. *)
Fixpoint or_bits (d : buffer) (p n : nat) (v : Z) : buffer :=
  match n with
  | O => d
  | S n' => or_bits (if Z.odd v then set_bit d p else d) (S p) n' (Z.div2 v)
  end.

(** Modelled from the spec: [read_bits(n)], the unsigned [n]-bit value at
    the cursor. *)
Fixpoint read_bits (d : buffer) (p n : nat) : Z :=
  match n with
  | O => 0%Z
  | S n' => (Z.b2z (get_bit d p) + 2 * read_bits d (S p) n')%Z
  end.

(** Modelled from the spec: [Bit_range::append_range], each value written as
    a [w]-bit field, in order; returns the buffer and the cursor after the
    last field. *)
Fixpoint append_range (d : buffer) (p w : nat) (vs : list Z) : buffer * nat :=
  match vs with
  | [] => (d, p)
  | v :: r => append_range (or_bits d p w v) (p + w) w r
  end.

(** Modelled from the spec: sign extension from bit [w - 1]. *)
Definition sign_extend (w : nat) (raw : Z) : Z :=
  match w with
  | O => raw
  | S w' => if (raw <? 2 ^ Z.of_nat w')%Z then raw else (raw - 2 ^ Z.of_nat w)%Z
  end.

(** Modelled from the spec: saturation to the range of the output type. *)
Definition saturate (U : int_type) (v : Z) : Z :=
  if (max_value U <? v)%Z then max_value U
  else if (v <? min_value U)%Z then min_value U
  else v.

(** Modelled from the spec: the value an output element of type [U] gets
    from a [w]-bit field (section 4.2, "Value unpacking", steps 3 and 4):
    sign-extend for a signed output, zero-extend for an unsigned one, and
    saturate when the output is narrower than [w]. *)
Definition field_value (U : int_type) (w : nat) (raw : Z) : Z :=
  let v := if is_signed_v U then sign_extend w raw else raw in
  if bits U <? w then saturate U v else v.

(** Modelled from the spec: [Bit_range::get_range], [cnt] fields of [w] bits
    read into elements of type [U]; returns the values and the cursor after
    the last field. *)
Fixpoint get_range (U : int_type) (d : buffer) (p w cnt : nat) : list Z * nat :=
  match cnt with
  | O => ([], p)
  | S c =>
      let v := field_value U w (read_bits d p w) in
      let '(vs, q) := get_range U d (p + w) w c in
      (v :: vs, q)
  end.

(** ** The frame store *)

(** The private members of [class Terse]. *)
Record Terse : Type := mkTerse {
  d_signed : bool;
  d_block : nat;
  d_size : nat;
  d_prolix_bits : nat;
  d_dim : list nat;
  d_terse_data : buffer;
  d_terse_frames : list nat
}.

(** The assertions of the class, by the error kind the specification gives
    them (section 7).  [WidthOverflow] is the kind the specification names
    for a width above 73; no statement of the class raises it. *)
Inductive error : Type :=
  | ShapeMismatch
  | SignednessMismatch
  | FrameIndexOutOfRange
  | WidthOverflow.

(** What a call does: it returns, an assertion fails, or a loop of the
    source never ends (a block size of 0 with a non-empty frame). *)
Inductive outcome (A : Type) : Type :=
  | Done (a : A)
  | Fails (e : error)
  | Loops.

Arguments Done {A} a.
Arguments Fails {A} e.
Arguments Loops {A}.

(** The accessors [number_of_frames()], [size()], [is_signed()],
    [bits_per_val()] and [terse_size()]. *)
Definition number_of_frames (t : Terse) : nat := length (d_terse_frames t).
Definition size (t : Terse) : nat := d_size t.
Definition is_signed (t : Terse) : bool := d_signed t.
Definition bits_per_val (t : Terse) : nat := d_prolix_bits t.
Definition terse_size (t : Terse) : nat := length (d_terse_data t).

(** [std::vector::resize(n, 0)]. *)
Definition resize (d : buffer) (n : nat) : buffer :=
  firstn n d ++ repeat 0%Z (n - length d).

(** ** Encoder: [Terse::f_compress] *)

(** The loop of [f_highest_set_bit] for an unsigned value:
    [for ( ; val; val>>=1, ++r);]. *)
Fixpoint highest_set_bit_loop (fuel : nat) (val : Z) (r : nat) : nat :=
  match fuel with
  | O => r
  | S fuel' =>
      if (val =? 0)%Z then r
      else highest_set_bit_loop fuel' (Z.shiftr val 1) (S r)
  end.

(** [Terse::f_highest_set_bit<T0>]; for a signed [T0],
    [1 + f_highest_set_bit(std::make_unsigned_t<T0> (abs(val)))], the value
    of [abs], an [int], converted to the unsigned type. *)
Definition f_highest_set_bit (T : int_type) (val : Z) : nat :=
  if is_signed_v T then
    if (val =? 0)%Z then 0
    else 1 + highest_set_bit_loop 64 (make_unsigned T (c_abs val)) 0
  else highest_set_bit_loop 64 val 0.

(** The inner loop of [f_compress] over one block:
    [setbits |= *p] for an unsigned element type,
    [setbits |= std::abs( *p)] for a signed one, [setbits] of the element
    type. *)
Definition f_setbits (T : int_type) (block : list Z) : Z :=
  fold_left
    (fun setbits v =>
       if is_signed_v T then to_type T (Z.lor setbits (std_abs T v))
       else Z.lor setbits v)
    block 0%Z.

(** The local variables of [f_compress] that live across blocks. *)
Record enc_state : Type := mkEnc {
  e_data : buffer;
  e_bitp : nat;
  e_prevbits : nat;
  e_prolix_bits : nat
}.

(** The block header, lines 518-536 of [Terse.hpp]. *)
Definition emit_header (d : buffer) (bitp prevbits significant_bits : nat)
  : buffer * nat * nat :=
  if prevbits =? significant_bits then (set_bit d bitp, S bitp, prevbits)
  else if significant_bits <? 7 then
    (or_bits d (S bitp) 3 (Z.of_nat significant_bits),
     S bitp + 3, significant_bits)
  else if significant_bits <? 10 then
    (or_bits d (S bitp) 5 (7 + Z.shiftl (Z.of_nat (significant_bits - 7)) 3),
     S bitp + 5, significant_bits)
  else
    (or_bits d (S bitp) 11 (31 + Z.shiftl (Z.of_nat (significant_bits - 10)) 5),
     S bitp + 11, significant_bits).

(** One iteration of the block loop of [f_compress]; returns the state and
    the advanced input iterator. *)
Definition f_compress_block (T : int_type) (d_block d_size from : nat)
    (data : list Z) (st : enc_state) : enc_state * list Z :=
  let to := Nat.min d_size (from + d_block) in
  let setbits := f_setbits T (firstn (to - from) data) in
  let significant_bits := f_highest_set_bit T setbits in
  let prolix := Nat.max (e_prolix_bits st) significant_bits in
  let '(d, bitp, prevbits) :=
    emit_header (e_data st) (e_bitp st) (e_prevbits st) significant_bits in
  if significant_bits =? 0 then
    (mkEnc d bitp prevbits prolix, skipn d_block data)
  else
    let '(d', bitp') :=
      append_range d bitp significant_bits (firstn (to - from) data) in
    (mkEnc d' bitp' prevbits prolix, skipn (to - from) data).

(** [for (size_t from = 0; from < d_size; from += d_block)]. *)
Fixpoint f_compress_loop (fuel : nat) (T : int_type) (d_block d_size from : nat)
    (data : list Z) (st : enc_state) : option enc_state :=
  if from <? d_size then
    match fuel with
    | O => None
    | S fuel' =>
        let '(st', data') := f_compress_block T d_block d_size from data st in
        f_compress_loop fuel' T d_block d_size (from + d_block) data' st'
    end
  else Some st.

(** The bytes [f_compress] adds before encoding,
    [std::ceil(d_size * (sizeof(T) + 12.0L / (d_block * 8)))], as the exact
    value of the real expression.  The code evaluates it in [long double]:
    where [12 / (8 * d_block)] has no finite binary expansion the rounding
    can give one byte more, never one less.  The model takes the exact
    value, the smaller of the two: a frame encoded within these bytes is
    within those of the code. *)
Definition reserve (T : int_type) (d_size d_block : nat) : nat :=
  d_size * sizeof T + (12 * d_size + (8 * d_block - 1)) / (8 * d_block).

(** The state in which the block loop of [f_compress] starts. *)
Definition f_compress_init (T : int_type) (t : Terse) : enc_state :=
  let prev_data_size := length (d_terse_data t) in
  mkEnc (resize (d_terse_data t)
           (prev_data_size + reserve T (d_size t) (d_block t)))
        (8 * prev_data_size) 0 (d_prolix_bits t).

(** The state in which the block loop of [f_compress] ends. *)
Definition f_compress_run (T : int_type) (t : Terse) (data : list Z)
  : option enc_state :=
  f_compress_loop (d_size t) T (d_block t) (d_size t) 0 data
    (f_compress_init T t).

(** [Terse::f_compress]. *)
Definition f_compress (T : int_type) (t : Terse) (data : list Z)
  : outcome Terse :=
  match f_compress_run T t data with
  | None => Loops
  | Some st =>
      Done (mkTerse (d_signed t) (d_block t) (d_size t) (e_prolix_bits st)
              (d_dim t) (resize (e_data st) (1 + e_bitp st / 8))
              (d_terse_frames t))
  end.

(** [Terse()]: no frame; [d_signed] and [d_size] are indeterminate until the
    first [push_back] assigns them. *)
Definition Terse_empty : Terse := mkTerse false 12 0 0 [] [] [].

(** [Terse(Iterator data, size_t size, unsigned block)], the values being
    the [size] elements at [data]: the member initialisers and the
    [d_terse_frames.push_back(0)] of the body, then the call of
    [f_compress]. *)
Definition Terse_init (T : int_type) (data : list Z) (block : nat) : Terse :=
  mkTerse (is_signed_v T) block (length data) 0 [] [] [0].

Definition Terse_of (T : int_type) (data : list Z) (block : nat)
  : outcome Terse :=
  f_compress T (Terse_init T data block) data.

(** [Terse(std::ifstream&, XML_element const&)]: the members as the header
    gives them, the payload bytes, and every frame offset unresolved. *)
Definition Terse_of_stream (prolix_bits : nat) (sgn : bool) (block sz : nat)
    (dim : list nat) (payload : buffer) (frames : nat) : Terse :=
  mkTerse sgn block sz prolix_bits dim payload (repeat 0 frames).

(** [Terse::push_back(Iterator data, size_t size)]. *)
Definition push_back (T : int_type) (t : Terse) (data : list Z)
  : outcome Terse :=
  let sz := length data in
  if number_of_frames t =? 0 then
    f_compress T
      (mkTerse (is_signed_v T) (d_block t) sz (d_prolix_bits t) (d_dim t)
         (d_terse_data t) (d_terse_frames t ++ [0])) data
  else if negb (size t =? sz) then Fails ShapeMismatch
  else if negb (Bool.eqb (d_signed t) (is_signed_v T)) then
    Fails SignednessMismatch
  else
    f_compress T
      (mkTerse (d_signed t) (d_block t) (d_size t) (d_prolix_bits t) (d_dim t)
         (d_terse_data t) (d_terse_frames t ++ [0])) data.

(** ** Decoder: [Terse::prolix] and [Terse::f_find_terse_frame] *)

(** The header parse shared by [prolix] (lines 362-373) and
    [f_find_terse_frame] (lines 569-580); returns the width and the
    advanced cursor. *)
Definition parse_header (d : buffer) (bitp significant_bits : nat)
  : nat * nat :=
  if get_bit d bitp then (significant_bits, S bitp)
  else
    let bitp := S bitp in
    let significant_bits := Z.to_nat (read_bits d bitp 3) in
    let bitp := bitp + 3 in
    if significant_bits =? 7 then
      let significant_bits :=
        significant_bits + Z.to_nat (read_bits d bitp 2) in
      let bitp := bitp + 2 in
      if significant_bits =? 10 then
        (significant_bits + Z.to_nat (read_bits d bitp 6), bitp + 6)
      else (significant_bits, bitp)
    else (significant_bits, bitp).

(** The block loop of [prolix] for an integral output element type [U];
    returns the elements written to [begin[from .. size())] and the final
    cursor. *)
Fixpoint prolix_loop (fuel : nat) (U : int_type) (d_block d_size from : nat)
    (d : buffer) (bitp significant_bits : nat) : option (list Z * nat) :=
  if from <? d_size then
    match fuel with
    | O => None
    | S fuel' =>
        let '(significant_bits, bitp) :=
          parse_header d bitp significant_bits in
        let cnt := Nat.min d_size (from + d_block) - from in
        let '(vs, bitp) :=
          if significant_bits =? 0 then (repeat 0%Z cnt, bitp)
          else get_range U d bitp significant_bits cnt in
        match prolix_loop fuel' U d_block d_size (from + d_block) d bitp
                significant_bits with
        | None => None
        | Some (rest, q) => Some (vs ++ rest, q)
        end
    end
  else Some ([], bitp).

(** The block loop of [f_find_terse_frame]; returns the final cursor. *)
Fixpoint scan_loop (fuel : nat) (d_block d_size from : nat)
    (d : buffer) (bitp significant_bits : nat) : option nat :=
  if from <? d_size then
    match fuel with
    | O => None
    | S fuel' =>
        let '(significant_bits, bitp) :=
          parse_header d bitp significant_bits in
        scan_loop fuel' d_block d_size (from + d_block) d
          (bitp + significant_bits * d_block) significant_bits
    end
  else Some bitp.

(** [d_terse_frames[frame] = off]; an index past the end of the vector is
    outside the object (undefined in C++): nothing is stored. *)
Definition set_frame (t : Terse) (frame off : nat) : list nat :=
  match nth_error (d_terse_frames t) frame with
  | Some _ => firstn frame (d_terse_frames t) ++ off
                :: skipn (S frame) (d_terse_frames t)
  | None => d_terse_frames t
  end.

(** The store with other frame offsets. *)
Definition with_frames (t : Terse) (fr : list nat) : Terse :=
  mkTerse (d_signed t) (d_block t) (d_size t) (d_prolix_bits t) (d_dim t)
    (d_terse_data t) fr.

(** [Terse::f_find_terse_frame]: the store with the offsets it memoised and
    the byte offset of the pointer it returns ([None]: the scan never
    ends).  [prolix] calls it with a frame index below the number of
    frames; an entry past the end of the vector reads as unresolved. *)
Fixpoint f_find_terse_frame (t : Terse) (frame : nat) : option (Terse * nat) :=
  match frame with
  | O => Some (t, nth 0 (d_terse_frames t) 0)
  | S frame' =>
      if nth frame (d_terse_frames t) 0 =? 0 then
        match f_find_terse_frame t frame' with
        | None => None
        | Some (t', terse_begin) =>
            match scan_loop (d_size t') (d_block t') (d_size t') 0
                    (d_terse_data t') (8 * terse_begin) 0 with
            | None => None
            | Some bitp =>
                let off := 1 + (bitp - 8 * terse_begin) / 8 in
                Some (with_frames t' (set_frame t' frame off), off)
            end
        end
      else Some (t, nth frame (d_terse_frames t) 0)
  end.

(** [Terse::prolix(Iterator begin, std::size_t frame)] for an integral
    output element type [U]: the elements written at [begin] and the store
    with its memoised offsets. *)
Definition prolix (U : int_type) (t : Terse) (frame : nat)
  : outcome (list Z * Terse) :=
  if negb (frame <? number_of_frames t) then Fails FrameIndexOutOfRange
  else
    match f_find_terse_frame t frame with
    | None => Loops
    | Some (t', terse_begin) =>
        if d_signed t' && negb (is_signed_v U) then Fails SignednessMismatch
        else
          match prolix_loop (d_size t') U (d_block t') (d_size t') 0
                  (d_terse_data t') (8 * terse_begin) 0 with
          | None => Loops
          | Some (vs, bitp) =>
              let off := 1 + (bitp - 8 * terse_begin) / 8 in
              Done (vs,
                    if S frame <? length (d_terse_frames t')
                    then with_frames t' (set_frame t' (S frame) off)
                    else t')
          end
    end.

(** The byte offset [f_find_terse_frame] returns for a frame. *)
Definition offset_of (t : Terse) (frame : nat) : option nat :=
  option_map snd (f_find_terse_frame t frame).

(** The values of an outcome of [prolix]. *)
Definition unpacked (r : outcome (list Z * Terse)) : outcome (list Z) :=
  match r with
  | Done (vs, _) => Done vs
  | Fails e => Fails e
  | Loops => Loops
  end.

(** ** Containers and dimensions *)

(** A container of elements of an integral type, as the container overloads
    take it: its elements ([begin()], [size()]) and, when it has the member
    function, its [dim()]. *)
Record container : Type := mkContainer {
  c_values : list Z;
  c_dim : option (list nat)
}.

(** [Terse::dim()]. *)
Definition dim (t : Terse) : list nat := d_dim t.

(** The store with other dimensions. *)
Definition with_dim (t : Terse) (ds : list nat) : Terse :=
  mkTerse (d_signed t) (d_block t) (d_size t) (d_prolix_bits t) ds
    (d_terse_data t) (d_terse_frames t).

(** [Terse::dim(std::vector<std::size_t> const& dim)]: [None] when the
    assertion [d_dim.size() == 0] fails. *)
Definition dim_set (t : Terse) (ds : list nat) : option Terse :=
  if length (d_dim t) =? 0 then Some (with_dim t ds) else None.

(** The loops [for (i = 0; i != over.size(); ++i) assert(over[i] ==
    other[i])] of the container overloads, which run over the indices of one
    vector and index the other with them: every assertion holds
    ([Some true]), one fails ([Some false]), or, before any fails, an index
    is past the end of [other] ([None]: the read is outside the vector,
    undefined in C++). *)
Fixpoint dims_agree (over other : list nat) : option bool :=
  match over with
  | [] => Some true
  | x :: over' =>
      match other with
      | [] => None
      | y :: other' =>
          if x =? y then dims_agree over' other' else Some false
      end
  end.

(** [Terse(Container const& data)]: the constructor from [data.begin()] and
    [data.size()] with the default block size, then the dimensions of the
    container, when it has any, appended to [d_dim]. *)
Definition Terse_of_container (T : int_type) (data : container)
  : outcome Terse :=
  match Terse_of T (c_values data) 12 with
  | Done t =>
      Done (match c_dim data with
            | Some ds => with_dim t (d_dim t ++ ds)
            | None => t
            end)
  | Fails e => Fails e
  | Loops => Loops
  end.

(** [Terse::push_back(Container const& data)]: for a container with
    [dim()], its dimensions are appended to [d_dim] when the store has no
    frame and asserted equal to the entries of [d_dim] otherwise, the loop
    running over the indices of [data.dim()]; then the push of
    [data.begin()] and [data.size()].  [None]: the loop reads [d_dim] past
    its end. *)
Definition push_back_container (T : int_type) (t : Terse) (data : container)
  : option (outcome Terse) :=
  match c_dim data with
  | None => Some (push_back T t (c_values data))
  | Some ds =>
      if number_of_frames t =? 0 then
        Some (push_back T (with_dim t (d_dim t ++ ds)) (c_values data))
      else
        match dims_agree ds (d_dim t) with
        | None => None
        | Some false => Some (Fails ShapeMismatch)
        | Some true => Some (push_back T t (c_values data))
        end
  end.

(** [Terse::prolix(Container& data, std::size_t frame)] for a container of
    elements of an integral type [U]: the assertion on the size, the
    assertions on the dimensions (the loop running over the indices of
    [d_dim]), the assertion on the frame index, then the unpack at
    [data.begin()].  Returns the container and the store; [None]: the loop
    reads [data.dim()] past its end. *)
Definition prolix_container (U : int_type) (t : Terse) (data : container)
    (frame : nat) : option (outcome (container * Terse)) :=
  if negb (size t =? length (c_values data)) then Some (Fails ShapeMismatch)
  else
    match match c_dim data with
          | Some ds => dims_agree (d_dim t) ds
          | None => Some true
          end with
    | None => None
    | Some false => Some (Fails ShapeMismatch)
    | Some true =>
        if negb (frame <? number_of_frames t)
        then Some (Fails FrameIndexOutOfRange)
        else
          match prolix U t frame with
          | Done (vs, t') =>
              Some (Done (mkContainer
                            (vs ++ skipn (length vs) (c_values data))
                            (c_dim data), t'))
          | Fails e => Some (Fails e)
          | Loops => Some Loops
          end
    end.

(** ** The stream form: [Terse::write] *)

(** What [operator<<] puts on a stream with the default formatting flags,
    as bytes. *)
Module Text.

Import String Ascii.

(** A string literal. *)
Definition text (s : string) : list Z :=
  map (fun c => Z.of_N (N_of_ascii c)) (list_ascii_of_string s).

(** An unsigned integer, in decimal. *)
Definition decimal (n : nat) : list Z :=
  text (DecimalString.NilEmpty.string_of_uint (Nat.to_uint n)).

(** A [bool]: 1 or 0. *)
Definition boolean (b : bool) : list Z :=
  text (if b then "1" else "0")%string.

(** The double quote that opens and closes the value of an attribute. *)
Definition quote : list Z := [34%Z].

Definition space : list Z := text " ".

(** The loop over [d_dim] of [write]: every entry but the last followed by
    a space, then the last. *)
Fixpoint dimensions (ds : list nat) : list Z :=
  match ds with
  | [] => []
  | [d] => decimal d
  | d :: r => decimal d ++ space ++ dimensions r
  end.

(** The attribute [dimensions], written when [d_dim] is not empty. *)
Definition dimensions_attribute (ds : list nat) : list Z :=
  match ds with
  | [] => []
  | _ :: _ => text " dimensions=" ++ quote ++ dimensions ds ++ quote
  end.

(** The attribute [number_of_frames] and the end of the element. *)
Definition frames_attribute (frames : nat) : list Z :=
  text " number_of_frames=" ++ quote ++ decimal frames ++ quote ++ text "/>".

(** The XML element [write] puts before the packed bytes. *)
Definition header (prolix_bits : nat) (sgn : bool)
    (block memory_size number_of_values : nat) (ds : list nat)
    (frames : nat) : list Z :=
  text "<Terse prolix_bits=" ++ quote ++ decimal prolix_bits ++ quote
  ++ text " signed=" ++ quote ++ boolean sgn ++ quote
  ++ text " block=" ++ quote ++ decimal block ++ quote
  ++ text " memory_size=" ++ quote ++ decimal memory_size ++ quote
  ++ text " number_of_values=" ++ quote ++ decimal number_of_values ++ quote
  ++ dimensions_attribute ds
  ++ frames_attribute frames.

End Text.

(** [Terse::write(std::ostream&)]: the bytes the stream receives, the
    header and then the packed bytes; [memory_size] is
    [d_terse_data.size() * sizeof(std::uint8_t)]. *)
Definition write (t : Terse) : list Z :=
  Text.header (d_prolix_bits t) (d_signed t) (d_block t)
    (length (d_terse_data t) * 1) (size t) (d_dim t)
    (length (d_terse_frames t))
  ++ d_terse_data t.

(** ** Vocabulary of the properties *)

(** The bits of the buffer at positions [p .. p + n). *)
Definition bits_at (d : buffer) (p n : nat) : list bool :=
  map (get_bit d) (seq p n).

(** Every bit from position [p] on is clear: the encoder writes into
    zero-filled bytes. *)
Definition zero_from (d : buffer) (p : nat) : Prop :=
  forall q, p <= q -> get_bit d q = false.

(** Two buffers hold the same bits at positions [lo .. hi). *)
Definition agree (d d' : buffer) (lo hi : nat) : Prop :=
  forall q, lo <= q < hi -> get_bit d' q = get_bit d q.

(** *** The words of the specification *)

(** An [n]-bit field holding [v], least significant bit first. *)
Fixpoint lsb_bits (n : nat) (v : Z) : list bool :=
  match n with
  | O => []
  | S n' => Z.odd v :: lsb_bits n' (Z.div2 v)
  end.

(** The header-bit grammar of section 4.2, as the specification words it. *)
Definition header_bits (w_prev w : nat) : list bool :=
  if w =? w_prev then [true]
  else if w <=? 6 then false :: lsb_bits 3 (Z.of_nat w)
  else if w <=? 9 then
    false :: [true; true; true] ++ lsb_bits 2 (Z.of_nat (w - 7))
  else
    false :: [true; true; true; true; true] ++ lsb_bits 6 (Z.of_nat (w - 10)).

(** Block segmentation of section 4.2: groups of exactly [B] values, the
    last one possibly shorter. *)
Fixpoint blocks_of (fuel B : nat) (xs : list Z) : list (list Z) :=
  match fuel, xs with
  | O, _ | _, [] => []
  | S fuel', _ => firstn B xs :: blocks_of fuel' B (skipn B xs)
  end.

(** The blocks of a frame. *)
Definition blocks (B : nat) (xs : list Z) : list (list Z) :=
  blocks_of (length xs) B xs.

(** "Bits needed" for an unsigned value: 0 for 0, else floor(log2) + 1. *)
Definition bits_needed (x : Z) : nat :=
  if (x =? 0)%Z then 0 else S (Z.to_nat (Z.log2 x)).

(** The unsigned representation a value contributes to the OR: itself for
    unsigned data, its absolute value for signed data. *)
Definition magnitude (sgn : bool) (v : Z) : Z := if sgn then Z.abs v else v.

(** The width of a block as section 4.2 words it: for unsigned data the
    position of the highest set bit of the OR of the values; for signed data
    the bits needed for the OR of the absolute values, plus one; 0 when
    every value is 0. *)
Definition width_spec (sgn : bool) (block : list Z) : nat :=
  let o := fold_left Z.lor (map (magnitude sgn) block) 0%Z in
  if (o =? 0)%Z then 0 else bits_needed o + (if sgn then 1 else 0).

(** *** The code, by block and by frame *)

(** The width [f_compress] gives a block. *)
Definition block_width (T : int_type) (block : list Z) : nat :=
  f_highest_set_bit T (f_setbits T block).

(** The encoder stayed inside the bytes it reserved: the final cursor of
    the block loop is not past the end of the grown vector. *)
Definition within_reserve (T : int_type) (t : Terse) (data : list Z) : Prop :=
  forall st, f_compress_run T t data = Some st ->
             e_bitp st <= 8 * length (e_data st).

(** The same as a test. *)
Definition within_reserveb (T : int_type) (t : Terse) (data : list Z) : bool :=
  match f_compress_run T t data with
  | Some st => e_bitp st <=? 8 * length (e_data st)
  | None => true
  end.

(** The largest element of a list of widths. *)
Definition max_width (ws : list nat) : nat := fold_right Nat.max 0 ws.

(** The stores a program can hold: built by a constructor, then changed by
    [push_back], [prolix] and the offset look-up [prolix] starts with. *)
Inductive reachable : Terse -> Prop :=
  | reach_empty : reachable Terse_empty
  | reach_of T data block t :
      Terse_of T data block = Done t -> reachable t
  | reach_stream prolix_bits sgn block sz dim payload frames :
      reachable (Terse_of_stream prolix_bits sgn block sz dim payload frames)
  | reach_push_back T t data t' :
      reachable t -> push_back T t data = Done t' -> reachable t'
  | reach_prolix U t frame vs t' :
      reachable t -> prolix U t frame = Done (vs, t') -> reachable t'
  | reach_find t frame t' off :
      reachable t -> f_find_terse_frame t frame = Some (t', off) ->
      reachable t'.

(** The stores a store becomes by further calls of [push_back], [prolix]
    and the offset look-up. *)
Inductive evolves (t : Terse) : Terse -> Prop :=
  | evolves_refl : evolves t t
  | evolves_push_back T t1 data t2 :
      evolves t t1 -> push_back T t1 data = Done t2 -> evolves t t2
  | evolves_prolix U t1 frame vs t2 :
      evolves t t1 -> prolix U t1 frame = Done (vs, t2) -> evolves t t2
  | evolves_find t1 frame t2 off :
      evolves t t1 -> f_find_terse_frame t1 frame = Some (t2, off) ->
      evolves t t2.

(** What further calls keep of a store that has a frame: the frame
    parameters, the first offset and the bytes packed so far. *)
Definition keeps (t t' : Terse) : Prop :=
  1 <= number_of_frames t'
  /\ nth 0 (d_terse_frames t') 0 = nth 0 (d_terse_frames t) 0
  /\ d_signed t' = d_signed t /\ d_size t' = d_size t
  /\ d_block t' = d_block t
  /\ d_prolix_bits t <= d_prolix_bits t'
  /\ length (d_terse_data t) <= length (d_terse_data t')
  /\ agree (d_terse_data t) (d_terse_data t') 0 (8 * length (d_terse_data t)).

(** The states in which the block loop of [f_compress], started with
    [fuel], [from], [data] and [st], begins an iteration or ends. *)
Inductive loop_reaches (T : int_type) (B N : nat) :
    nat -> nat -> list Z -> enc_state ->
    nat -> nat -> list Z -> enc_state -> Prop :=
  | loop_here fuel from data st :
      loop_reaches T B N fuel from data st fuel from data st
  | loop_step fuel from data st st1 data1 fuel' from' data' st' :
      from < N ->
      f_compress_block T B N from data st = (st1, data1) ->
      loop_reaches T B N fuel (from + B) data1 st1 fuel' from' data' st' ->
      loop_reaches T B N (S fuel) from data st fuel' from' data' st'.

(** The state, the position and the values left after the first [k]
    iterations of the block loop of [f_compress]. *)
Fixpoint after_blocks (k : nat) (T : int_type) (B N from : nat)
    (data : list Z) (st : enc_state) : nat * list Z * enc_state :=
  match k with
  | O => (from, data, st)
  | S k' =>
      let '(st1, data1) := f_compress_block T B N from data st in
      after_blocks k' T B N (from + B) data1 st1
  end.

(** The number of blocks of a frame of [n] values. *)
Definition block_count (n B : nat) : nat := (n + (B - 1)) / B.

(** The state of the encoder in a byte vector that has the bytes [pre] in
    front: the same bytes after [pre], the cursor [8 * length pre] bits
    further, the same previous width. *)
Definition shifted (pre : buffer) (st st' : enc_state) : Prop :=
  e_data st' = pre ++ e_data st
  /\ e_bitp st' = 8 * length pre + e_bitp st
  /\ e_prevbits st' = e_prevbits st.

(** ** Frames of the scenarios of section 8 *)

(** A signed 8-bit frame of 408 values -128: 17 blocks of 24 values. *)
Definition minima_frame : list Z := repeat (-128)%Z 408.

(** S3: eleven zeros and 65535, unsigned 16-bit. *)
Definition S3_frame : list Z := repeat 0%Z 11 ++ [65535%Z].

(** S5: the minimum and the maximum of a signed 32-bit integer. *)
Definition S5_frame : list Z := [(-2147483648)%Z; 2147483647%Z].

(** The same at 16 bits, where no step of the width computation is
    undefined in C++. *)
Definition S5_frame16 : list Z := [(-32768)%Z; 32767%Z].

(** S4: two unsigned frames, block size 3. *)
Definition S4_first : list Z := [1%Z; 2%Z; 3%Z].
Definition S4_second : list Z := [1000000%Z; 2%Z; 3%Z].

(** Thirteen unsigned 16-bit values with block size 12: a block of width 16
    and a short last block of width 15, each with a 12-bit header. *)
Definition short_reserve_frame : list Z := repeat 0%Z 11 ++ [65535%Z; 20000%Z].

(** S2: 262144 zeros. *)
Definition S2_frame : list Z := repeat 0%Z (512 * 512).

(** Two signed 16-bit frames of eight values, and the stores a constructor
    with block size 3 and a push build from them. *)
Definition S1_first : list Z := [-500; 3; 499; 0; 0; 0; 7; -32767]%Z.

Definition S1_second : list Z := [1; -2; 3; -4; 5; -6; 7; -8]%Z.

Definition S1_one : Terse :=
  Eval vm_compute in
    match Terse_of Int16 S1_first 3 with
    | Done t => t
    | _ => Terse_empty
    end.

Definition S1_two : Terse :=
  Eval vm_compute in
    match push_back Int16 S1_one S1_second with
    | Done t => t
    | _ => Terse_empty
    end.

(** The store of S4 after the first frame, and after the second. *)
Definition S4_one : Terse := mkTerse false 3 3 2 [] [148; 3]%Z [0].

Definition S4_two : Terse :=
  mkTerse false 3 3 20 [] [148; 3; 190; 2; 36; 244; 2; 0; 48; 0; 0; 0]%Z
    [0; 0].

(** The first of them with the dimensions 1 x 3. *)
Definition S4_dims : Terse := mkTerse false 3 3 2 [1; 3] [148; 3]%Z [0].

(** * Properties *)

Ltac Zify.zify_post_hook ::= Z.div_mod_to_equations.

(** ** Bytes and bits *)

Lemma length_upd (d : buffer) i b : length (upd d i b) = length d.
Proof.
  revert i; induction d as [|x d IH]; intros [|i]; simpl; auto.
Qed.

Lemma nth_upd (d : buffer) i j b :
  nth j (upd d i b) 0%Z
  = if (i =? j) && (i <? length d) then b else nth j d 0%Z.
Proof.
  revert i j; induction d as [|x d IH]; intros i j.
  - destruct i, j; simpl; rewrite ?andb_false_r; reflexivity.
  - destruct i as [|i], j as [|j]; simpl; try reflexivity.
    rewrite IH. reflexivity.
Qed.

Lemma length_set_bit d p : length (set_bit d p) = length d.
Proof.
  unfold set_bit. destruct (p / 8 <? length d); auto using length_upd.
Qed.

Lemma get_bit_set_bit d p q :
  get_bit (set_bit d p) q
  = ((p =? q) && (p / 8 <? length d)) || get_bit d q.
Proof.
  unfold get_bit, set_bit.
  destruct (p / 8 <? length d) eqn:E; [|rewrite andb_false_r; reflexivity].
  rewrite nth_upd, E, andb_true_r.
  destruct (p / 8 =? q / 8) eqn:E2.
  - apply Nat.eqb_eq in E2. rewrite Z.lor_spec, Z.pow2_bits_eqb by lia.
    rewrite <- E2, orb_comm. f_equal.
    destruct (p =? q) eqn:E3.
    + apply Nat.eqb_eq in E3. subst q. apply Z.eqb_refl.
    + apply Nat.eqb_neq in E3. apply Z.eqb_neq. lia.
  - apply Nat.eqb_neq in E2.
    replace (p =? q) with false; [reflexivity|].
    symmetry. apply Nat.eqb_neq. intros ->. auto.
Qed.

Lemma get_bit_outside d q : length d <= q / 8 -> get_bit d q = false.
Proof.
  intros H. unfold get_bit. rewrite nth_overflow by assumption.
  apply Z.testbit_0_l.
Qed.

Lemma length_or_bits n d p v : length (or_bits d p n v) = length d.
Proof.
  revert d p v; induction n as [|n IH]; intros; simpl; auto.
  rewrite IH. destruct (Z.odd v); auto using length_set_bit.
Qed.

Ltac nat_cases :=
  repeat match goal with
    | |- context [?a <=? ?b] => destruct (Nat.leb_spec a b)
    | |- context [?a <? ?b] => destruct (Nat.ltb_spec a b)
    | |- context [Nat.eqb ?a ?b] => destruct (Nat.eqb_spec a b)
    end; try lia.

Lemma get_bit_or_bits n d p v q :
  get_bit (or_bits d p n v) q
  = ((p <=? q) && (q <? p + n) && (q / 8 <? length d)
     && Z.testbit v (Z.of_nat (q - p))) || get_bit d q.
Proof.
  revert d p v; induction n as [|n IH]; intros d p v; cbn [or_bits].
  - nat_cases; reflexivity.
  - rewrite IH, Z.div2_spec. clear IH.
    assert (T0 : p = q -> Z.testbit v (Z.of_nat (q - p)) = Z.odd v).
    { intros ->. rewrite Nat.sub_diag. apply Z.bit0_odd. }
    assert (T1 : S p <= q ->
                 Z.testbit (Z.shiftr v 1) (Z.of_nat (q - S p))
                 = Z.testbit v (Z.of_nat (q - p))).
    { intros. rewrite Z.shiftr_spec by lia. f_equal. lia. }
    destruct (Z.odd v) eqn:Ev;
      rewrite ?length_set_bit, ?get_bit_set_bit;
      nat_cases; cbn [andb orb];
      rewrite ?T0, ?T1 by lia; try reflexivity;
      destruct (get_bit d q); reflexivity.
Qed.

Lemma or_bits_before n d p v q :
  q < p -> get_bit (or_bits d p n v) q = get_bit d q.
Proof.
  intros. rewrite get_bit_or_bits. nat_cases; reflexivity.
Qed.

Lemma or_bits_after n d p v q :
  p + n <= q -> get_bit (or_bits d p n v) q = get_bit d q.
Proof.
  intros. rewrite get_bit_or_bits. nat_cases; reflexivity.
Qed.

Lemma or_bits_field n d p v i :
  zero_from d p -> i < n -> p + n <= 8 * length d ->
  get_bit (or_bits d p n v) (p + i) = Z.testbit v (Z.of_nat i).
Proof.
  intros Z0 Hi Hc. rewrite get_bit_or_bits, (Z0 (p + i)) by lia.
  replace (p + i - p) with i by lia.
  nat_cases. cbn [andb orb]. apply orb_false_r.
Qed.

Lemma or_bits_zero_from n d p v c :
  zero_from d c -> c <= p -> zero_from (or_bits d p n v) (p + n).
Proof.
  intros Z0 Hc q Hq. rewrite or_bits_after by lia. apply Z0. lia.
Qed.

Lemma read_bits_ext n d d' p :
  agree d d' p (p + n) -> read_bits d' p n = read_bits d p n.
Proof.
  revert p; induction n as [|n IH]; intros p H; cbn [read_bits]; auto.
  rewrite (H p) by lia. rewrite IH; auto.
  intros q Hq. apply H. lia.
Qed.

Lemma read_bits_spec n d p v :
  (forall i, i < n -> get_bit d (p + i) = Z.testbit v (Z.of_nat i)) ->
  read_bits d p n = (v mod 2 ^ Z.of_nat n)%Z.
Proof.
  revert p v; induction n as [|n IH]; intros p v H; cbn [read_bits].
  - simpl. symmetry. apply Z.mod_1_r.
  - rewrite (IH (S p) (Z.div2 v)).
    + specialize (H 0 (Nat.lt_0_succ n)). rewrite Nat.add_0_r in H.
      rewrite H. change (Z.of_nat 0) with 0%Z. rewrite Z.bit0_odd.
      rewrite Nat2Z.inj_succ, Z.pow_succ_r by lia.
      rewrite Z.rem_mul_r by lia. rewrite Zmod_odd, Z.div2_div.
      destruct (Z.odd v); reflexivity.
    + intros i Hi. replace (S p + i) with (p + S i) by lia.
      rewrite H by lia. rewrite Z.div2_spec, Z.shiftr_spec by lia.
      f_equal. lia.
Qed.

Lemma read_bits_shift n d p v k :
  (forall i, i < n -> get_bit d (p + i) = Z.testbit v (Z.of_nat (k + i))) ->
  read_bits d p n = ((v / 2 ^ Z.of_nat k) mod 2 ^ Z.of_nat n)%Z.
Proof.
  intros H. rewrite <- Z.shiftr_div_pow2 by lia.
  apply read_bits_spec. intros i Hi.
  rewrite H by assumption. rewrite Z.shiftr_spec by lia. f_equal. lia.
Qed.

Lemma read_bits_bounds n d p : (0 <= read_bits d p n < 2 ^ Z.of_nat n)%Z.
Proof.
  revert p; induction n as [|n IH]; intros p; cbn [read_bits].
  - simpl. lia.
  - specialize (IH (S p)). rewrite Nat2Z.inj_succ, Z.pow_succ_r by lia.
    destruct (get_bit d p); cbn [Z.b2z]; lia.
Qed.

Lemma bits_at_length d p n : length (bits_at d p n) = n.
Proof. unfold bits_at. rewrite length_map, length_seq. reflexivity. Qed.

Lemma bits_at_app d p a b :
  bits_at d p (a + b) = bits_at d p a ++ bits_at d (p + a) b.
Proof. unfold bits_at. rewrite seq_app, map_app. reflexivity. Qed.

Lemma lsb_bits_testbit n v :
  lsb_bits n v = map (fun i => Z.testbit v (Z.of_nat i)) (seq 0 n).
Proof.
  revert v; induction n as [|n IH]; intros v; cbn [lsb_bits seq map]; auto.
  rewrite <- seq_shift, map_map, IH, <- Z.bit0_odd. f_equal.
  apply map_ext. intros i. rewrite Z.div2_spec, Z.shiftr_spec by lia.
  f_equal. lia.
Qed.

Lemma seq_as_map p n : seq p n = map (Nat.add p) (seq 0 n).
Proof.
  induction p as [|p IH].
  - symmetry. apply map_id.
  - rewrite <- seq_shift, IH, map_map. reflexivity.
Qed.

Lemma bits_at_or_bits n d p v :
  zero_from d p -> p + n <= 8 * length d ->
  bits_at (or_bits d p n v) p n = lsb_bits n v.
Proof.
  intros Z0 Hc. rewrite lsb_bits_testbit. unfold bits_at.
  rewrite seq_as_map, map_map. apply map_ext_in.
  intros i Hi. apply in_seq in Hi.
  apply or_bits_field; auto; lia.
Qed.

Lemma cons_eq_inv {A} (a b : A) (l l' : list A) :
  a :: l = b :: l' -> a = b /\ l = l'.
Proof. intros H. injection H. auto. Qed.

Lemma bits_at_cons d p n :
  bits_at d p (S n) = get_bit d p :: bits_at d (S p) n.
Proof. reflexivity. Qed.

Lemma bits_at_ext d d' p n :
  agree d d' p (p + n) -> bits_at d' p n = bits_at d p n.
Proof.
  intros H. unfold bits_at. apply map_ext_in. intros q Hq.
  apply in_seq in Hq. apply H. lia.
Qed.

Lemma read_bits_of_bits n d p v :
  bits_at d p n = lsb_bits n v ->
  read_bits d p n = (v mod 2 ^ Z.of_nat n)%Z.
Proof.
  intros H. apply read_bits_spec. intros i Hi.
  rewrite lsb_bits_testbit in H. unfold bits_at in H.
  rewrite seq_as_map, map_map in H.
  assert (E : nth i (map (fun x => get_bit d (p + x)) (seq 0 n)) false
              = nth i (map (fun i => Z.testbit v (Z.of_nat i)) (seq 0 n))
                  false) by (rewrite H; reflexivity).
  rewrite (nth_indep _ false (get_bit d (p + 0))) in E
    by (rewrite length_map, length_seq; lia).
  rewrite (nth_indep _ false (Z.testbit v (Z.of_nat 0))) in E
    by (rewrite length_map, length_seq; lia).
  rewrite (map_nth (fun x => get_bit d (p + x))) in E.
  rewrite (map_nth (fun i => Z.testbit v (Z.of_nat i))) in E.
  rewrite seq_nth in E by assumption. exact E.
Qed.

Lemma lsb_bits_app a b v :
  lsb_bits (a + b) v = lsb_bits a v ++ lsb_bits b (v / 2 ^ Z.of_nat a)%Z.
Proof.
  revert v; induction a as [|a IH]; intros v.
  - cbn [Nat.add lsb_bits app]. change (2 ^ Z.of_nat 0)%Z with 1%Z.
    rewrite Z.div_1_r. reflexivity.
  - cbn [Nat.add lsb_bits app]. rewrite IH. do 2 f_equal.
    rewrite Z.div2_div, Nat2Z.inj_succ, Z.pow_succ_r by lia.
    rewrite Z.div_div by lia. reflexivity.
Qed.

Lemma app_same_length {A} (l1 l1' l2 l2' : list A) :
  length l1 = length l1' -> l1 ++ l2 = l1' ++ l2' -> l1 = l1' /\ l2 = l2'.
Proof.
  revert l1'; induction l1 as [|x l1 IH]; intros [|y l1'] L E;
    try discriminate; simpl in *.
  - auto.
  - injection E as -> E. destruct (IH l1') as [-> ->]; auto.
Qed.

Lemma bits_at_split d p a b v :
  bits_at d p (a + b) = lsb_bits (a + b) v ->
  bits_at d p a = lsb_bits a v
  /\ bits_at d (p + a) b = lsb_bits b (v / 2 ^ Z.of_nat a)%Z.
Proof.
  rewrite bits_at_app, lsb_bits_app. apply app_same_length.
  rewrite bits_at_length, lsb_bits_testbit, length_map, length_seq.
  reflexivity.
Qed.

(** ** The block header *)

Lemma header_bits_code prev w :
  w <= 73 ->
  header_bits prev w
  = if prev =? w then [true]
    else false ::
         (if w <? 7 then lsb_bits 3 (Z.of_nat w)
          else if w <? 10 then
            lsb_bits 5 (7 + Z.shiftl (Z.of_nat (w - 7)) 3)
          else lsb_bits 11 (31 + Z.shiftl (Z.of_nat (w - 10)) 5)).
Proof.
  intros H. unfold header_bits. rewrite (Nat.eqb_sym w prev).
  destruct (prev =? w); [reflexivity|].
  do 74 (destruct w as [|w]; [reflexivity|]). lia.
Qed.

Lemma header_bits_length prev w :
  length (header_bits prev w)
  = if prev =? w then 1 else if w <? 7 then 4 else if w <? 10 then 6 else 12.
Proof.
  unfold header_bits. rewrite (Nat.eqb_sym w prev).
  destruct (prev =? w); [reflexivity|].
  do 10 (destruct w as [|w]; [reflexivity|]). reflexivity.
Qed.

(** The decoder's header parse recovers the width from the bits of the
    grammar. *)
Lemma parse_header_bits d bitp prev w :
  w <= 73 ->
  bits_at d bitp (length (header_bits prev w)) = header_bits prev w ->
  parse_header d bitp prev = (w, bitp + length (header_bits prev w)).
Proof.
  intros Hw. rewrite header_bits_length, (header_bits_code prev w Hw).
  unfold parse_header.
  destruct (prev =? w) eqn:E.
  - apply Nat.eqb_eq in E. subst prev. rewrite bits_at_cons.
    intros H. apply cons_eq_inv in H. destruct H as [-> _]. f_equal. lia.
  - clear E.
    destruct (w <? 7) eqn:E7; [|destruct (w <? 10) eqn:E10].
    + rewrite bits_at_cons. intros H.
      apply cons_eq_inv in H. destruct H as [-> H].
      apply read_bits_of_bits in H. rewrite H.
      apply Nat.ltb_lt in E7.
      replace (Z.of_nat w mod 2 ^ Z.of_nat 3)%Z with (Z.of_nat w)
        by (change (2 ^ Z.of_nat 3)%Z with 8%Z; lia).
      rewrite Nat2Z.id.
      replace (w =? 7) with false by (symmetry; apply Nat.eqb_neq; lia).
      f_equal. lia.
    + rewrite bits_at_cons. intros H.
      apply cons_eq_inv in H. destruct H as [-> H].
      apply (bits_at_split d (S bitp) 3 2) in H. destruct H as [H3 H2].
      apply read_bits_of_bits in H3, H2. rewrite H3, H2.
      apply Nat.ltb_ge in E7. apply Nat.ltb_lt in E10.
      rewrite Z.shiftl_mul_pow2 by lia.
      change (2 ^ Z.of_nat 3)%Z with 8%Z. change (2 ^ Z.of_nat 2)%Z with 4%Z.
      change (2 ^ 3)%Z with 8%Z.
      replace ((7 + Z.of_nat (w - 7) * 8) mod 8)%Z with 7%Z by lia.
      replace (((7 + Z.of_nat (w - 7) * 8) / 8) mod 4)%Z
        with (Z.of_nat (w - 7)) by lia.
      change (Z.to_nat 7) with 7. rewrite Nat.eqb_refl, Nat2Z.id.
      replace (7 + (w - 7) =? 10) with false
        by (symmetry; apply Nat.eqb_neq; lia).
      f_equal; lia.
    + rewrite bits_at_cons. intros H.
      apply cons_eq_inv in H. destruct H as [-> H].
      apply (bits_at_split d (S bitp) 3 8) in H. destruct H as [H3 H].
      apply (bits_at_split d (S bitp + 3) 2 6) in H. destruct H as [H2 H6].
      apply read_bits_of_bits in H3, H2, H6. rewrite H3, H2, H6.
      apply Nat.ltb_ge in E7, E10.
      rewrite Z.shiftl_mul_pow2 by lia.
      change (2 ^ Z.of_nat 3)%Z with 8%Z. change (2 ^ Z.of_nat 2)%Z with 4%Z.
      change (2 ^ Z.of_nat 6)%Z with 64%Z. change (2 ^ 5)%Z with 32%Z.
      replace ((31 + Z.of_nat (w - 10) * 32) mod 8)%Z with 7%Z by lia.
      replace (((31 + Z.of_nat (w - 10) * 32) / 8) mod 4)%Z with 3%Z by lia.
      replace ((((31 + Z.of_nat (w - 10) * 32) / 8) / 4) mod 64)%Z
        with (Z.of_nat (w - 10)) by lia.
      change (Z.to_nat 7) with 7. change (Z.to_nat 3) with 3.
      rewrite Nat.eqb_refl. cbn [Nat.add]. rewrite Nat.eqb_refl, Nat2Z.id.
      f_equal; lia.
Qed.

Lemma zero_from_le d p q : zero_from d p -> p <= q -> zero_from d q.
Proof. intros Z0 H r Hr. apply Z0. lia. Qed.

Lemma set_bit_other d p q : p <> q -> get_bit (set_bit d p) q = get_bit d q.
Proof.
  intros. rewrite get_bit_set_bit.
  replace (p =? q) with false by (symmetry; apply Nat.eqb_neq; assumption).
  reflexivity.
Qed.

(** What the header emission leaves alone, whatever the capacity. *)
Lemma emit_header_frame d bitp prev w :
  let '(d', bitp', prev') := emit_header d bitp prev w in
  prev' = w /\ length d' = length d
  /\ bitp' = bitp + length (header_bits prev w)
  /\ agree d d' 0 bitp /\ (zero_from d bitp -> zero_from d' bitp').
Proof.
  rewrite header_bits_length. unfold emit_header.
  destruct (prev =? w) eqn:E.
  - apply Nat.eqb_eq in E. repeat split; try lia.
    + apply length_set_bit.
    + intros q Hq. apply set_bit_other. lia.
    + intros Z0 q Hq. rewrite set_bit_other by lia. apply Z0. lia.
  - destruct (w <? 7); [|destruct (w <? 10)];
      (repeat split; try lia;
       [ apply length_or_bits
       | intros q Hq; apply or_bits_before; lia
       | intros Z0 q Hq; rewrite or_bits_after by lia; apply Z0; lia ]).
Qed.

(** With room in the zero-filled buffer, the header emission writes the bits
    of the grammar. *)
Lemma emit_header_bits d bitp prev w :
  w <= 73 -> zero_from d bitp ->
  bitp + length (header_bits prev w) <= 8 * length d ->
  bits_at (fst (fst (emit_header d bitp prev w))) bitp
    (length (header_bits prev w))
  = header_bits prev w.
Proof.
  intros Hw Z0. rewrite header_bits_length, (header_bits_code prev w Hw).
  unfold emit_header.
  assert (Z1 : zero_from d (S bitp)) by (apply (zero_from_le d bitp); auto).
  destruct (prev =? w) eqn:E; cbn [fst].
  - intros Hc. rewrite bits_at_cons, get_bit_set_bit, Nat.eqb_refl.
    replace (bitp / 8 <? length d) with true
      by (symmetry; apply Nat.ltb_lt; lia).
    reflexivity.
  - destruct (w <? 7); [|destruct (w <? 10)]; cbn [fst]; intros Hc;
      rewrite bits_at_cons, or_bits_before, (Z0 bitp), bits_at_or_bits
        by (auto; lia);
      reflexivity.
Qed.

(** ** Widths *)

Lemma bits_needed_half x :
  (0 < x)%Z -> bits_needed x = S (bits_needed (x / 2)).
Proof.
  intros H. unfold bits_needed.
  replace (x =? 0)%Z with false by (symmetry; apply Z.eqb_neq; lia).
  destruct (Z.eq_dec x 1) as [->|N].
  - reflexivity.
  - replace (x / 2 =? 0)%Z with false by (symmetry; apply Z.eqb_neq; lia).
    f_equal.
    rewrite <- Z.div2_div, Z.div2_spec, Z.log2_shiftr by lia.
    assert (1 <= Z.log2 x)%Z.
    { apply (Z.log2_le_mono 2 x). lia. }
    lia.
Qed.

Lemma highest_set_bit_loop_spec fuel val r :
  (0 <= val < 2 ^ Z.of_nat fuel)%Z ->
  highest_set_bit_loop fuel val r = r + bits_needed val.
Proof.
  revert val r; induction fuel as [|fuel IH]; intros val r H.
  - simpl in H. assert (val = 0%Z) by lia. subst.
    change (bits_needed 0) with 0. simpl. lia.
  - cbn [highest_set_bit_loop].
    destruct (val =? 0)%Z eqn:E.
    + apply Z.eqb_eq in E. subst. change (bits_needed 0) with 0. lia.
    + apply Z.eqb_neq in E.
      rewrite Z.shiftr_div_pow2 by lia. change (2 ^ 1)%Z with 2%Z.
      rewrite IH.
      * rewrite (bits_needed_half val) by lia. lia.
      * rewrite Nat2Z.inj_succ, Z.pow_succ_r in H by lia. lia.
Qed.

Lemma bits_needed_bound x n :
  (0 <= x)%Z -> (x < 2 ^ Z.of_nat n)%Z <-> bits_needed x <= n.
Proof.
  intros H. unfold bits_needed.
  destruct (x =? 0)%Z eqn:E.
  - apply Z.eqb_eq in E. subst. split; intros; [lia|].
    apply Z.pow_pos_nonneg; lia.
  - apply Z.eqb_neq in E. rewrite Z.log2_lt_pow2 by lia.
    pose proof (Z.log2_nonneg x). lia.
Qed.

Lemma bits_needed_lt x : (0 <= x)%Z -> (x < 2 ^ Z.of_nat (bits_needed x))%Z.
Proof. intros H. apply bits_needed_bound; auto. Qed.

Lemma bits_needed_lor a b :
  (0 <= a)%Z -> (0 <= b)%Z ->
  bits_needed (Z.lor a b) = Nat.max (bits_needed a) (bits_needed b).
Proof.
  intros Ha Hb. unfold bits_needed.
  destruct (a =? 0)%Z eqn:Ea.
  - apply Z.eqb_eq in Ea. subst. rewrite Z.lor_0_l. reflexivity.
  - destruct (b =? 0)%Z eqn:Eb.
    + apply Z.eqb_eq in Eb. subst. rewrite Z.lor_0_r, Ea. lia.
    + apply Z.eqb_neq in Ea, Eb.
      assert (0 <= Z.lor a b)%Z by (apply Z.lor_nonneg; auto).
      assert (Z.lor a b <> 0)%Z.
      { intros E. apply Z.lor_eq_0_iff in E. lia. }
      replace (Z.lor a b =? 0)%Z with false
        by (symmetry; apply Z.eqb_neq; assumption).
      rewrite Z.log2_lor by assumption.
      pose proof (Z.log2_nonneg a). pose proof (Z.log2_nonneg b). lia.
Qed.

Lemma bits_needed_0 x : (0 <= x)%Z -> bits_needed x = 0 -> x = 0%Z.
Proof.
  unfold bits_needed. destruct (x =? 0)%Z eqn:E; [|discriminate].
  intros. apply Z.eqb_eq. assumption.
Qed.

(** The OR of non-negative values: non-negative, and needing as many bits
    as the widest of them. *)
Lemma fold_lor_spec (l : list Z) acc :
  (0 <= acc)%Z -> Forall (fun v => 0 <= v)%Z l ->
  (0 <= fold_left Z.lor l acc)%Z
  /\ bits_needed (fold_left Z.lor l acc)
     = Nat.max (bits_needed acc) (max_width (map bits_needed l)).
Proof.
  revert acc; induction l as [|v l IH]; intros acc Ha Hl; cbn [fold_left].
  - simpl. split; [assumption|lia].
  - inversion Hl as [|? ? Hv Hl']; subst.
    destruct (IH (Z.lor acc v)) as [I1 I2]; auto.
    { apply Z.lor_nonneg; auto. }
    split; [assumption|].
    rewrite I2, bits_needed_lor by assumption.
    cbn [map max_width fold_right]. fold (max_width (map bits_needed l)).
    lia.
Qed.

Lemma max_width_ge ws w : In w ws -> w <= max_width ws.
Proof.
  induction ws as [|x ws IH]; intros H; [contradiction|].
  cbn [max_width fold_right]. fold (max_width ws).
  destruct H as [->|H]; [lia|]. specialize (IH H). lia.
Qed.

Lemma max_width_le ws n : Forall (fun w => w <= n) ws -> max_width ws <= n.
Proof.
  induction 1; cbn [max_width fold_right]; [lia|].
  fold (max_width l). lia.
Qed.

Lemma bits_bounds T : 8 <= bits T <= 64.
Proof. destruct T; cbv; lia. Qed.

Lemma max_value_pow T :
  max_value T
  = (2 ^ Z.of_nat (if is_signed_v T then bits T - 1 else bits T) - 1)%Z.
Proof. unfold max_value. destruct (is_signed_v T); reflexivity. Qed.

Ltac pow2_consts :=
  repeat match goal with
    | |- context [(2 ^ Z.of_nat ?n)%Z] =>
        let k := eval cbv in (2 ^ Z.of_nat n)%Z in
        change (2 ^ Z.of_nat n)%Z with k in *
    | H : context [(2 ^ Z.of_nat ?n)%Z] |- _ =>
        let k := eval cbv in (2 ^ Z.of_nat n)%Z in
        change (2 ^ Z.of_nat n)%Z with k in *
    end.

Lemma to_type_id T v : in_range T v -> to_type T v = v.
Proof.
  unfold in_range, to_type, min_value, max_value.
  destruct T; cbn [is_signed_v]; intros H; pow2_consts;
    try match goal with
    | |- context [(?a <? ?b)%Z] => destruct (Z.ltb_spec a b)
    end; lia.
Qed.

Lemma to_type_in_range T z : in_range T (to_type T z).
Proof.
  unfold in_range, to_type, min_value, max_value.
  destruct T; cbn [is_signed_v]; pow2_consts;
    try match goal with
    | |- context [(?a <? ?b)%Z] => destruct (Z.ltb_spec a b)
    end; lia.
Qed.

Lemma magnitude_bound T v :
  has_abs T v ->
  (0 <= magnitude (is_signed_v T) v <= max_value T)%Z.
Proof.
  unfold has_abs, in_range, magnitude, min_value, max_value.
  destruct T; cbn [is_signed_v]; pow2_consts; intros [H N];
    try (destruct (N eq_refl) as [N1 N2]); lia.
Qed.

(** The magnitude of such a value of a signed type is an [int]. *)
Lemma magnitude_int T v :
  has_abs T v -> is_signed_v T = true -> (0 <= Z.abs v < 2 ^ 31)%Z.
Proof.
  intros [_ N] S. destruct (N S) as [_ N2]. lia.
Qed.

(** [abs] of a value whose absolute value is an [int]. *)
Lemma c_abs_exact v : (Z.abs v < 2 ^ 31)%Z -> c_abs v = Z.abs v.
Proof.
  intros H. unfold c_abs. change (2 ^ 31)%Z with 2147483648%Z in H.
  assert (R : forall x, (Z.abs x < 2147483648)%Z -> in_range Int32 x).
  { intros x Hx. unfold in_range, min_value, max_value.
    cbn [is_signed_v bits sizeof]. pow2_consts. lia. }
  rewrite (to_type_id Int32 v (R v H)).
  apply to_type_id. apply R. lia.
Qed.

Lemma std_abs_exact T v :
  is_signed_v T = true -> has_abs T v -> std_abs T v = Z.abs v.
Proof.
  intros S H. pose proof (magnitude_bound T v H) as B.
  rewrite S in B. cbn [magnitude] in B.
  assert (R : in_range T (Z.abs v)).
  { unfold in_range. split; [|lia]. unfold min_value. rewrite S.
    pose proof (Z.pow_pos_nonneg 2 (Z.of_nat (bits T - 1))). lia. }
  destruct T; try discriminate; cbn [std_abs]; auto using to_type_id.
Qed.

Lemma lor_bound a b n :
  (0 <= a < 2 ^ Z.of_nat n)%Z -> (0 <= b < 2 ^ Z.of_nat n)%Z ->
  (0 <= Z.lor a b < 2 ^ Z.of_nat n)%Z.
Proof.
  intros [Ha Ha'] [Hb Hb'].
  assert (0 <= Z.lor a b)%Z by (apply Z.lor_nonneg; auto).
  split; [assumption|].
  apply bits_needed_bound; [assumption|].
  rewrite bits_needed_lor by assumption.
  apply bits_needed_bound in Ha', Hb'; try assumption. lia.
Qed.

(** Over values whose absolute value the encoder computes, [setbits] is
    the OR of the magnitudes. *)
Lemma f_setbits_spec T block :
  Forall (has_abs T) block ->
  f_setbits T block
  = fold_left Z.lor (map (magnitude (is_signed_v T)) block) 0%Z
  /\ (0 <= f_setbits T block <= max_value T)%Z.
Proof.
  unfold f_setbits.
  assert (G : forall acc, (0 <= acc <= max_value T)%Z ->
    Forall (has_abs T) block ->
    fold_left
      (fun setbits v =>
         if is_signed_v T then to_type T (Z.lor setbits (std_abs T v))
         else Z.lor setbits v) block acc
    = fold_left Z.lor (map (magnitude (is_signed_v T)) block) acc
    /\ (0 <= fold_left
         (fun setbits v =>
            if is_signed_v T then to_type T (Z.lor setbits (std_abs T v))
            else Z.lor setbits v) block acc <= max_value T)%Z).
  { induction block as [|v block IH]; intros acc Ha Hl; cbn [fold_left map].
    - auto.
    - inversion Hl as [|? ? Hv Hl']; subst.
      pose proof (magnitude_bound T v Hv) as B.
      assert (L : (0 <= Z.lor acc (magnitude (is_signed_v T) v)
                   <= max_value T)%Z).
      { rewrite max_value_pow in *.
        pose proof (lor_bound acc (magnitude (is_signed_v T) v)
                      (if is_signed_v T then bits T - 1 else bits T)).
        lia. }
      destruct (is_signed_v T) eqn:S.
      + rewrite std_abs_exact by assumption. cbn [magnitude] in *.
        rewrite to_type_id.
        * apply IH; assumption.
        * unfold in_range, min_value. rewrite S.
          pose proof (Z.pow_pos_nonneg 2 (Z.of_nat (bits T - 1))). lia.
      + cbn [magnitude] in *. apply IH; assumption. }
  intros H. apply G; [|assumption].
  rewrite max_value_pow.
  pose proof (Z.pow_pos_nonneg 2
                (Z.of_nat (if is_signed_v T then bits T - 1 else bits T))).
  lia.
Qed.

(** And, for a signed type, an [int]. *)
Lemma f_setbits_int T block :
  Forall (has_abs T) block -> is_signed_v T = true ->
  (f_setbits T block < 2 ^ 31)%Z.
Proof.
  intros H S. destruct (f_setbits_spec T block H) as [E _]. rewrite E, S.
  clear E.
  assert (G : forall acc, (0 <= acc < 2 ^ Z.of_nat 31)%Z ->
            (0 <= fold_left Z.lor (map (magnitude true) block) acc
             < 2 ^ Z.of_nat 31)%Z).
  { induction H as [|v block Hv Hl IH]; intros acc Ha; cbn [map fold_left].
    - exact Ha.
    - apply IH. apply lor_bound; [exact Ha|].
      cbn [magnitude]. exact (magnitude_int T v Hv S). }
  apply (G 0%Z). change (2 ^ Z.of_nat 31)%Z with 2147483648%Z. lia.
Qed.

Lemma f_highest_set_bit_spec T o :
  (0 <= o <= max_value T)%Z ->
  (is_signed_v T = true -> (o < 2 ^ 31)%Z) ->
  f_highest_set_bit T o
  = if (o =? 0)%Z then 0
    else bits_needed o + (if is_signed_v T then 1 else 0).
Proof.
  intros H HI. unfold f_highest_set_bit.
  assert (B64 : (0 <= o < 2 ^ Z.of_nat 64)%Z).
  { split; [lia|]. apply Z.le_lt_trans with (max_value T); [lia|].
    unfold max_value. destruct T; cbv; reflexivity. }
  destruct (is_signed_v T) eqn:S.
  - destruct (o =? 0)%Z; [reflexivity|].
    rewrite c_abs_exact by (specialize (HI eq_refl); lia).
    rewrite Z.abs_eq by lia. unfold make_unsigned. rewrite Z.mod_small.
    + rewrite highest_set_bit_loop_spec by assumption. lia.
    + split; [lia|]. apply Z.le_lt_trans with (max_value T); [lia|].
      unfold max_value. rewrite S. destruct T; try discriminate; cbv;
        reflexivity.
  - rewrite highest_set_bit_loop_spec by assumption.
    destruct (o =? 0)%Z eqn:E; [|lia].
    apply Z.eqb_eq in E. subst. reflexivity.
Qed.

(** Over values whose absolute value the encoder computes, the width it
    gives a block is the width the specification words. *)
Lemma block_width_spec T block :
  Forall (has_abs T) block ->
  block_width T block = width_spec (is_signed_v T) block.
Proof.
  intros H. unfold block_width, width_spec.
  destruct (f_setbits_spec T block H) as [E B].
  rewrite f_highest_set_bit_spec;
    [rewrite E; reflexivity|assumption|apply f_setbits_int; exact H].
Qed.

Lemma width_spec_fits sgn block v :
  Forall (fun v => 0 <= magnitude sgn v)%Z block -> In v block ->
  match width_spec sgn block with
  | O => magnitude sgn v = 0%Z
  | S w' =>
      (magnitude sgn v
       < 2 ^ Z.of_nat (if sgn then w' else S w'))%Z
  end.
Proof.
  intros Hl Hin. unfold width_spec.
  destruct (fold_lor_spec (map (magnitude sgn) block) 0%Z) as [O1 O2];
    [lia| |].
  { apply Forall_map. assumption. }
  change (bits_needed 0) with 0 in O2. cbn [Nat.max] in O2.
  assert (Hv : bits_needed (magnitude sgn v)
               <= bits_needed
                    (fold_left Z.lor (map (magnitude sgn) block) 0%Z)).
  { rewrite O2. apply max_width_ge. rewrite map_map.
    apply (in_map (fun x => bits_needed (magnitude sgn x))). assumption. }
  assert (H0 : (0 <= magnitude sgn v)%Z).
  { rewrite Forall_forall in Hl. auto. }
  destruct (fold_left Z.lor (map (magnitude sgn) block) 0 =? 0)%Z eqn:E.
  - apply Z.eqb_eq in E. rewrite E in Hv. change (bits_needed 0) with 0 in Hv.
    apply bits_needed_0; [assumption|lia].
  - set (o := fold_left Z.lor (map (magnitude sgn) block) 0%Z) in *.
    destruct sgn.
    + replace (bits_needed o + 1) with (S (bits_needed o)) by lia.
      apply bits_needed_bound; assumption.
    + rewrite Nat.add_0_r.
      destruct (bits_needed o) eqn:Eo.
      * apply bits_needed_0 in Eo; [|assumption].
        apply Z.eqb_neq in E. contradiction.
      * apply bits_needed_bound; assumption.
Qed.

(** ** Value fields *)

Lemma field_value_signed U w' v :
  is_signed_v U = true -> S w' <= bits U ->
  (Z.abs v < 2 ^ Z.of_nat w')%Z ->
  field_value U (S w') (v mod 2 ^ Z.of_nat (S w')) = v.
Proof.
  intros Sg Hw Hv. unfold field_value. rewrite Sg.
  replace (bits U <? S w') with false by (symmetry; apply Nat.ltb_ge; lia).
  cbn [sign_extend]. rewrite Nat2Z.inj_succ, Z.pow_succ_r by lia.
  set (p := (2 ^ Z.of_nat w')%Z) in *.
  destruct (Z.neg_nonneg_cases v) as [N|N].
  - assert (E : (v mod (2 * p) = v + 2 * p)%Z).
    { rewrite <- (Z.mod_add v 1 (2 * p)) by lia.
      rewrite Z.mod_small; lia. }
    rewrite E. destruct (Z.ltb_spec (v + 2 * p) p); lia.
  - rewrite Z.mod_small by lia. destruct (Z.ltb_spec v p); lia.
Qed.

Lemma field_value_unsigned U w v :
  is_signed_v U = false -> w <= bits U ->
  (0 <= v < 2 ^ Z.of_nat w)%Z ->
  field_value U w (v mod 2 ^ Z.of_nat w) = v.
Proof.
  intros Sg Hw Hv. unfold field_value. rewrite Sg.
  replace (bits U <? w) with false by (symmetry; apply Nat.ltb_ge; lia).
  apply Z.mod_small. assumption.
Qed.

Lemma append_range_frame w vs d p :
  let '(d', p') := append_range d p w vs in
  p' = p + w * length vs /\ length d' = length d
  /\ agree d d' 0 p /\ (zero_from d p -> zero_from d' p').
Proof.
  revert d p; induction vs as [|v vs IH]; intros d p; cbn [append_range].
  - cbn [length]. rewrite Nat.mul_0_r, Nat.add_0_r.
    repeat split; auto.
  - specialize (IH (or_bits d p w v) (p + w)).
    destruct (append_range (or_bits d p w v) (p + w) w vs) as [d' p'].
    destruct IH as (I1 & I2 & I3 & I4).
    repeat split.
    + cbn [length]. lia.
    + rewrite I2. apply length_or_bits.
    + intros q Hq. rewrite I3 by lia. apply or_bits_before. lia.
    + intros Z0. apply I4. apply (or_bits_zero_from w d p v p); auto.
Qed.

(** Fields written into zero-filled room are read back as the low [w] bits
    of the values, from any buffer holding the same bits there. *)
Lemma get_range_append_range U w vs d p d'' :
  zero_from d p ->
  snd (append_range d p w vs) <= 8 * length d ->
  agree (fst (append_range d p w vs)) d'' p (snd (append_range d p w vs)) ->
  get_range U d'' p w (length vs)
  = (map (fun v => field_value U w (v mod 2 ^ Z.of_nat w)) vs,
     snd (append_range d p w vs)).
Proof.
  revert d p; induction vs as [|v vs IH]; intros d p Z0 Hc Ha;
    cbn [append_range length get_range map] in *.
  - reflexivity.
  - pose proof (append_range_frame w vs (or_bits d p w v) (p + w)) as F.
    destruct (append_range (or_bits d p w v) (p + w) w vs) as [d' p'] eqn:E.
    cbn [fst snd] in *. destruct F as (F1 & F2 & F3 & F4).
    rewrite length_or_bits in F2.
    specialize (IH (or_bits d p w v) (p + w)).
    rewrite E in IH. cbn [fst snd] in IH.
    rewrite IH.
    + f_equal. f_equal. f_equal.
      rewrite (read_bits_ext w d' d'' p) by (intros q Hq; apply Ha; lia).
      rewrite (read_bits_ext w (or_bits d p w v) d' p)
        by (intros q Hq; apply F3; lia).
      apply read_bits_spec. intros i Hi.
      apply or_bits_field; auto. lia.
    + apply (or_bits_zero_from w d p v p); auto.
    + rewrite length_or_bits. assumption.
    + intros q Hq. apply Ha. lia.
Qed.

(** ** The block loop of the encoder *)

Lemma f_compress_block_frame T B N from data st st1 data1 block w :
  f_compress_block T B N from data st = (st1, data1) ->
  block = firstn (Nat.min N (from + B) - from) data ->
  w = block_width T block ->
  e_prevbits st1 = w
  /\ e_prolix_bits st1 = Nat.max (e_prolix_bits st) w
  /\ length (e_data st1) = length (e_data st)
  /\ e_bitp st1
     = e_bitp st + length (header_bits (e_prevbits st) w) + w * length block
  /\ agree (e_data st) (e_data st1) 0 (e_bitp st)
  /\ (zero_from (e_data st) (e_bitp st) ->
      zero_from (e_data st1) (e_bitp st1))
  /\ data1 = skipn (if w =? 0 then B else Nat.min N (from + B) - from) data.
Proof.
  unfold f_compress_block, block_width. intros H -> ->.
  set (block := firstn (Nat.min N (from + B) - from) data) in *.
  set (w := f_highest_set_bit T (f_setbits T block)) in *.
  pose proof (emit_header_frame (e_data st) (e_bitp st) (e_prevbits st) w)
    as F.
  destruct (emit_header (e_data st) (e_bitp st) (e_prevbits st) w)
    as [[d h] prev1].
  destruct F as (F1 & F2 & F3 & F4 & F5).
  destruct (w =? 0) eqn:E.
  - apply Nat.eqb_eq in E. injection H as <- <-.
    cbn [e_prevbits e_prolix_bits e_data e_bitp].
    rewrite E in *. cbn [Nat.mul].
    repeat split; auto; lia.
  - pose proof (append_range_frame w block d h) as A.
    destruct (append_range d h w block) as [d' p'].
    destruct A as (A1 & A2 & A3 & A4).
    injection H as <- <-. cbn [e_prevbits e_prolix_bits e_data e_bitp].
    repeat split; auto; try lia.
    intros q Hq. rewrite A3 by lia. apply F4. lia.
Qed.

Lemma f_compress_loop_frame fuel T B N :
  forall from data st st',
  f_compress_loop fuel T B N from data st = Some st' ->
  length (e_data st') = length (e_data st)
  /\ e_bitp st <= e_bitp st'
  /\ agree (e_data st) (e_data st') 0 (e_bitp st)
  /\ (zero_from (e_data st) (e_bitp st) ->
      zero_from (e_data st') (e_bitp st'))
  /\ e_prolix_bits st <= e_prolix_bits st'.
Proof.
  induction fuel as [|fuel IH]; intros from data st st' H;
    cbn [f_compress_loop] in H; destruct (from <? N).
  - discriminate.
  - injection H as <-. repeat split; auto.
  - destruct (f_compress_block T B N from data st) as [st1 data1] eqn:E.
    eapply f_compress_block_frame in E; [|reflexivity|reflexivity].
    destruct E as (E1 & E2 & E3 & E4 & E5 & E6 & E7).
    apply IH in H. destruct H as (H1 & H2 & H3 & H4 & H5).
    repeat split; try lia; auto.
    intros q Hq. rewrite H3 by lia. apply E5. lia.
  - injection H as <-. repeat split; auto.
Qed.

Lemma Forall_firstn {A} (P : A -> Prop) n l :
  Forall P l -> Forall P (firstn n l).
Proof.
  intros H. rewrite <- (firstn_skipn n l) in H.
  apply Forall_app in H. tauto.
Qed.

Lemma Forall_skipn {A} (P : A -> Prop) n l :
  Forall P l -> Forall P (skipn n l).
Proof.
  intros H. rewrite <- (firstn_skipn n l) in H.
  apply Forall_app in H. tauto.
Qed.

Lemma all_zero_repeat (l : list Z) :
  Forall (fun v => v = 0%Z) l -> l = repeat 0%Z (length l).
Proof. induction 1; cbn [repeat length]; congruence. Qed.

Lemma map_fixed {A} (f : A -> A) l :
  Forall (fun x => f x = x) l -> map f l = l.
Proof. induction 1; cbn [map]; congruence. Qed.

Lemma magnitude_0 sgn v : magnitude sgn v = 0%Z -> v = 0%Z.
Proof. destruct sgn; cbn [magnitude]; lia. Qed.

(** Every value of a block is read back from a field of the block's
    width, by an output type of the same signedness and at least that
    width. *)
Lemma block_fields_back T U block :
  Forall (has_abs T) block ->
  is_signed_v U = is_signed_v T ->
  block_width T block <= bits U ->
  match block_width T block with
  | O => Forall (fun v => v = 0%Z) block
  | S w' =>
      Forall (fun v =>
                field_value U (S w') (v mod 2 ^ Z.of_nat (S w')) = v) block
  end.
Proof.
  intros Hl Sg Hw. pose proof (block_width_spec T block Hl) as E.
  assert (M : Forall (fun v => 0 <= magnitude (is_signed_v T) v)%Z block).
  { eapply Forall_impl; [|exact Hl]. intros v Hv.
    apply (magnitude_bound T v Hv). }
  destruct (block_width T block) as [|w'] eqn:Ew;
    apply Forall_forall; intros v Hv;
    pose proof (width_spec_fits _ _ v M Hv) as Fv; rewrite <- E in Fv.
  - apply magnitude_0 in Fv. assumption.
  - rewrite Forall_forall in M. specialize (M v Hv).
    destruct (is_signed_v T) eqn:ST; cbn [magnitude] in *.
    + apply field_value_signed; auto.
    + apply field_value_unsigned; auto; lia.
Qed.

(** One block, encoded into zero-filled room, is decoded from any buffer
    holding the same bits. *)
Lemma block_roundtrip T U B N from data st st1 data1 d'' :
  f_compress_block T B N from data st = (st1, data1) ->
  Forall (has_abs T) data ->
  zero_from (e_data st) (e_bitp st) ->
  e_bitp st1 <= 8 * length (e_data st) ->
  is_signed_v U = is_signed_v T ->
  e_prolix_bits st1 <= bits U ->
  agree (e_data st1) d'' (e_bitp st) (e_bitp st1) ->
  Nat.min N (from + B) - from <= length data ->
  exists h,
    parse_header d'' (e_bitp st) (e_prevbits st) = (e_prevbits st1, h)
    /\ (if e_prevbits st1 =? 0
        then (repeat 0%Z (Nat.min N (from + B) - from), h)
        else get_range U d'' h (e_prevbits st1)
               (Nat.min N (from + B) - from))
       = (firstn (Nat.min N (from + B) - from) data, e_bitp st1).
Proof.
  intros H Hl Z0 Hc Sg Hp Ha Hn.
  unfold f_compress_block in H.
  set (cnt := Nat.min N (from + B) - from) in *.
  set (block := firstn cnt data) in *.
  fold (block_width T block) in H.
  set (w := block_width T block) in *.
  assert (Lb : length block = cnt) by (apply firstn_length_le; assumption).
  assert (Hb : Forall (has_abs T) block) by (apply Forall_firstn; assumption).
  pose proof (emit_header_frame (e_data st) (e_bitp st) (e_prevbits st) w)
    as F.
  pose proof (emit_header_bits (e_data st) (e_bitp st) (e_prevbits st) w)
    as G.
  destruct (emit_header (e_data st) (e_bitp st) (e_prevbits st) w)
    as [[d h] prev1].
  cbn [fst] in G. destruct F as (F1 & F2 & F3 & F4 & F5).
  specialize (F5 Z0). subst prev1.
  pose proof (bits_bounds U) as BU.
  assert (Hw : w <= bits U).
  { destruct (w =? 0); [|destruct (append_range d h w block)];
      injection H as <- <-; cbn [e_prolix_bits] in Hp; lia. }
  pose proof (block_fields_back T U block Hb Sg Hw) as V. fold w in V.
  exists h.
  destruct (w =? 0) eqn:E.
  - apply Nat.eqb_eq in E. injection H as <- <-.
    cbn [e_prevbits e_data e_bitp] in *.
    rewrite E in V. rewrite E at 2. cbn [Nat.eqb]. split.
    + rewrite F3. apply parse_header_bits; [lia|].
      etransitivity; [|apply G; (assumption || lia)].
      apply bits_at_ext. intros q Hq. apply Ha. lia.
    + rewrite (all_zero_repeat block V), Lb. reflexivity.
  - pose proof (append_range_frame w block d h) as A.
    pose proof (get_range_append_range U w block d h d'') as R.
    destruct (append_range d h w block) as [d' p'].
    cbn [fst snd] in R. destruct A as (A1 & A2 & A3 & A4).
    injection H as <- <-. cbn [e_prevbits e_data e_bitp] in *.
    rewrite E. split.
    + rewrite F3. apply parse_header_bits; [lia|].
      etransitivity; [|apply G; (assumption || lia)].
      apply bits_at_ext. intros q Hq. rewrite Ha by lia. apply A3. lia.
    + rewrite Lb in R. rewrite R.
      * f_equal. destruct w as [|w']; [discriminate|].
        apply map_fixed. assumption.
      * assumption.
      * lia.
      * intros q Hq. apply Ha. lia.
Qed.

Lemma firstn_skipn_block {A} (l : list A) cnt k :
  cnt = k \/ (length l <= cnt /\ length l <= k) ->
  firstn cnt l ++ skipn k l = l.
Proof.
  intros [->|[H1 H2]].
  - apply firstn_skipn.
  - rewrite firstn_all2, skipn_all2 by assumption. apply app_nil_r.
Qed.

(** The frame the block loop of [f_compress] writes into zero-filled room
    is what the block loop of [prolix] reads back, from any buffer holding
    the same bits. *)
Lemma loop_roundtrip fuel T U B N :
  forall from data st st' d'',
  f_compress_loop fuel T B N from data st = Some st' ->
  length data = N - from ->
  Forall (has_abs T) data ->
  zero_from (e_data st) (e_bitp st) ->
  e_bitp st' <= 8 * length (e_data st) ->
  is_signed_v U = is_signed_v T ->
  e_prolix_bits st' <= bits U ->
  agree (e_data st') d'' (e_bitp st) (e_bitp st') ->
  prolix_loop fuel U B N from d'' (e_bitp st) (e_prevbits st)
  = Some (data, e_bitp st').
Proof.
  induction fuel as [|fuel IH];
    intros from data st st' d'' H Hn Hl Z0 Hc Sg Hp Ha;
    cbn [f_compress_loop prolix_loop] in *;
    destruct (from <? N) eqn:E.
  - discriminate.
  - injection H as <-. apply Nat.ltb_ge in E.
    destruct data; [reflexivity|]. cbn [length] in Hn. lia.
  - apply Nat.ltb_lt in E.
    destruct (f_compress_block T B N from data st) as [st1 data1] eqn:EB.
    pose proof (f_compress_loop_frame _ _ _ _ _ _ _ _ H)
      as (L1 & L2 & L3 & L4 & L5).
    pose proof (f_compress_block_frame _ _ _ _ _ _ _ _ _ _ EB
                  eq_refl eq_refl) as (K1 & K2 & K3 & K4 & K5 & K6 & K7).
    destruct (block_roundtrip T U B N from data st st1 data1 d'' EB)
      as (h & P1 & P2); auto; try lia.
    { intros q Hq. rewrite Ha by lia. apply L3. lia. }
    rewrite P1, P2.
    rewrite (IH (from + B) data1 st1 st' d'' H); auto; try lia.
    + do 2 f_equal. rewrite K7. apply firstn_skipn_block.
      destruct (block_width T
                  (firstn (Nat.min N (from + B) - from) data) =? 0);
        [|left; reflexivity].
      destruct (Nat.le_gt_cases (from + B) N); [left|right]; lia.
    + rewrite K7, length_skipn.
      destruct (block_width T
                  (firstn (Nat.min N (from + B) - from) data) =? 0); lia.
    + rewrite K7. apply Forall_skipn. assumption.
    + intros q Hq. apply Ha. lia.
  - injection H as <-. apply Nat.ltb_ge in E.
    destruct data; [reflexivity|]. cbn [length] in Hn. lia.
Qed.

(** ** Termination of the block loops *)

Lemma f_compress_loop_terminates fuel T B N :
  forall from data st,
  1 <= B -> N <= from + fuel * B ->
  exists st', f_compress_loop fuel T B N from data st = Some st'.
Proof.
  induction fuel as [|fuel IH]; intros from data st HB Hf;
    cbn [f_compress_loop]; destruct (Nat.ltb_spec from N);
    try (eexists; reflexivity).
  - cbn [Nat.mul] in Hf. lia.
  - destruct (f_compress_block T B N from data st) as [st1 data1].
    apply IH; [assumption|]. cbn [Nat.mul] in Hf. lia.
Qed.

Lemma prolix_loop_terminates fuel U B N d :
  forall from bitp sb,
  1 <= B -> N <= from + fuel * B ->
  exists r, prolix_loop fuel U B N from d bitp sb = Some r.
Proof.
  induction fuel as [|fuel IH]; intros from bitp sb HB Hf;
    cbn [prolix_loop]; destruct (Nat.ltb_spec from N);
    try (eexists; reflexivity).
  - cbn [Nat.mul] in Hf. lia.
  - destruct (parse_header d bitp sb) as [sb' bitp'].
    destruct (if sb' =? 0
              then (repeat 0%Z (Nat.min N (from + B) - from), bitp')
              else get_range U d bitp' sb' (Nat.min N (from + B) - from))
      as [vs q].
    destruct (IH (from + B) q sb') as [[rest q'] Hr];
      [assumption|cbn [Nat.mul] in Hf; lia|].
    rewrite Hr. eexists; reflexivity.
Qed.

Lemma scan_loop_terminates fuel B N d :
  forall from bitp sb,
  1 <= B \/ N = 0 -> N <= from + fuel * B ->
  exists q, scan_loop fuel B N from d bitp sb = Some q.
Proof.
  induction fuel as [|fuel IH]; intros from bitp sb HB Hf;
    cbn [scan_loop]; destruct (Nat.ltb_spec from N);
    try (eexists; reflexivity).
  - cbn [Nat.mul] in Hf. lia.
  - destruct (parse_header d bitp sb) as [sb' bitp'].
    apply IH; [assumption|]. cbn [Nat.mul] in Hf. lia.
Qed.

(** ** Resizing the byte vector *)

Lemma length_resize d n : length (resize d n) = n.
Proof.
  unfold resize. rewrite length_app, length_firstn, repeat_length. lia.
Qed.

Lemma nth_resize d n i :
  nth i (resize d n) 0%Z = if i <? n then nth i d 0%Z else 0%Z.
Proof.
  unfold resize.
  destruct (Nat.lt_ge_cases i (length (firstn n d))) as [H|H].
  - rewrite app_nth1 by assumption. rewrite nth_firstn.
    rewrite length_firstn in H.
    replace (i <? n) with true by (symmetry; apply Nat.ltb_lt; lia).
    reflexivity.
  - rewrite app_nth2 by assumption. rewrite length_firstn in *.
    rewrite nth_repeat.
    destruct (Nat.ltb_spec i n); [|reflexivity].
    symmetry. apply nth_overflow. lia.
Qed.

Lemma get_bit_resize d n q :
  get_bit (resize d n) q = if q / 8 <? n then get_bit d q else false.
Proof.
  unfold get_bit. rewrite nth_resize.
  destruct (q / 8 <? n); [reflexivity|apply Z.testbit_0_l].
Qed.

Lemma agree_resize d n hi : hi <= 8 * n -> agree d (resize d n) 0 hi.
Proof.
  intros H q Hq. rewrite get_bit_resize.
  replace (q / 8 <? n) with true by (symmetry; apply Nat.ltb_lt; lia).
  reflexivity.
Qed.

Lemma zero_from_resize d n : zero_from (resize d n) (8 * length d).
Proof.
  intros q Hq. rewrite get_bit_resize.
  destruct (q / 8 <? n); [|reflexivity].
  apply get_bit_outside. lia.
Qed.

(** ** Round trip *)

(** The frame [f_compress] appends is decoded by the block loop of [prolix]
    started at the byte where the frame begins. *)
Lemma f_compress_decodes T U t data t' :
  f_compress T t data = Done t' ->
  length data = d_size t ->
  Forall (has_abs T) data ->
  within_reserve T t data ->
  is_signed_v U = is_signed_v T ->
  d_prolix_bits t' <= bits U ->
  exists c,
    prolix_loop (d_size t) U (d_block t) (d_size t) 0 (d_terse_data t')
      (8 * length (d_terse_data t)) 0 = Some (data, c)
    /\ 8 * length (d_terse_data t) <= c
    /\ length (d_terse_data t') = 1 + c / 8.
Proof.
  unfold f_compress, within_reserve. intros H Hn Hl Hc Sg Hp.
  destruct (f_compress_run T t data) as [st|] eqn:R; [|discriminate].
  set (n := 1 + e_bitp st / 8) in H. assert (Hdef : n = 1 + e_bitp st / 8)
    by reflexivity. clearbody n.
  injection H as <-. cbn [d_terse_data d_prolix_bits] in *.
  specialize (Hc st eq_refl).
  unfold f_compress_run in R.
  pose proof (f_compress_loop_frame _ _ _ _ _ _ _ _ R)
    as (L1 & L2 & L3 & L4 & L5).
  exists (e_bitp st). split; [|split].
  - apply (loop_roundtrip _ T U _ _ 0 data (f_compress_init T t) st);
      auto; try lia.
    + apply zero_from_resize.
    + intros q Hq. apply (agree_resize (e_data st) n (e_bitp st)); lia.
  - exact L2.
  - rewrite length_resize. exact Hdef.
Qed.

Lemma f_compress_returns T t data :
  1 <= d_block t -> exists t', f_compress T t data = Done t'.
Proof.
  intros HB. unfold f_compress, f_compress_run.
  destruct (f_compress_loop_terminates (d_size t) T (d_block t) (d_size t)
              0 data (f_compress_init T t) HB) as [st' ->].
  - nia.
  - eexists; reflexivity.
Qed.

Lemma f_compress_fields T t data t' :
  f_compress T t data = Done t' ->
  d_signed t' = d_signed t /\ d_block t' = d_block t
  /\ d_size t' = d_size t /\ d_dim t' = d_dim t
  /\ d_terse_frames t' = d_terse_frames t
  /\ d_prolix_bits t <= d_prolix_bits t'.
Proof.
  unfold f_compress. intros H.
  destruct (f_compress_run T t data) as [st|] eqn:R; [|discriminate].
  injection H as <-. cbn. repeat split.
  unfold f_compress_run in R.
  apply f_compress_loop_frame in R. tauto.
Qed.

Lemma in_rangeb_ok T v : in_rangeb T v = true -> in_range T v.
Proof.
  unfold in_rangeb, in_range. rewrite andb_true_iff, !Z.leb_le. auto.
Qed.

Lemma has_absb_ok T v : has_absb T v = true -> has_abs T v.
Proof.
  unfold has_absb, has_abs. rewrite andb_true_iff, negb_true_iff.
  intros [H1 H2]. split; [apply in_rangeb_ok; assumption|].
  intros Sg. rewrite Sg in H2. cbn [andb] in H2.
  apply orb_false_iff in H2. destruct H2 as [H2 H3].
  apply Z.eqb_neq in H2. apply Z.leb_gt in H3. auto.
Qed.

Lemma all_has_abs T data :
  forallb (has_absb T) data = true -> Forall (has_abs T) data.
Proof.
  rewrite forallb_forall, Forall_forall. auto using has_absb_ok.
Qed.

Lemma within_reserveb_ok T t data :
  within_reserveb T t data = true -> within_reserve T t data.
Proof.
  unfold within_reserveb, within_reserve. intros H st E.
  rewrite E in H. apply Nat.leb_le. assumption.
Qed.

Lemma prolix_first_frame U t vs c :
  nth 0 (d_terse_frames t) 0 = 0 ->
  1 <= number_of_frames t ->
  d_signed t && negb (is_signed_v U) = false ->
  prolix_loop (d_size t) U (d_block t) (d_size t) 0 (d_terse_data t) 0 0
  = Some (vs, c) ->
  unpacked (prolix U t 0) = Done vs.
Proof.
  intros H0 Hn Sg H. unfold prolix.
  replace (0 <? number_of_frames t) with true
    by (symmetry; apply Nat.ltb_lt; lia).
  cbn [negb f_find_terse_frame]. rewrite Sg, H0.
  change (8 * 0) with 0. rewrite H. reflexivity.
Qed.

(** ** The header-bit grammar *)

(** In an iteration of the block loop of [f_compress], for a block of
    width [w <= 73] written into zero-filled room of the reserved bytes,
    the bits emitted at the cursor are those of the grammar for the previous
    width and [w]; the previous width becomes [w]; and the header parse of
    the decoder, on any buffer holding these bits, returns [w] and the
    cursor after the header. *)
Lemma header_grammar_block (T : int_type) (B N from : nat) (data : list Z)
    (st : enc_state) :
  let w := block_width T (firstn (Nat.min N (from + B) - from) data) in
  let w_prev := e_prevbits st in
  let st1 := fst (f_compress_block T B N from data st) in
  w <= 73 ->
  zero_from (e_data st) (e_bitp st) ->
  e_bitp st1 <= 8 * length (e_data st) ->
  bits_at (e_data st1) (e_bitp st) (length (header_bits w_prev w))
  = header_bits w_prev w
  /\ e_prevbits st1 = w
  /\ (forall d'',
        agree (e_data st1) d'' (e_bitp st)
          (e_bitp st + length (header_bits w_prev w)) ->
        parse_header d'' (e_bitp st) w_prev
        = (w, e_bitp st + length (header_bits w_prev w))).
Proof.
  intros w w_prev st1 Hw Z0 Hc.
  destruct (f_compress_block T B N from data st) as [s1 data1] eqn:EB.
  cbn [fst] in st1. subst st1.
  pose proof (f_compress_block_frame _ _ _ _ _ _ _ _ _ _ EB eq_refl eq_refl)
    as (K1 & K2 & K3 & K4 & K5 & K6 & K7).
  fold w in K1, K4. fold w_prev in K4.
  assert (Hb : bits_at (e_data s1) (e_bitp st) (length (header_bits w_prev w))
               = header_bits w_prev w).
  { unfold f_compress_block in EB.
    fold (block_width T (firstn (Nat.min N (from + B) - from) data)) in EB.
    fold w in EB.
    pose proof (emit_header_bits (e_data st) (e_bitp st) w_prev w Hw Z0)
      as G.
    pose proof (emit_header_frame (e_data st) (e_bitp st) w_prev w) as F.
    fold w_prev in EB.
    destruct (emit_header (e_data st) (e_bitp st) w_prev w)
      as [[d h] prev1].
    cbn [fst] in G. destruct F as (F1 & F2 & F3 & F4 & F5).
    etransitivity; [|apply G; lia].
    apply bits_at_ext.
    destruct (w =? 0).
    - injection EB as <- <-. intros q Hq. reflexivity.
    - pose proof (append_range_frame w
                    (firstn (Nat.min N (from + B) - from) data) d h) as A.
      destruct (append_range d h w
                  (firstn (Nat.min N (from + B) - from) data)) as [d' p'].
      destruct A as (A1 & A2 & A3 & A4).
      injection EB as <- <-. cbn [e_data].
      intros q Hq. apply A3. lia. }
  split; [exact Hb|]. split; [exact K1|].
  intros d'' Ha. apply parse_header_bits; [exact Hw|].
  etransitivity; [|exact Hb]. apply bits_at_ext. exact Ha.
Qed.

(** ** Saturation *)

(** The field value modelled from section 4.2 lies in the range of the
    output type when the output is narrower than the field, and is the
    maximum (minimum) of the type when the extended value is above
    (below) it. *)
Lemma field_value_saturates U w raw :
  bits U < w ->
  let v := if is_signed_v U then sign_extend w raw else raw in
  field_value U w raw = saturate U v
  /\ ((max_value U < v)%Z -> field_value U w raw = max_value U)
  /\ ((v < min_value U)%Z -> field_value U w raw = min_value U).
Proof.
  intros H v. unfold field_value. fold v.
  replace (bits U <? w) with true by (symmetry; apply Nat.ltb_lt; lia).
  unfold saturate. repeat split.
  - intros Hv. destruct (Z.ltb_spec (max_value U) v); [reflexivity|lia].
  - intros Hv.
    assert (min_value U <= max_value U)%Z by (destruct U; cbv; discriminate).
    destruct (Z.ltb_spec (max_value U) v); [lia|].
    destruct (Z.ltb_spec v (min_value U)); [reflexivity|lia].
Qed.

(** ** Widths at the minimum of a signed type *)

(** C3, at the failing input.  For the signed 16-bit block
    [-32768, 32767] the OR of the absolute values is 65535, which needs 16
    bits, so the width the specification words is 17; [f_compress] ORs the
    magnitudes into a 16-bit signed [setbits], gets -1, and computes the
    width 2.  [max_bits] is 2, and the frame is read back as [0, -1]. *)
Lemma max_bits_at_signed_minimum :
  width_spec true S5_frame16 = 17
  /\ f_setbits Int16 S5_frame16 = (-1)%Z
  /\ block_width Int16 S5_frame16 = 2
  /\ exists t,
       Terse_of Int16 S5_frame16 2 = Done t
       /\ bits_per_val t = 2
       /\ unpacked (prolix Int16 t 0) = Done [0%Z; (-1)%Z].
Proof.
  split; [vm_compute; reflexivity|].
  split; [vm_compute; reflexivity|].
  split; [vm_compute; reflexivity|].
  eexists. split; [vm_compute; reflexivity|].
  split; vm_compute; reflexivity.
Qed.

(** C5, at the scenario S5.  For the signed 32-bit frame
    [i32::MIN, i32::MAX] with block size 2, [f_compress] computes
    [setbits = -1] and the width 2 (the width the specification words
    is 33), so [max_bits] is 2, not 32, and unpacking into a signed 16-bit
    output yields [0, -1], not [i16::MIN, i16::MAX]. *)
Lemma saturation_scenario_S5 :
  f_setbits Int32 S5_frame = (-1)%Z
  /\ width_spec true S5_frame = 33
  /\ exists t,
       Terse_of Int32 S5_frame 2 = Done t
       /\ bits_per_val t = 2
       /\ bits_per_val t <> 32
       /\ unpacked (prolix Int16 t 0) = Done [0%Z; (-1)%Z]
       /\ unpacked (prolix Int16 t 0)
          <> Done [min_value Int16; max_value Int16].
Proof.
  split; [vm_compute; reflexivity|].
  split; [vm_compute; reflexivity|].
  eexists. split; [vm_compute; reflexivity|].
  split; [vm_compute; reflexivity|].
  split; [vm_compute; discriminate|].
  split; [vm_compute; reflexivity|].
  vm_compute. discriminate.
Qed.

(** ** The size of the packed bytes *)

(** C8, as amended.  Every frame push that returns leaves the packed
    buffer with exactly [1 + floor(final_bit_cursor / 8)] bytes, where
    [final_bit_cursor] is the absolute bit position at which the block loop
    of [f_compress] ends. *)
Theorem shrink_after_encode (T : int_type) (t t' : Terse) (data : list Z) :
  push_back T t data = Done t' ->
  exists t0 st,
    f_compress_run T t0 data = Some st
    /\ d_terse_data t0 = d_terse_data t
    /\ d_block t0 = d_block t
    /\ d_size t0 = length data
    /\ 8 * terse_size t <= e_bitp st
    /\ terse_size t' = 1 + e_bitp st / 8.
Proof.
  unfold push_back, terse_size. intros H.
  assert (G : forall t0, f_compress T t0 data = Done t' ->
              exists st, f_compress_run T t0 data = Some st
                         /\ 8 * length (d_terse_data t0) <= e_bitp st
                         /\ length (d_terse_data t') = 1 + e_bitp st / 8).
  { intros t0 H0. unfold f_compress in H0.
    destruct (f_compress_run T t0 data) as [st|] eqn:R; [|discriminate].
    exists st. split; [reflexivity|].
    set (n := 1 + e_bitp st / 8) in *. injection H0 as <-.
    cbn [d_terse_data]. rewrite length_resize. split; [|reflexivity].
    unfold f_compress_run in R. apply f_compress_loop_frame in R.
    destruct R as (_ & R & _). exact R. }
  destruct (number_of_frames t =? 0).
  - destruct (G _ H) as (st & G1 & G2 & G3).
    match type of G1 with
    | f_compress_run _ ?t0 _ = _ => exists t0, st
    end.
    repeat split; auto.
  - destruct (negb (size t =? length data)) eqn:E1; [discriminate|].
    destruct (negb (Bool.eqb (d_signed t) (is_signed_v T)));
      [discriminate|].
    destruct (G _ H) as (st & G1 & G2 & G3).
    match type of G1 with
    | f_compress_run _ ?t0 _ = _ => exists t0, st
    end.
    repeat split; auto.
    cbn [d_size]. apply negb_false_iff, Nat.eqb_eq in E1. exact E1.
Qed.

Lemma shrink_after_encode_witness :
  push_back UInt8 Terse_empty [1%Z]
  = Done (mkTerse false 12 1 1 [] [18%Z] [0])
  /\ exists t0 st,
       f_compress_run UInt8 t0 [1%Z] = Some st
       /\ d_terse_data t0 = d_terse_data Terse_empty
       /\ d_block t0 = d_block Terse_empty
       /\ d_size t0 = length [1%Z]
       /\ 8 * terse_size Terse_empty <= e_bitp st
       /\ terse_size (mkTerse false 12 1 1 [] [18%Z] [0])
          = 1 + e_bitp st / 8.
Proof.
  assert (H : push_back UInt8 Terse_empty [1%Z]
              = Done (mkTerse false 12 1 1 [] [18%Z] [0]))
    by (vm_compute; reflexivity).
  split; [exact H|].
  exact (shrink_after_encode UInt8 Terse_empty _ [1%Z] H).
Defined.

(** C8 as stated fails: pushing the unsigned frame [1] into an empty store
    ends the block loop at bit 5 (a 4-bit header and a 1-bit value); the
    buffer is resized to 1 byte, not to [1 + ceil(5 / 8) = 2]. *)
Lemma shrink_is_not_ceiling :
  exists t st,
    push_back UInt8 Terse_empty [1%Z] = Done t
    /\ f_compress_run UInt8 (mkTerse false 12 1 0 [] [] [0]) [1%Z] = Some st
    /\ e_bitp st = 5
    /\ terse_size t = 1
    /\ terse_size t <> 1 + (e_bitp st + 7) / 8.
Proof.
  do 2 eexists. split; [vm_compute; reflexivity|].
  split; [vm_compute; reflexivity|].
  split; [reflexivity|]. split; [reflexivity|].
  vm_compute. discriminate.
Qed.

(** ** The frame offsets *)

Lemma length_set_frame t k off :
  length (set_frame t k off) = length (d_terse_frames t).
Proof.
  unfold set_frame.
  destruct (nth_error (d_terse_frames t) k) eqn:E; [|reflexivity].
  assert (k < length (d_terse_frames t))
    by (apply nth_error_Some; congruence).
  rewrite length_app, length_firstn. cbn [length]. rewrite length_skipn. lia.
Qed.

Lemma nth_set_frame t k off i :
  nth i (set_frame t k off) 0
  = if (i =? k) && (k <? length (d_terse_frames t)) then off
    else nth i (d_terse_frames t) 0.
Proof.
  unfold set_frame.
  destruct (nth_error (d_terse_frames t) k) eqn:E.
  - assert (Hk : k < length (d_terse_frames t))
      by (apply nth_error_Some; congruence).
    replace (k <? length (d_terse_frames t)) with true
      by (symmetry; apply Nat.ltb_lt; assumption).
    rewrite andb_true_r.
    assert (Lf : length (firstn k (d_terse_frames t)) = k)
      by (apply firstn_length_le; lia).
    destruct (Nat.lt_trichotomy i k) as [H|[H|H]].
    + replace (i =? k) with false by (symmetry; apply Nat.eqb_neq; lia).
      rewrite app_nth1 by lia. rewrite nth_firstn.
      replace (i <? k) with true by (symmetry; apply Nat.ltb_lt; lia).
      reflexivity.
    + subst i. rewrite Nat.eqb_refl.
      rewrite app_nth2 by lia. rewrite Lf, Nat.sub_diag. reflexivity.
    + replace (i =? k) with false by (symmetry; apply Nat.eqb_neq; lia).
      rewrite app_nth2 by lia. rewrite Lf.
      replace (i - k) with (S (i - S k)) by lia. cbn [nth].
      rewrite nth_skipn. f_equal. lia.
  - apply nth_error_None in E.
    replace (k <? length (d_terse_frames t)) with false
      by (symmetry; apply Nat.ltb_ge; assumption).
    rewrite andb_false_r. reflexivity.
Qed.

(** The offset look-up changes nothing but unresolved offsets of frames
    after the first. *)
Lemma f_find_fields frame :
  forall t t' off,
  f_find_terse_frame t frame = Some (t', off) ->
  d_signed t' = d_signed t /\ d_block t' = d_block t
  /\ d_size t' = d_size t /\ d_prolix_bits t' = d_prolix_bits t
  /\ d_dim t' = d_dim t /\ d_terse_data t' = d_terse_data t
  /\ length (d_terse_frames t') = length (d_terse_frames t)
  /\ nth 0 (d_terse_frames t') 0 = nth 0 (d_terse_frames t) 0.
Proof.
  induction frame as [|frame IH]; intros t t' off H;
    cbn [f_find_terse_frame] in H.
  - injection H as <- _. repeat split.
  - destruct (nth (S frame) (d_terse_frames t) 0 =? 0).
    + destruct (f_find_terse_frame t frame) as [[t1 b]|] eqn:E;
        [|discriminate].
      destruct (scan_loop (d_size t1) (d_block t1) (d_size t1) 0
                  (d_terse_data t1) (8 * b) 0) as [bitp|]; [|discriminate].
      injection H as <- _.
      destruct (IH _ _ _ E) as (I1 & I2 & I3 & I4 & I5 & I6 & I7 & I8).
      cbn [with_frames d_signed d_block d_size d_prolix_bits d_dim
             d_terse_data d_terse_frames].
      rewrite length_set_frame, nth_set_frame.
      repeat split; auto.
    + injection H as <- _. repeat split.
Qed.

Lemma f_find_returns frame :
  forall t, 1 <= d_block t \/ d_size t = 0 ->
  exists r, f_find_terse_frame t frame = Some r.
Proof.
  induction frame as [|frame IH]; intros t HB; cbn [f_find_terse_frame].
  - eexists; reflexivity.
  - destruct (nth (S frame) (d_terse_frames t) 0 =? 0);
      [|eexists; reflexivity].
    destruct (IH t HB) as [[t1 b] E]. rewrite E.
    destruct (f_find_fields _ _ _ _ E) as (_ & I2 & I3 & _).
    destruct (scan_loop_terminates (d_size t1) (d_block t1) (d_size t1)
                (d_terse_data t1) 0 (8 * b) 0) as [q ->].
    + rewrite I2, I3. exact HB.
    + destruct HB as [HB|HB]; rewrite I2, I3; [nia|lia].
    + eexists; reflexivity.
Qed.

(** ** Signedness on unpack *)




(** ** Width overflow *)

Lemma blocks_of_Forall (P : Z -> Prop) fuel B :
  forall xs block,
  Forall P xs -> In block (blocks_of fuel B xs) -> Forall P block.
Proof.
  induction fuel as [|fuel IH]; intros xs block H Hin;
    cbn [blocks_of] in Hin.
  - destruct xs; contradiction.
  - destruct xs as [|x xs]; [contradiction|].
    destruct Hin as [<-|Hin].
    + apply Forall_firstn. assumption.
    + apply (IH (skipn B (x :: xs))); [|assumption].
      apply Forall_skipn. assumption.
Qed.

Lemma make_unsigned_bounds T z :
  (0 <= make_unsigned T z < 2 ^ Z.of_nat (bits T))%Z.
Proof.
  unfold make_unsigned. apply Z.mod_pos_bound.
  apply Z.pow_pos_nonneg; lia.
Qed.

Lemma pow2_le_64 n : n <= 64 -> (2 ^ Z.of_nat n <= 2 ^ Z.of_nat 64)%Z.
Proof. intros H. apply Z.pow_le_mono_r; lia. Qed.

(** No block of values of [T] gets a width above the width of [T] plus
    one. *)
Lemma block_width_bound T block :
  Forall (in_range T) block -> block_width T block <= bits T + 1.
Proof.
  intros H. unfold block_width, f_highest_set_bit.
  pose proof (bits_bounds T) as BT.
  destruct (is_signed_v T) eqn:Sg.
  - destruct (f_setbits T block =? 0)%Z; [lia|].
    pose proof (make_unsigned_bounds T (c_abs (f_setbits T block))) as M.
    pose proof (pow2_le_64 (bits T)).
    rewrite highest_set_bit_loop_spec by lia.
    destruct M as [M0 M1]. apply bits_needed_bound in M1; lia.
  - assert (Ha : Forall (has_abs T) block).
    { eapply Forall_impl; [|exact H]. intros v Hv. split; [assumption|].
      rewrite Sg. discriminate. }
    destruct (f_setbits_spec T block Ha) as [_ B].
    rewrite max_value_pow, Sg in B.
    pose proof (pow2_le_64 (bits T)).
    rewrite highest_set_bit_loop_spec by lia.
    assert (bits_needed (f_setbits T block) <= bits T)
      by (apply bits_needed_bound; lia).
    lia.
Qed.





(** ** Empty frames *)

Lemma resize_same d : resize d (length d) = d.
Proof.
  unfold resize. rewrite firstn_all, Nat.sub_diag. apply app_nil_r.
Qed.

Lemma resize_one_more d : resize d (S (length d)) = d ++ [0%Z].
Proof.
  unfold resize. rewrite firstn_all2 by lia.
  replace (S (length d) - length d) with 1 by lia. reflexivity.
Qed.

Lemma reserve_empty T B : 1 <= B -> reserve T 0 B = 0.
Proof.
  intros H. unfold reserve. cbn [Nat.mul Nat.add].
  apply Nat.div_small. lia.
Qed.

(** Encoding an empty frame writes no bit and adds one zero byte. *)
Lemma f_compress_empty T t :
  d_size t = 0 -> 1 <= d_block t ->
  f_compress_run T t [] = Some (f_compress_init T t)
  /\ e_bitp (f_compress_init T t) = 8 * terse_size t
  /\ f_compress T t []
     = Done (mkTerse (d_signed t) (d_block t) (d_size t) (d_prolix_bits t)
               (d_dim t) (d_terse_data t ++ [0%Z]) (d_terse_frames t)).
Proof.
  intros Hs HB. unfold f_compress, f_compress_run. rewrite Hs.
  cbn [f_compress_loop Nat.ltb Nat.leb]. split; [reflexivity|].
  split; [reflexivity|].
  unfold f_compress_init. rewrite Hs, reserve_empty by assumption.
  cbn [e_data e_bitp e_prolix_bits]. rewrite Nat.add_0_r, resize_same.
  replace (1 + 8 * length (d_terse_data t) / 8)
    with (S (length (d_terse_data t))) by lia.
  rewrite resize_one_more. reflexivity.
Qed.

(** C10, as amended.  For a store with a block size of at least 1 that has
    no frame yet, or whose frame length is 0 and whose signedness is that of
    the pushed element type: pushing an empty frame returns, appends exactly
    one frame, writes no header bit and no value bit (the block loop ends at
    the cursor it starts at) and grows the packed buffer by exactly one zero
    byte; and unpacking any frame of the resulting store, into an output
    type that is signed or from unsigned data, returns and writes
    nothing. *)
Theorem empty_frame (T U : int_type) (t : Terse) :
  1 <= d_block t ->
  number_of_frames t = 0
  \/ (d_size t = 0 /\ d_signed t = is_signed_v T) ->
  exists t' t0,
    push_back T t [] = Done t'
    /\ number_of_frames t' = S (number_of_frames t)
    /\ f_compress_run T t0 [] = Some (f_compress_init T t0)
    /\ d_terse_data t0 = d_terse_data t
    /\ e_bitp (f_compress_init T t0) = 8 * terse_size t
    /\ d_terse_data t' = d_terse_data t ++ [0%Z]
    /\ terse_size t' = S (terse_size t)
    /\ (forall frame,
          frame < number_of_frames t' ->
          d_signed t' = false \/ is_signed_v U = true ->
          unpacked (prolix U t' frame) = Done []).
Proof.
  intros HB Hc.
  (* the store [push_back] hands to [f_compress] *)
  assert (G : forall s, d_size s = 0 -> d_block s = d_block t ->
              d_terse_data s = d_terse_data t ->
              d_terse_frames s = d_terse_frames t ++ [0] ->
              push_back T t [] = f_compress T s [] ->
              exists t' t0,
                push_back T t [] = Done t'
                /\ number_of_frames t' = S (number_of_frames t)
                /\ f_compress_run T t0 [] = Some (f_compress_init T t0)
                /\ d_terse_data t0 = d_terse_data t
                /\ e_bitp (f_compress_init T t0) = 8 * terse_size t
                /\ d_terse_data t' = d_terse_data t ++ [0%Z]
                /\ terse_size t' = S (terse_size t)
                /\ (forall frame,
                      frame < number_of_frames t' ->
                      d_signed t' = false \/ is_signed_v U = true ->
                      unpacked (prolix U t' frame) = Done [])).
  { intros s Hs Hb Hd Hf E.
    destruct (f_compress_empty T s Hs) as (C1 & C2 & C3); [lia|].
    rewrite C3 in E.
    eexists; exists s. split; [exact E|].
    unfold number_of_frames, terse_size in *.
    cbn [d_terse_frames d_terse_data d_signed].
    rewrite Hf, Hd, length_app, length_app in *. cbn [length].
    repeat split; auto; try lia.
    intros frame Hfr Sg. unfold prolix.
    unfold number_of_frames. cbn [d_terse_frames].
    rewrite length_app. cbn [length].
    replace (frame <? length (d_terse_frames t) + 1) with true
      by (symmetry; apply Nat.ltb_lt; lia).
    cbn [negb].
    match goal with
    | |- context [f_find_terse_frame ?s' frame] =>
        destruct (f_find_returns frame s') as [[t1 b] F];
        [right; exact Hs|];
        rewrite F;
        destruct (f_find_fields _ _ _ _ F) as (I1 & I2 & I3 & _)
    end.
    cbn [d_signed d_size] in I1, I3. rewrite I1, I3, Hs.
    replace (d_signed s && negb (is_signed_v U)) with false
      by (destruct Sg as [-> | ->];
          [reflexivity|symmetry; apply andb_false_r]).
    reflexivity. }
  destruct Hc as [Hc|[Hs Hg]].
  - apply (G (mkTerse (is_signed_v T) (d_block t) 0 (d_prolix_bits t)
                (d_dim t) (d_terse_data t) (d_terse_frames t ++ [0])));
      try reflexivity.
    unfold push_back. rewrite Hc. reflexivity.
  - apply (G (mkTerse (d_signed t) (d_block t) (d_size t) (d_prolix_bits t)
                (d_dim t) (d_terse_data t) (d_terse_frames t ++ [0])));
      try reflexivity; try assumption.
    unfold push_back, size. rewrite Hs, Hg, Bool.eqb_reflx. cbn [length].
    destruct (number_of_frames t =? 0); reflexivity.
Qed.

Lemma empty_frame_witness :
  (1 <= d_block (mkTerse false 12 0 0 [] [0%Z] [0])
   /\ (number_of_frames (mkTerse false 12 0 0 [] [0%Z] [0]) = 0
       \/ (d_size (mkTerse false 12 0 0 [] [0%Z] [0]) = 0
           /\ d_signed (mkTerse false 12 0 0 [] [0%Z] [0])
              = is_signed_v UInt8)))
  /\ push_back UInt8 Terse_empty [] = Done (mkTerse false 12 0 0 [] [0%Z] [0])
  /\ exists t' t0,
       push_back UInt8 (mkTerse false 12 0 0 [] [0%Z] [0]) [] = Done t'
       /\ number_of_frames t' = 2
       /\ f_compress_run UInt8 t0 [] = Some (f_compress_init UInt8 t0)
       /\ d_terse_data t0 = [0%Z]
       /\ e_bitp (f_compress_init UInt8 t0) = 8
       /\ d_terse_data t' = [0%Z; 0%Z]
       /\ terse_size t' = 2
       /\ (forall frame,
             frame < number_of_frames t' ->
             d_signed t' = false \/ is_signed_v UInt16 = true ->
             unpacked (prolix UInt16 t' frame) = Done []).
Proof.
  assert (H1 : 1 <= d_block (mkTerse false 12 0 0 [] [0%Z] [0]))
    by (cbn; lia).
  assert (H2 : number_of_frames (mkTerse false 12 0 0 [] [0%Z] [0]) = 0
               \/ (d_size (mkTerse false 12 0 0 [] [0%Z] [0]) = 0
                   /\ d_signed (mkTerse false 12 0 0 [] [0%Z] [0])
                      = is_signed_v UInt8))
    by (right; split; reflexivity).
  split; [auto|]. split; [vm_compute; reflexivity|].
  exact (empty_frame UInt8 UInt16 (mkTerse false 12 0 0 [] [0%Z] [0]) H1 H2).
Defined.

(** C10 as stated fails: a store of frame length 0 that holds unsigned data
    rejects the push of an empty signed frame, and a store of empty signed
    frames rejects the unpacking into an unsigned output; both fail the
    signedness assertion. *)
Lemma empty_frame_signedness_still_checked :
  exists t s,
    push_back UInt8 Terse_empty [] = Done t
    /\ size t = 0
    /\ push_back Int8 t [] = Fails SignednessMismatch
    /\ push_back Int8 Terse_empty [] = Done s
    /\ size s = 0
    /\ prolix UInt8 s 0 = Fails SignednessMismatch.
Proof.
  do 2 eexists. split; [vm_compute; reflexivity|].
  split; [reflexivity|]. split; [vm_compute; reflexivity|].
  split; [vm_compute; reflexivity|].
  split; [reflexivity|]. vm_compute. reflexivity.
Qed.

(** ** Frames of zeros *)

Lemma firstn_zeros k m : firstn k (repeat 0%Z m) = repeat 0%Z (Nat.min k m).
Proof.
  revert m; induction k as [|k IH]; intros [|m]; cbn [firstn repeat Nat.min];
    try reflexivity.
  rewrite IH. reflexivity.
Qed.

Lemma skipn_zeros k m : skipn k (repeat 0%Z m) = repeat 0%Z (m - k).
Proof.
  revert m; induction k as [|k IH]; intros [|m]; cbn [skipn repeat Nat.sub];
    try reflexivity.
  apply IH.
Qed.

Lemma f_setbits_zeros T k : f_setbits T (repeat 0%Z k) = 0%Z.
Proof.
  unfold f_setbits. induction k as [|k IH]; cbn [repeat fold_left].
  - reflexivity.
  - replace (if is_signed_v T then to_type T (Z.lor 0 (std_abs T 0))
             else Z.lor 0 0) with 0%Z; [exact IH|].
    destruct T; reflexivity.
Qed.

Lemma block_width_zeros T k : block_width T (repeat 0%Z k) = 0.
Proof.
  unfold block_width. rewrite f_setbits_zeros. destruct T; reflexivity.
Qed.

Lemma block_count_step x B :
  1 <= B -> 1 <= x -> block_count x B = S (block_count (x - B) B).
Proof.
  intros HB Hx. unfold block_count.
  destruct (Nat.le_gt_cases B x) as [H|H].
  - replace (x + (B - 1)) with (x - B + (B - 1) + 1 * B) by lia.
    rewrite Nat.div_add by lia. lia.
  - replace (x - B) with 0 by lia. cbn [Nat.add].
    rewrite (Nat.div_small (B - 1) B) by lia.
    symmetry. apply (Nat.div_unique _ _ 1 (x - 1)); lia.
Qed.

Lemma block_count_0 B : 1 <= B -> block_count 0 B = 0.
Proof. intros H. unfold block_count. apply Nat.div_small. lia. Qed.

Lemma block_count_le n B : 1 <= B -> block_count n B <= n.
Proof.
  intros HB. unfold block_count.
  destruct n as [|n]; [rewrite Nat.div_small; lia|].
  assert ((S n + (B - 1)) / B < S (S n)); [|lia].
  apply Nat.Div0.div_lt_upper_bound. nia.
Qed.

(** On a frame of zeros every block takes the repeat header: one bit,
    set. *)
Lemma zeros_loop T B N fuel :
  1 <= B ->
  forall from m st st',
  e_prevbits st = 0 ->
  f_compress_loop fuel T B N from (repeat 0%Z m) st = Some st' ->
  e_bitp st' = e_bitp st + block_count (N - from) B
  /\ e_prolix_bits st' = e_prolix_bits st
  /\ length (e_data st') = length (e_data st)
  /\ forall q,
       get_bit (e_data st') q
       = ((e_bitp st <=? q) && (q <? e_bitp st')
          && (q / 8 <? length (e_data st)))
         || get_bit (e_data st) q.
Proof.
  intros HB. induction fuel as [|fuel IH]; intros from m st st' Hp H;
    cbn [f_compress_loop] in H; destruct (Nat.ltb_spec from N);
    try discriminate;
    try (injection H as <-; replace (N - from) with 0 by lia;
         rewrite block_count_0, Nat.add_0_r by assumption;
         repeat split; intros q; nat_cases; reflexivity).
  unfold f_compress_block in H.
  rewrite firstn_zeros in H.
  rewrite f_setbits_zeros in H.
  replace (f_highest_set_bit T 0) with 0 in H by (destruct T; reflexivity).
  unfold emit_header in H. rewrite Hp in H. cbn [Nat.eqb] in H.
  rewrite Nat.max_0_r, skipn_zeros in H.
  apply IH in H; [|reflexivity]. cbn [e_bitp e_data e_prolix_bits] in H.
  destruct H as (H1 & H2 & H3 & H4).
  rewrite length_set_bit in *.
  rewrite (block_count_step (N - from) B) by lia.
  replace (N - from - B) with (N - (from + B)) by lia.
  repeat split; try lia.
  intros q. rewrite H4, get_bit_set_bit.
  nat_cases; cbn [andb orb]; try reflexivity;
    destruct (get_bit (e_data st) q); reflexivity.
Qed.

Lemma reserve_ge T n B : n <= reserve T n B.
Proof.
  unfold reserve. assert (1 <= sizeof T) by (destruct T; cbn; lia). nia.
Qed.

(** The store constructed from a frame of [n] zeros: as many bits as the
    frame has blocks, every one the repeat header. *)
Lemma all_zero_frame T n B :
  1 <= B ->
  exists t st,
    Terse_of T (repeat 0%Z n) B = Done t
    /\ f_compress_run T (Terse_init T (repeat 0%Z n) B) (repeat 0%Z n)
       = Some st
    /\ e_bitp st = block_count n B
    /\ bits_per_val t = 0
    /\ terse_size t = 1 + block_count n B / 8
    /\ forall k, k < block_count n B ->
         bits_at (d_terse_data t) k (length (header_bits 0 0))
         = header_bits 0 0.
Proof.
  intros HB. unfold Terse_of, f_compress.
  destruct (f_compress_run T (Terse_init T (repeat 0%Z n) B) (repeat 0%Z n))
    as [st|] eqn:R.
  - exists (mkTerse (is_signed_v T) B (length (repeat 0%Z n))
              (e_prolix_bits st) [] (resize (e_data st) (1 + e_bitp st / 8))
              [0]), st.
    unfold f_compress_run in R.
    apply (zeros_loop T B _ _ HB) in R; [|reflexivity].
    destruct R as (R1 & R2 & R3 & R4).
    unfold f_compress_init in R1, R2, R3, R4.
    cbn [Terse_init d_terse_data d_size d_block d_prolix_bits length e_bitp
           e_data e_prolix_bits Nat.mul Nat.add] in R1, R2, R3, R4.
    rewrite repeat_length, Nat.sub_0_r in R1.
    rewrite length_resize in R3, R4. rewrite repeat_length in R3, R4.
    split; [reflexivity|]. split; [reflexivity|]. split; [exact R1|].
    split; [exact R2|]. unfold terse_size. cbn [d_terse_data].
    rewrite length_resize, R1. split; [reflexivity|].
    intros k Hk. change (header_bits 0 0) with [true].
    cbn [length]. rewrite bits_at_cons. cbn [bits_at seq map]. f_equal.
    rewrite get_bit_resize, R4, R1.
    pose proof (block_count_le n B HB).
    pose proof (reserve_ge T n B).
    nat_cases.
  - exfalso. unfold f_compress_run in R.
    destruct (f_compress_loop_terminates
                (d_size (Terse_init T (repeat 0%Z n) B)) T
                (d_block (Terse_init T (repeat 0%Z n) B))
                (d_size (Terse_init T (repeat 0%Z n) B)) 0 (repeat 0%Z n)
                (f_compress_init T (Terse_init T (repeat 0%Z n) B)))
      as [st' E]; [exact HB|cbn [Terse_init d_block]; nia|].
    congruence.
Qed.

(** C9, as amended.  Pushing 262144 zeros as one frame with block size 12
    produces an encoding whose 21846 block headers, the first included, are
    each the single repeat bit 1 (the previous width starts at 0, so a
    first block of width 0 repeats it and no header announces the width);
    the block loop ends at bit 21846, [max_bits] is 0 and the packed size is
    [1 + floor(21846 / 8) = 2731] bytes. *)
Theorem all_zeros_scenario_S2 (T : int_type) :
  exists t st,
    Terse_of T S2_frame 12 = Done t
    /\ f_compress_run T (Terse_init T S2_frame 12) S2_frame = Some st
    /\ Z.of_nat (block_count (length S2_frame) 12) = 21846%Z
    /\ e_bitp st = block_count (length S2_frame) 12
    /\ (forall k, k < block_count (length S2_frame) 12 ->
          bits_at (d_terse_data t) k (length (header_bits 0 0))
          = header_bits 0 0)
    /\ header_bits 0 0 = [true]
    /\ bits_per_val t = 0
    /\ Z.of_nat (terse_size t) = 2731%Z.
Proof.
  unfold S2_frame. rewrite repeat_length.
  destruct (all_zero_frame T (512 * 512) 12) as (t & st & H1 & H2 & H3 & H4
                                                 & H5 & H6); [lia|].
  exists t, st.
  split; [exact H1|]. split; [exact H2|].
  split; [vm_compute; reflexivity|].
  split; [exact H3|]. split; [exact H6|]. split; [reflexivity|].
  split; [exact H4|].
  rewrite H5. vm_compute. reflexivity.
Qed.

(** C9 as stated fails: in the encoding of the 262144 zeros the first bit is
    set, the repeat header, so that no header announces [w = 0] with the
    bits 0 000; and the packed size is 2731 bytes, not
    [ceil((1 + 4 + 21844) / 8) = 2732]. *)
Lemma all_zeros_first_header_is_repeat :
  exists t,
    Terse_of UInt32 S2_frame 12 = Done t
    /\ get_bit (d_terse_data t) 0 = true
    /\ bits_at (d_terse_data t) 0 4 <> false :: lsb_bits 3 0
    /\ Z.of_nat (terse_size t) = 2731%Z
    /\ Z.of_nat (terse_size t) <> ((1 + 4 + 21844 + 7) / 8)%Z.
Proof.
  unfold S2_frame.
  destruct (all_zero_frame UInt32 (512 * 512) 12)
    as (t & st & H1 & H2 & H3 & H4 & H5 & H6); [lia|].
  assert (E : Z.of_nat (block_count (512 * 512) 12) = 21846%Z)
    by (vm_compute; reflexivity).
  assert (E8 : Z.of_nat (terse_size t) = 2731%Z)
    by (rewrite H5; vm_compute; reflexivity).
  exists t. split; [exact H1|].
  assert (G : get_bit (d_terse_data t) 0 = true).
  { set (bc := block_count (512 * 512) 12) in *. clearbody bc.
    assert (P : 0 < bc) by (clear - E; lia).
    specialize (H6 0 P). change (header_bits 0 0) with [true] in H6.
    cbn [length] in H6. rewrite bits_at_cons in H6.
    injection H6 as H6. exact H6. }
  split; [exact G|]. split.
  - rewrite bits_at_cons, G. discriminate.
  - split; [exact E8|]. rewrite E8. discriminate.
Qed.

(** ** Lazy offsets *)

(** An entry the look-up changes was unresolved, is a frame after the
    first, and becomes the offset the look-up returns for it. *)
Lemma f_find_entries k :
  forall t t' o,
  f_find_terse_frame t k = Some (t', o) ->
  forall i,
  nth i (d_terse_frames t') 0 = nth i (d_terse_frames t) 0
  \/ (nth i (d_terse_frames t) 0 = 0
      /\ nth i (d_terse_frames t') 0 <> 0
      /\ offset_of t i = Some (nth i (d_terse_frames t') 0)).
Proof.
  unfold offset_of.
  induction k as [|k IH]; intros t t' o H i.
  - cbn [f_find_terse_frame] in H. injection H as <- _. left. reflexivity.
  - pose proof H as H'. cbn [f_find_terse_frame] in H.
    destruct (nth (S k) (d_terse_frames t) 0 =? 0) eqn:E0.
    + destruct (f_find_terse_frame t k) as [[t1 b]|] eqn:E;
        [|discriminate].
      destruct (scan_loop (d_size t1) (d_block t1) (d_size t1) 0
                  (d_terse_data t1) (8 * b) 0) as [bitp|] eqn:Es;
        [|discriminate].
      injection H as <- <-. cbn [with_frames d_terse_frames].
      rewrite nth_set_frame.
      destruct ((i =? S k) && (S k <? length (d_terse_frames t1))) eqn:Ei.
      * apply andb_true_iff in Ei. destruct Ei as [Ei _].
        apply Nat.eqb_eq in Ei. subst i. right.
        apply Nat.eqb_eq in E0. split; [exact E0|]. split; [lia|].
        rewrite H'. reflexivity.
      * apply (IH _ _ _ E).
    + injection H as <- _. left. reflexivity.
Qed.

(** Materialising offsets does not change the offset any later look-up
    returns. *)
Lemma f_find_stable k t t' o :
  f_find_terse_frame t k = Some (t', o) ->
  forall j, offset_of t' j = offset_of t j.
Proof.
  unfold offset_of. intros H.
  destruct (f_find_fields _ _ _ _ H) as (F1 & F2 & F3 & F4 & F5 & F6 & F7 & F8).
  induction j as [|j IH].
  - cbn [f_find_terse_frame option_map snd]. rewrite F8. reflexivity.
  - destruct (f_find_entries _ _ _ _ H (S j)) as [E|(E0 & E1 & E2)].
    + cbn [f_find_terse_frame]. rewrite E.
      destruct (nth (S j) (d_terse_frames t) 0 =? 0); [|reflexivity].
      destruct (f_find_terse_frame t' j) as [[t1' b']|] eqn:A';
        destruct (f_find_terse_frame t j) as [[t1 b]|] eqn:A;
        cbn [option_map snd] in IH; try discriminate; [|reflexivity].
      injection IH as ->.
      destruct (f_find_fields _ _ _ _ A') as (_ & G2 & G3 & _ & _ & G6 & _).
      destruct (f_find_fields _ _ _ _ A) as (_ & K2 & K3 & _ & _ & K6 & _).
      rewrite G2, G3, G6, K2, K3, K6, F2, F3, F6.
      destruct (scan_loop (d_size t) (d_block t) (d_size t) 0
                  (d_terse_data t) (8 * b) 0); reflexivity.
    + unfold offset_of in E2. rewrite E2. cbn [f_find_terse_frame].
      replace (nth (S j) (d_terse_frames t') 0 =? 0) with false
        by (symmetry; apply Nat.eqb_neq; assumption).
      reflexivity.
Qed.

(** Materialising offsets does not change what the next unpack of any
    frame writes. *)
Lemma prolix_after_find U k t t' o j :
  f_find_terse_frame t k = Some (t', o) ->
  unpacked (prolix U t' j) = unpacked (prolix U t j).
Proof.
  intros H.
  destruct (f_find_fields _ _ _ _ H) as (F1 & F2 & F3 & F4 & F5 & F6 & F7 & F8).
  pose proof (f_find_stable _ _ _ _ H j) as S. unfold offset_of in S.
  unfold prolix, number_of_frames. rewrite F7.
  destruct (negb (j <? length (d_terse_frames t))); [reflexivity|].
  destruct (f_find_terse_frame t' j) as [[t1' b']|] eqn:A';
    destruct (f_find_terse_frame t j) as [[t1 b]|] eqn:A;
    cbn [option_map snd] in S; try discriminate; [|reflexivity].
  injection S as ->.
  destruct (f_find_fields _ _ _ _ A') as (G1 & G2 & G3 & _ & _ & G6 & _).
  destruct (f_find_fields _ _ _ _ A) as (K1 & K2 & K3 & _ & _ & K6 & _).
  rewrite G1, G2, G3, G6, K1, K2, K3, K6, F1, F2, F3, F6.
  destruct (d_signed t && negb (is_signed_v U)); [reflexivity|].
  destruct (prolix_loop (d_size t) U (d_block t) (d_size t) 0
              (d_terse_data t) (8 * b) 0) as [[vs q]|]; reflexivity.
Qed.

(** ** The decoder reads only the bits of the frame *)

Lemma parse_header_local d d' bitp sb w h :
  parse_header d bitp sb = (w, h) ->
  agree d d' bitp h ->
  parse_header d' bitp sb = (w, h) /\ bitp < h.
Proof.
  unfold parse_header. intros H Ha.
  assert (L : bitp < h
              /\ (get_bit d bitp = false -> bitp + 4 <= h
                  /\ (Z.to_nat (read_bits d (S bitp) 3) = 7 -> bitp + 6 <= h
                      /\ (7 + Z.to_nat (read_bits d (S bitp + 3) 2) = 10 ->
                          bitp + 12 <= h)))).
  { destruct (get_bit d bitp).
    - injection H as _ <-. split; [lia|discriminate].
    - destruct (Nat.eqb_spec (Z.to_nat (read_bits d (S bitp) 3)) 7) as [E|E].
      + rewrite E in H. cbn [Nat.eqb] in H.
        destruct (Nat.eqb_spec
                    (7 + Z.to_nat (read_bits d (S bitp + 3) 2)) 10) as [F|F].
        * injection H as _ <-. repeat split; intros; lia.
        * injection H as _ <-. repeat split; intros; try lia.
      + injection H as _ <-. repeat split; intros; try lia. }
  destruct L as (L0 & L). split; [|exact L0].
  rewrite (Ha bitp) by lia.
  destruct (get_bit d bitp); [exact H|].
  destruct (L eq_refl) as (L1 & L2).
  rewrite (read_bits_ext 3 d d' (S bitp)) by (intros q Hq; apply Ha; lia).
  destruct (Nat.eqb_spec (Z.to_nat (read_bits d (S bitp) 3)) 7) as [E|E];
    [|exact H].
  destruct (L2 E) as (L3 & L4).
  rewrite (read_bits_ext 2 d d' (S bitp + 3))
    by (intros q Hq; apply Ha; lia).
  rewrite E in *. cbn [Nat.eqb] in *.
  destruct (Nat.eqb_spec (7 + Z.to_nat (read_bits d (S bitp + 3) 2)) 10)
    as [F|F]; [|exact H].
  specialize (L4 F).
  rewrite (read_bits_ext 6 d d' (S bitp + 3 + 2))
    by (intros q Hq; apply Ha; lia).
  exact H.
Qed.

Lemma get_range_local U w d d' cnt :
  forall p,
  agree d d' p (p + w * cnt) ->
  get_range U d' p w cnt = get_range U d p w cnt
  /\ snd (get_range U d p w cnt) = p + w * cnt.
Proof.
  induction cnt as [|cnt IH]; intros p Ha; cbn [get_range].
  - split; [reflexivity|]. cbn [snd]. lia.
  - destruct (IH (p + w)) as [I1 I2].
    { intros q Hq. apply Ha. lia. }
    rewrite I1.
    rewrite (read_bits_ext w d d' p) by (intros q Hq; apply Ha; nia).
    destruct (get_range U d (p + w) w cnt) as [vs q]. cbn [snd] in *.
    split; [reflexivity|]. lia.
Qed.

Lemma parse_header_mono d bitp sb w h :
  parse_header d bitp sb = (w, h) -> bitp < h.
Proof.
  intros H. apply (parse_header_local d d bitp sb w h H).
  intros q Hq. reflexivity.
Qed.

Lemma block_values_cursor U d h w cnt vs0 p0 :
  (if w =? 0 then (repeat 0%Z cnt, h) else get_range U d h w cnt)
  = (vs0, p0) ->
  p0 = h + (if w =? 0 then 0 else w * cnt).
Proof.
  destruct (w =? 0); intros V.
  - injection V as _ <-. lia.
  - pose proof (get_range_local U w d d cnt h (fun q _ => eq_refl))
      as [_ G]. rewrite V in G. exact G.
Qed.

Lemma prolix_loop_mono fuel U B N d :
  forall from bitp sb vs c,
  prolix_loop fuel U B N from d bitp sb = Some (vs, c) -> bitp <= c.
Proof.
  induction fuel as [|fuel IH]; intros from bitp sb vs c H;
    cbn [prolix_loop] in *; destruct (from <? N);
    try discriminate; try (injection H as _ <-; lia).
  destruct (parse_header d bitp sb) as [w h] eqn:P.
  destruct (if w =? 0
            then (repeat 0%Z (Nat.min N (from + B) - from), h)
            else get_range U d h w (Nat.min N (from + B) - from))
    as [vs0 p0] eqn:V.
  destruct (prolix_loop fuel U B N (from + B) d p0 w) as [[rest q0]|] eqn:R;
    [|discriminate].
  injection H as _ <-.
  apply parse_header_mono in P. apply block_values_cursor in V.
  apply IH in R. lia.
Qed.

(** The block loop of [prolix] returns the same values and cursor on any
    buffer holding the bits it read. *)
Lemma prolix_loop_local fuel U B N d d' :
  forall from bitp sb vs c,
  prolix_loop fuel U B N from d bitp sb = Some (vs, c) ->
  agree d d' bitp c ->
  prolix_loop fuel U B N from d' bitp sb = Some (vs, c).
Proof.
  induction fuel as [|fuel IH]; intros from bitp sb vs c H Ha;
    cbn [prolix_loop] in *; destruct (from <? N);
    try discriminate; try exact H.
  destruct (parse_header d bitp sb) as [w h] eqn:P.
  set (cnt := Nat.min N (from + B) - from) in *.
  destruct (if w =? 0 then (repeat 0%Z cnt, h) else get_range U d h w cnt)
    as [vs0 p0] eqn:V.
  destruct (prolix_loop fuel U B N (from + B) d p0 w) as [[rest q0]|] eqn:R;
    [|discriminate].
  injection H as <- <-.
  pose proof (block_values_cursor _ _ _ _ _ _ _ V) as Hp0.
  pose proof (prolix_loop_mono _ _ _ _ _ _ _ _ _ _ R) as Hc.
  pose proof (parse_header_mono _ _ _ _ _ P) as Hb.
  assert (Hh : h <= p0) by (rewrite Hp0; lia).
  assert (P' : parse_header d' bitp sb = (w, h)).
  { apply (parse_header_local d d' bitp sb w h P).
    intros q Hq. apply Ha. lia. }
  rewrite P'.
  assert (V' : (if w =? 0 then (repeat 0%Z cnt, h)
                else get_range U d' h w cnt) = (vs0, p0)).
  { destruct (w =? 0); [exact V|].
    destruct (get_range_local U w d d' cnt h) as [G _]; [|congruence].
    intros q Hq. apply Ha. lia. }
  rewrite V'.
  rewrite (IH _ _ _ _ _ R); [reflexivity|].
  intros q Hq. apply Ha. lia.
Qed.

(** ** Stores of several frames *)

(** [f_compress] leaves the bytes of the earlier frames alone. *)
Lemma f_compress_keeps T t data t' :
  f_compress T t data = Done t' ->
  length (d_terse_data t) < length (d_terse_data t')
  /\ agree (d_terse_data t) (d_terse_data t') 0 (8 * length (d_terse_data t)).
Proof.
  unfold f_compress. intros H.
  destruct (f_compress_run T t data) as [st|] eqn:R; [|discriminate].
  set (n := 1 + e_bitp st / 8) in H.
  assert (Hn : n = 1 + e_bitp st / 8) by reflexivity. clearbody n.
  injection H as <-. cbn [d_terse_data].
  unfold f_compress_run in R.
  pose proof (f_compress_loop_frame _ _ _ _ _ _ _ _ R)
    as (L1 & L2 & L3 & L4 & L5).
  unfold f_compress_init in L2, L3. cbn [e_bitp e_data] in L2, L3.
  rewrite length_resize. split; [lia|].
  intros q Hq. rewrite get_bit_resize.
  replace (q / 8 <? n) with true by (symmetry; apply Nat.ltb_lt; lia).
  rewrite L3 by lia. rewrite get_bit_resize.
  replace (q / 8 <? length (d_terse_data t)
                    + reserve T (d_size t) (d_block t)) with true
    by (symmetry; apply Nat.ltb_lt; lia).
  reflexivity.
Qed.

Lemma keeps_refl t : 1 <= number_of_frames t -> keeps t t.
Proof.
  intros H. unfold keeps. repeat split; auto.
Qed.

Lemma keeps_find t t1 k t2 o :
  keeps t t1 -> f_find_terse_frame t1 k = Some (t2, o) -> keeps t t2.
Proof.
  unfold keeps, number_of_frames.
  intros (K1 & K2 & K3 & K4 & K5 & K6 & K7 & K8) H.
  destruct (f_find_fields _ _ _ _ H) as (F1 & F2 & F3 & F4 & F5 & F6 & F7 & F8).
  rewrite F1, F2, F3, F4, F6, F7, F8. repeat split; auto.
Qed.

Lemma keeps_prolix U t t1 frame vs t2 :
  keeps t t1 -> prolix U t1 frame = Done (vs, t2) -> keeps t t2.
Proof.
  intros K H. unfold prolix in H.
  destruct (negb (frame <? number_of_frames t1)); [discriminate|].
  destruct (f_find_terse_frame t1 frame) as [[t' b]|] eqn:F; [|discriminate].
  pose proof (keeps_find _ _ _ _ _ K F) as K'.
  destruct (d_signed t' && negb (is_signed_v U)); [discriminate|].
  destruct (prolix_loop (d_size t') U (d_block t') (d_size t') 0
              (d_terse_data t') (8 * b) 0) as [[vs' q]|]; [|discriminate].
  injection H as _ <-.
  destruct (S frame <? length (d_terse_frames t')); [|exact K'].
  unfold keeps, number_of_frames in *.
  cbn [with_frames d_terse_frames d_signed d_size d_block d_prolix_bits
         d_terse_data].
  rewrite length_set_frame, nth_set_frame. cbn [Nat.eqb andb].
  exact K'.
Qed.

Lemma keeps_push_back T t t1 data t2 :
  keeps t t1 -> push_back T t1 data = Done t2 -> keeps t t2.
Proof.
  unfold keeps. intros (K1 & K2 & K3 & K4 & K5 & K6 & K7 & K8) H.
  unfold push_back in H.
  replace (number_of_frames t1 =? 0) with false in H
    by (symmetry; apply Nat.eqb_neq; lia).
  destruct (negb (size t1 =? length data)); [discriminate|].
  destruct (negb (Bool.eqb (d_signed t1) (is_signed_v T))); [discriminate|].
  destruct (f_compress_fields _ _ _ _ H) as (F1 & F2 & F3 & F4 & F5 & F6).
  destruct (f_compress_keeps _ _ _ _ H) as (G1 & G2).
  cbn [d_signed d_block d_size d_dim d_terse_frames d_prolix_bits
         d_terse_data] in *.
  unfold number_of_frames in *. rewrite F1, F2, F3, F5, length_app.
  repeat split; auto; try lia.
  - rewrite app_nth1 by lia. exact K2.
  - intros q Hq. rewrite G2 by lia. apply K8. lia.
Qed.

Lemma evolves_keeps t t' :
  1 <= number_of_frames t -> evolves t t' -> keeps t t'.
Proof.
  intros H E. induction E.
  - apply keeps_refl. exact H.
  - eapply keeps_push_back; eauto.
  - eapply keeps_prolix; eauto.
  - eapply keeps_find; eauto.
Qed.

(** ** The frame-offset table *)

Lemma reachable_first_offset t :
  reachable t -> nth 0 (d_terse_frames t) 0 = 0.
Proof.
  induction 1 as [|T data block t H|pb sgn block sz dim payload frames
                  |T t data t' R IH H|U t frame vs t' R IH H
                  |t frame t' off R IH H].
  - reflexivity.
  - apply f_compress_fields in H.
    destruct H as (_ & _ & _ & _ & -> & _). reflexivity.
  - cbn [Terse_of_stream d_terse_frames]. destruct frames; reflexivity.
  - unfold push_back in H.
    assert (G : forall s, d_terse_frames s = d_terse_frames t ++ [0] ->
                f_compress T s data = Done t' ->
                nth 0 (d_terse_frames t') 0 = 0).
    { intros s Hs Hf. apply f_compress_fields in Hf.
      destruct Hf as (_ & _ & _ & _ & -> & _). rewrite Hs.
      destruct (d_terse_frames t) as [|x l]; [reflexivity|exact IH]. }
    destruct (number_of_frames t =? 0);
      [eapply G; [|exact H]; reflexivity|].
    destruct (negb (size t =? length data)); [discriminate|].
    destruct (negb (Bool.eqb (d_signed t) (is_signed_v T)));
      [discriminate|].
    eapply G; [|exact H]. reflexivity.
  - unfold prolix in H.
    destruct (negb (frame <? number_of_frames t)); [discriminate|].
    destruct (f_find_terse_frame t frame) as [[t1 b]|] eqn:F;
      [|discriminate].
    destruct (f_find_fields _ _ _ _ F) as (_ & _ & _ & _ & _ & _ & _ & F8).
    destruct (d_signed t1 && negb (is_signed_v U)); [discriminate|].
    destruct (prolix_loop (d_size t1) U (d_block t1) (d_size t1) 0
                (d_terse_data t1) (8 * b) 0) as [[vs' q]|]; [|discriminate].
    injection H as _ <-.
    destruct (S frame <? length (d_terse_frames t1)).
    + cbn [with_frames d_terse_frames]. rewrite nth_set_frame.
      cbn [Nat.eqb andb]. congruence.
    + congruence.
  - destruct (f_find_fields _ _ _ _ H) as (_ & _ & _ & _ & _ & _ & _ & F8).
    congruence.
Qed.

(** In a store of two frames, unpacking frame 0 returns the first frame and
    sets entry 1 to the packed size after the first push: the byte at which
    the second frame was appended. *)
Lemma second_offset_after_unpack T T2 U xs ys B t t2 vs t3 :
  1 <= B ->
  Forall (has_abs T) xs ->
  within_reserve T (Terse_init T xs B) xs ->
  is_signed_v U = is_signed_v T ->
  Terse_of T xs B = Done t ->
  push_back T2 t ys = Done t2 ->
  bits_per_val t2 <= bits U ->
  prolix U t2 0 = Done (vs, t3) ->
  vs = xs /\ nth 1 (d_terse_frames t3) 0 = terse_size t.
Proof.
  intros HB Hl Hc Sg Ht H2 Hp H3.
  destruct (f_compress_fields _ _ _ _ Ht) as (F1 & F2 & F3 & F4 & F5 & F6).
  assert (N1 : 1 <= number_of_frames t)
    by (unfold number_of_frames; rewrite F5; cbn; lia).
  assert (Ev : evolves t t2)
    by (eapply evolves_push_back; [apply evolves_refl|exact H2]).
  destruct (evolves_keeps t t2 N1 Ev)
    as (K1 & K2 & K3 & K4 & K5 & K6 & K7 & K8).
  unfold bits_per_val in Hp.
  destruct (f_compress_decodes T U _ _ _ Ht eq_refl Hl Hc Sg)
    as (c & D1 & D2 & D3); [lia|].
  cbn [Terse_init d_size d_block d_terse_data length Nat.mul] in D1.
  assert (D1' : prolix_loop (d_size t2) U (d_block t2) (d_size t2) 0
                  (d_terse_data t2) 0 0 = Some (xs, c)).
  { rewrite K4, K5, F2, F3.
    apply (prolix_loop_local _ _ _ _ (d_terse_data t)); [exact D1|].
    intros q Hq. apply K8. lia. }
  assert (L2 : length (d_terse_frames t2) = 2).
  { unfold push_back in H2.
    replace (number_of_frames t =? 0) with false in H2
      by (symmetry; apply Nat.eqb_neq; lia).
    destruct (negb (size t =? length ys)); [discriminate|].
    destruct (negb (Bool.eqb (d_signed t) (is_signed_v T2)));
      [discriminate|].
    apply f_compress_fields in H2.
    destruct H2 as (_ & _ & _ & _ & -> & _).
    cbn [d_terse_frames]. rewrite F5. reflexivity. }
  unfold prolix in H3.
  destruct (negb (0 <? number_of_frames t2)); [discriminate|].
  cbn [f_find_terse_frame] in H3.
  destruct (d_signed t2 && negb (is_signed_v U)); [discriminate|].
  rewrite K2, F5 in H3. cbn [Terse_init d_terse_frames nth] in H3.
  change (8 * 0) with 0 in H3. rewrite D1' in H3.
  rewrite L2 in H3. cbn [Nat.ltb Nat.leb] in H3.
  injection H3 as <- <-. split; [reflexivity|].
  cbn [with_frames d_terse_frames]. rewrite nth_set_frame, L2.
  cbn [Nat.eqb Nat.ltb Nat.leb andb].
  unfold terse_size. rewrite D3, Nat.sub_0_r. reflexivity.
Qed.

(** C4, as amended.  At every point of the lifetime of a store, entry 0 of
    the frame offsets is 0, the byte offset of frame 0.  Materialising
    offsets by the lazy scan leaves the packed bytes and the number of
    frames alone, changes unresolved entries only, and never changes what
    the next unpack of any frame writes.  And an offset is the byte offset
    itself: in a store of two frames, unpacking frame 0 sets entry 1 to the
    packed size after the first push, the byte at which the second frame
    was appended. *)
Theorem frame_offsets_lazy :
  (forall t, reachable t -> nth 0 (d_terse_frames t) 0 = 0)
  /\ (forall t k t' off,
        f_find_terse_frame t k = Some (t', off) ->
        d_terse_data t' = d_terse_data t
        /\ number_of_frames t' = number_of_frames t
        /\ (forall i, nth i (d_terse_frames t') 0 = nth i (d_terse_frames t) 0
                      \/ nth i (d_terse_frames t) 0 = 0)
        /\ forall U j, unpacked (prolix U t' j) = unpacked (prolix U t j))
  /\ (forall T T2 U xs ys B t t2 vs t3,
        1 <= B ->
        Forall (has_abs T) xs ->
        within_reserve T (Terse_init T xs B) xs ->
        is_signed_v U = is_signed_v T ->
        Terse_of T xs B = Done t ->
        push_back T2 t ys = Done t2 ->
        bits_per_val t2 <= bits U ->
        prolix U t2 0 = Done (vs, t3) ->
        vs = xs /\ nth 1 (d_terse_frames t3) 0 = terse_size t).
Proof.
  split; [exact reachable_first_offset|]. split.
  - intros t k t' off H.
    destruct (f_find_fields _ _ _ _ H) as (_ & _ & _ & _ & _ & F6 & F7 & _).
    split; [exact F6|]. split; [exact F7|]. split.
    + intros i. destruct (f_find_entries _ _ _ _ H i) as [E|(E & _)]; auto.
    + intros U j. apply (prolix_after_find U k t t' off j H).
  - intros T T2 U xs ys B t t2 vs t3.
    apply second_offset_after_unpack.
Qed.

Lemma frame_offsets_lazy_witness :
  exists t t2 t2' off t3,
    (Terse_of UInt32 S4_first 3 = Done t
     /\ push_back UInt32 t S4_second = Done t2
     /\ reachable t2
     /\ f_find_terse_frame t2 1 = Some (t2', off)
     /\ 1 <= 3
     /\ Forall (has_abs UInt32) S4_first
     /\ within_reserve UInt32 (Terse_init UInt32 S4_first 3) S4_first
     /\ is_signed_v UInt32 = is_signed_v UInt32
     /\ bits_per_val t2 <= bits UInt32
     /\ prolix UInt32 t2 0 = Done (S4_first, t3))
    /\ nth 0 (d_terse_frames t2) 0 = 0
    /\ unpacked (prolix UInt32 t2' 1) = unpacked (prolix UInt32 t2 1)
    /\ nth 1 (d_terse_frames t3) 0 = terse_size t.
Proof.
  exists (mkTerse false 3 3 2 [] [148; 3]%Z [0]).
  exists (mkTerse false 3 3 20 []
            [148; 3; 190; 2; 36; 244; 2; 0; 48; 0; 0; 0]%Z [0; 0]).
  exists (mkTerse false 3 3 20 []
            [148; 3; 190; 2; 36; 244; 2; 0; 48; 0; 0; 0]%Z [0; 2]).
  exists 2.
  exists (mkTerse false 3 3 20 []
            [148; 3; 190; 2; 36; 244; 2; 0; 48; 0; 0; 0]%Z [0; 2]).
  assert (H1 : Terse_of UInt32 S4_first 3
               = Done (mkTerse false 3 3 2 [] [148; 3]%Z [0]))
    by (vm_compute; reflexivity).
  assert (H2 : push_back UInt32 (mkTerse false 3 3 2 [] [148; 3]%Z [0])
                 S4_second
               = Done (mkTerse false 3 3 20 []
                         [148; 3; 190; 2; 36; 244; 2; 0; 48; 0; 0; 0]%Z
                         [0; 0]))
    by (vm_compute; reflexivity).
  assert (H3 : reachable
                 (mkTerse false 3 3 20 []
                    [148; 3; 190; 2; 36; 244; 2; 0; 48; 0; 0; 0]%Z [0; 0]))
    by (eapply reach_push_back; [eapply reach_of; exact H1|exact H2]).
  assert (H4 : f_find_terse_frame
                 (mkTerse false 3 3 20 []
                    [148; 3; 190; 2; 36; 244; 2; 0; 48; 0; 0; 0]%Z [0; 0]) 1
               = Some (mkTerse false 3 3 20 []
                         [148; 3; 190; 2; 36; 244; 2; 0; 48; 0; 0; 0]%Z
                         [0; 2], 2))
    by (vm_compute; reflexivity).
  assert (H5 : 1 <= 3) by lia.
  assert (H6 : Forall (has_abs UInt32) S4_first)
    by (apply all_has_abs; vm_compute; reflexivity).
  assert (H7 : within_reserve UInt32 (Terse_init UInt32 S4_first 3) S4_first)
    by (apply within_reserveb_ok; vm_compute; reflexivity).
  assert (H8 : is_signed_v UInt32 = is_signed_v UInt32) by reflexivity.
  assert (H9 : bits_per_val
                 (mkTerse false 3 3 20 []
                    [148; 3; 190; 2; 36; 244; 2; 0; 48; 0; 0; 0]%Z [0; 0])
               <= bits UInt32) by (vm_compute; lia).
  assert (H10 : prolix UInt32
                  (mkTerse false 3 3 20 []
                     [148; 3; 190; 2; 36; 244; 2; 0; 48; 0; 0; 0]%Z [0; 0]) 0
                = Done (S4_first,
                        mkTerse false 3 3 20 []
                          [148; 3; 190; 2; 36; 244; 2; 0; 48; 0; 0; 0]%Z
                          [0; 2]))
    by (vm_compute; reflexivity).
  destruct frame_offsets_lazy as (P1 & P2 & P3).
  split; [repeat split; assumption|].
  split; [exact (P1 _ H3)|].
  split; [exact (proj2 (proj2 (proj2 (P2 _ _ _ _ H4))) UInt32 1)|].
  exact (proj2 (P3 _ _ _ _ _ _ _ _ _ _ H5 H6 H7 H8 H1 H2 H9 H10)).
Defined.

(** C4 as stated fails: entry 0 of the frame offsets of a store is 0, not
    1; and in the store of the scenario S4, once frame 0 is unpacked,
    entry 1 is 2, the byte offset of the first byte of frame 1 (the first
    push left 2 packed bytes), not 1 plus that offset. *)
Lemma first_offset_is_zero :
  exists t t2 t3,
    Terse_of UInt32 S4_first 3 = Done t
    /\ d_terse_frames t = [0]
    /\ nth 0 (d_terse_frames t) 0 <> 1
    /\ terse_size t = 2
    /\ push_back UInt32 t S4_second = Done t2
    /\ prolix UInt32 t2 0 = Done (S4_first, t3)
    /\ d_terse_frames t3 = [0; 2]
    /\ nth 1 (d_terse_frames t3) 0 <> 1 + terse_size t
    /\ unpacked (prolix UInt32 t3 1) = Done S4_second.
Proof.
  do 3 eexists. split; [vm_compute; reflexivity|].
  split; [reflexivity|]. split; [cbn; discriminate|].
  split; [reflexivity|]. split; [vm_compute; reflexivity|].
  split; [vm_compute; reflexivity|].
  split; [reflexivity|]. split; [cbn; discriminate|].
  vm_compute. reflexivity.
Qed.

(** ** [max_bits] over the blocks of a frame *)

Lemma firstn_block {A} (l : list A) B N from :
  length l = N - from ->
  firstn (Nat.min N (from + B) - from) l = firstn B l.
Proof.
  intros H. destruct (Nat.le_gt_cases (from + B) N).
  - f_equal. lia.
  - rewrite !firstn_all2 by lia. reflexivity.
Qed.

Lemma skipn_block {A} (l : list A) B N from (z : bool) :
  length l = N - from ->
  skipn (if z then B else Nat.min N (from + B) - from) l = skipn B l.
Proof.
  intros H. destruct z; [reflexivity|].
  destruct (Nat.le_gt_cases (from + B) N).
  - f_equal. lia.
  - rewrite !skipn_all2 by lia. reflexivity.
Qed.

(** The block loop raises [max_bits] to the largest width of the blocks of
    the frame. *)
Lemma f_compress_loop_prolix_bits fuel T B N :
  forall from data st st',
  f_compress_loop fuel T B N from data st = Some st' ->
  length data = N - from ->
  e_prolix_bits st'
  = Nat.max (e_prolix_bits st)
      (max_width (map (block_width T) (blocks_of fuel B data))).
Proof.
  induction fuel as [|fuel IH]; intros from data st st' H Hn;
    cbn [f_compress_loop] in H; destruct (Nat.ltb_spec from N);
    try discriminate.
  - injection H as <-. cbn. lia.
  - destruct (f_compress_block T B N from data st) as [st1 data1] eqn:EB.
    pose proof (f_compress_block_frame _ _ _ _ _ _ _ _ _ _ EB
                  eq_refl eq_refl) as (K1 & K2 & K3 & K4 & K5 & K6 & K7).
    rewrite (skipn_block data B N from _ Hn) in K7.
    rewrite (firstn_block data B N from Hn) in K2.
    apply IH in H; [|rewrite K7, length_skipn; lia].
    rewrite H, K2, K7.
    destruct data as [|x data]; [cbn [length] in Hn; lia|].
    cbn [blocks_of map max_width fold_right].
    fold (max_width (map (block_width T)
                       (blocks_of fuel B (skipn B (x :: data))))).
    lia.
  - injection H as <-.
    destruct data as [|x data]; [|cbn [length] in Hn; lia].
    destruct fuel; cbn; lia.
Qed.

(** After a push, [max_bits] is the larger of its value before and of the
    widths of the blocks of the frame; over values whose absolute value the
    encoder computes these are the widths the specification words. *)
Lemma push_back_max_bits T t data t' :
  push_back T t data = Done t' ->
  bits_per_val t'
  = Nat.max (bits_per_val t)
      (max_width (map (block_width T) (blocks (d_block t) data)))
  /\ (Forall (has_abs T) data ->
      map (block_width T) (blocks (d_block t) data)
      = map (width_spec (is_signed_v T)) (blocks (d_block t) data)).
Proof.
  intros H. split.
  - unfold push_back in H.
    assert (G : forall s, d_size s = length data -> d_block s = d_block t ->
                d_prolix_bits s = d_prolix_bits t ->
                f_compress T s data = Done t' ->
                bits_per_val t'
                = Nat.max (bits_per_val t)
                    (max_width (map (block_width T)
                                  (blocks (d_block t) data)))).
    { intros s Hs Hb Hp Hf. unfold f_compress in Hf.
      destruct (f_compress_run T s data) as [st|] eqn:R; [|discriminate].
      injection Hf as <-. unfold bits_per_val. cbn [d_prolix_bits].
      unfold f_compress_run in R.
      apply f_compress_loop_prolix_bits in R; [|lia].
      rewrite R. unfold f_compress_init, blocks. cbn [e_prolix_bits].
      rewrite Hs, Hb, Hp. reflexivity. }
    destruct (number_of_frames t =? 0);
      [eapply G; [| | |exact H]; reflexivity|].
    destruct (negb (size t =? length data)) eqn:E; [discriminate|].
    destruct (negb (Bool.eqb (d_signed t) (is_signed_v T)));
      [discriminate|].
    eapply G; [| | |exact H]; try reflexivity.
    cbn [d_size]. apply negb_false_iff, Nat.eqb_eq in E. exact E.
  - intros Hl. apply map_ext_in. intros block Hin.
    apply block_width_spec.
    apply (blocks_of_Forall _ _ _ _ _ Hl Hin).
Qed.

(** ** Inputs the encoder or the frame index mishandles *)

(** The bytes [f_compress] reserves can be one short: for the thirteen
    16-bit values the encoding takes 231 bits and 28 bytes are reserved;
    the bits past them are lost and the last value is read back as 32. *)
Lemma reserve_can_be_short :
  Forall (has_abs UInt16) short_reserve_frame
  /\ reserve UInt16 13 12 = 28
  /\ within_reserveb UInt16 (Terse_init UInt16 short_reserve_frame 12)
       short_reserve_frame = false
  /\ exists t st,
       Terse_of UInt16 short_reserve_frame 12 = Done t
       /\ f_compress_run UInt16 (Terse_init UInt16 short_reserve_frame 12)
            short_reserve_frame = Some st
       /\ e_bitp st = 231
       /\ unpacked (prolix UInt16 t 0)
          = Done (repeat 0%Z 11 ++ [65535%Z; 32%Z]).
Proof.
  split; [apply all_has_abs; vm_compute; reflexivity|].
  split; [vm_compute; reflexivity|].
  split; [vm_compute; reflexivity|].
  do 2 eexists. split; [vm_compute; reflexivity|].
  split; [vm_compute; reflexivity|].
  split; vm_compute; reflexivity.
Qed.

(** The offsets of later frames: with three frames of four 8-bit values and
    block size 3, the lazy scan for frame 1 advances three fields for the
    one value of the short last block and frame 1 is read at a wrong
    byte; after an unpack of frame 0 it is read back; and the entry an
    unpack of frame 1 stores for frame 2 is the length of frame 1, not the
    byte at which frame 2 begins. *)
Lemma later_offsets_are_off :
  exists t0 t1 t2 t3 t4,
    Terse_of UInt8 [255; 255; 255; 255]%Z 3 = Done t0
    /\ push_back UInt8 t0 [1; 2; 3; 4]%Z = Done t1
    /\ push_back UInt8 t1 [9; 8; 7; 6]%Z = Done t2
    /\ terse_size t0 = 5 /\ terse_size t1 = 8
    /\ offset_of t2 1 = Some 7
    /\ unpacked (prolix UInt8 t2 1) = Done [0; 0; 0; 0]%Z
    /\ prolix UInt8 t2 0 = Done ([255; 255; 255; 255]%Z, t3)
    /\ prolix UInt8 t3 1 = Done ([1; 2; 3; 4]%Z, t4)
    /\ d_terse_frames t4 = [0; 5; 3]
    /\ unpacked (prolix UInt8 t4 2) = Done [0; 0; 0; 0]%Z.
Proof.
  do 5 eexists. split; [vm_compute; reflexivity|].
  split; [vm_compute; reflexivity|].
  split; [vm_compute; reflexivity|].
  split; [reflexivity|]. split; [reflexivity|].
  split; [vm_compute; reflexivity|].
  split; [vm_compute; reflexivity|].
  split; [vm_compute; reflexivity|].
  split; [vm_compute; reflexivity|].
  split; [reflexivity|]. vm_compute. reflexivity.
Qed.

(** Materialising offsets early can change a later unpack that is not the
    next one: with three frames of four 8-bit values and block size 3,
    unpacking frame 0 and then frame 2 writes one sequence; looking up the
    offset of frame 2 first, then unpacking frame 0 and frame 2, writes
    another (the entry of frame 2 was scanned from an entry of frame 1 that
    the unpack of frame 0 has replaced since). *)
Lemma materialising_changes_a_later_unpack :
  exists t0 t1 t2 ta tb tc off,
    Terse_of UInt8 [3; 3; 200; 7]%Z 3 = Done t0
    /\ push_back UInt8 t0 [0; 100; 255; 1]%Z = Done t1
    /\ push_back UInt8 t1 [2; 7; 1; 15]%Z = Done t2
    /\ prolix UInt8 t2 0 = Done ([3; 3; 200; 7]%Z, ta)
    /\ unpacked (prolix UInt8 ta 2) = Done [0; 100; 255; 1]%Z
    /\ f_find_terse_frame t2 2 = Some (tb, off)
    /\ prolix UInt8 tb 0 = Done ([3; 3; 200; 7]%Z, tc)
    /\ unpacked (prolix UInt8 tc 2) = Done [0; 0; 0; 0]%Z.
Proof.
  do 7 eexists. split; [vm_compute; reflexivity|].
  split; [vm_compute; reflexivity|].
  split; [vm_compute; reflexivity|].
  split; [vm_compute; reflexivity|].
  split; [vm_compute; reflexivity|].
  split; [vm_compute; reflexivity|].
  split; vm_compute; reflexivity.
Qed.

(** The width of a signed value is taken from its low 32 bits: the
    unqualified [abs] of line 555 is the [int abs(int)] of the C library.
    The 64-bit value [2 ^ 32] gets the width 1 and reads back as 0, and
    [2 ^ 31] gets the width 65. *)
Lemma wide_values_are_cut :
  f_highest_set_bit Int64 (2 ^ 32) = 1
  /\ f_highest_set_bit Int64 (2 ^ 31) = 65
  /\ exists t,
       Terse_of Int64 [(2 ^ 32)%Z] 1 = Done t
       /\ bits_per_val t = 1
       /\ unpacked (prolix Int64 t 0) = Done [0%Z].
Proof.
  split; [vm_compute; reflexivity|]. split; [vm_compute; reflexivity|].
  destruct (Terse_of Int64 [(2 ^ 32)%Z] 1) as [t| |] eqn:E;
    try (vm_compute in E; discriminate).
  exists t. split; [reflexivity|].
  vm_compute in E. injection E as <-.
  split; vm_compute; reflexivity.
Qed.

(** ** Frames of full blocks fit the reserved bytes *)

Lemma block_width_le_bits T block :
  Forall (has_abs T) block -> block_width T block <= bits T.
Proof.
  intros H. unfold block_width.
  destruct (f_setbits_spec T block H) as [_ B].
  rewrite f_highest_set_bit_spec;
    [|assumption|apply f_setbits_int; exact H].
  destruct (f_setbits T block =? 0)%Z; [lia|].
  rewrite max_value_pow in B. pose proof (bits_bounds T).
  destruct (is_signed_v T).
  - assert (bits_needed (f_setbits T block) <= bits T - 1)
      by (apply bits_needed_bound; lia).
    lia.
  - assert (bits_needed (f_setbits T block) <= bits T)
      by (apply bits_needed_bound; lia).
    lia.
Qed.

Lemma header_bits_le_12 prev w : length (header_bits prev w) <= 12.
Proof.
  rewrite header_bits_length.
  destruct (prev =? w); [lia|].
  destruct (w <? 7); [lia|]. destruct (w <? 10); lia.
Qed.

(** A frame takes at most 12 header bits for each block and the width of
    the element type for each value. *)
Lemma f_compress_loop_cursor fuel T B N :
  1 <= B ->
  forall from data st st',
  f_compress_loop fuel T B N from data st = Some st' ->
  length data = N - from ->
  Forall (has_abs T) data ->
  e_bitp st'
  <= e_bitp st + 12 * block_count (N - from) B + bits T * (N - from).
Proof.
  intros HB. induction fuel as [|fuel IH]; intros from data st st' H Hn Hl;
    cbn [f_compress_loop] in H; destruct (Nat.ltb_spec from N);
    try discriminate; try (injection H as <-; lia).
  destruct (f_compress_block T B N from data st) as [st1 data1] eqn:EB.
  pose proof (f_compress_block_frame _ _ _ _ _ _ _ _ _ _ EB
                eq_refl eq_refl) as (K1 & K2 & K3 & K4 & K5 & K6 & K7).
  rewrite (skipn_block data B N from _ Hn) in K7.
  apply IH in H;
    [|rewrite K7, length_skipn; lia|rewrite K7; apply Forall_skipn; exact Hl].
  pose proof (header_bits_le_12 (e_prevbits st)
                (block_width T
                   (firstn (Nat.min N (from + B) - from) data))) as HH.
  pose proof (block_width_le_bits T
                (firstn (Nat.min N (from + B) - from) data)
                (Forall_firstn _ _ _ Hl)) as HW.
  assert (HL : length (firstn (Nat.min N (from + B) - from) data)
               = Nat.min N (from + B) - from)
    by (apply firstn_length_le; lia).
  rewrite HL in K4.
  rewrite (block_count_step (N - from) B) by lia.
  replace (N - from - B) with (N - (from + B)) by lia.
  assert (block_width T (firstn (Nat.min N (from + B) - from) data)
          * (Nat.min N (from + B) - from)
          <= bits T * (Nat.min N (from + B) - from))
    by (apply Nat.mul_le_mono_r; exact HW).
  assert (bits T * (Nat.min N (from + B) - from)
          + bits T * (N - (from + B)) = bits T * (N - from)) by nia.
  lia.
Qed.

(** When the frame length is a multiple of the block size, and over values
    whose absolute value the encoder computes, the encoder stays within the
    bytes it reserved. *)
Lemma within_reserve_full_blocks T t data k :
  1 <= d_block t ->
  d_size t = length data ->
  length data = k * d_block t ->
  Forall (has_abs T) data ->
  within_reserve T t data.
Proof.
  intros HB Hs Hk Hl st R. unfold f_compress_run in R.
  pose proof (f_compress_loop_frame _ _ _ _ _ _ _ _ R) as (L1 & _).
  apply (f_compress_loop_cursor _ T _ _ HB) in R; [|lia|exact Hl].
  rewrite L1. unfold f_compress_init in *. cbn [e_bitp e_data] in *.
  rewrite length_resize, Nat.sub_0_r in *.
  set (B := d_block t) in *. rewrite Hs, Hk in *.
  assert (C : block_count (k * B) B = k).
  { unfold block_count. symmetry.
    apply (Nat.div_unique _ _ _ (B - 1)); lia. }
  rewrite C in R. unfold reserve, bits in *.
  assert (D : 12 * k
              <= 8 * ((12 * (k * B) + (8 * B - 1)) / (8 * B))).
  { assert (E : 12 * (k * B) + (8 * B - 1)
                < 8 * B * S ((12 * (k * B) + (8 * B - 1)) / (8 * B))).
    { apply Nat.mul_succ_div_gt. lia. }
    nia. }
  nia.
Qed.

(** ** The header of every block of an encoded frame *)

Lemma loop_reaches_run T B N fuel from data st fuel' from' data' st' :
  loop_reaches T B N fuel from data st fuel' from' data' st' ->
  f_compress_loop fuel T B N from data st
  = f_compress_loop fuel' T B N from' data' st'.
Proof.
  induction 1 as [|fuel from data st st1 data1 fuel' from' data' st'
                   Hf EB R IH]; [reflexivity|].
  cbn [f_compress_loop].
  replace (from <? N) with true by (symmetry; apply Nat.ltb_lt; exact Hf).
  rewrite EB. exact IH.
Qed.

Lemma loop_reaches_frame T B N fuel from data st fuel' from' data' st' :
  loop_reaches T B N fuel from data st fuel' from' data' st' ->
  length (e_data st') = length (e_data st)
  /\ e_bitp st <= e_bitp st'
  /\ (zero_from (e_data st) (e_bitp st) ->
      zero_from (e_data st') (e_bitp st')).
Proof.
  induction 1 as [|fuel from data st st1 data1 fuel' from' data' st'
                   Hf EB R IH]; [auto|].
  pose proof (f_compress_block_frame _ _ _ _ _ _ _ _ _ _ EB
                eq_refl eq_refl) as (K1 & K2 & K3 & K4 & K5 & K6 & K7).
  destruct IH as (I1 & I2 & I3).
  repeat split; [congruence|lia|auto].
Qed.

(** X18.  The header grammar within the reserved bytes.  For every frame
    [f_compress] encodes within the bytes it reserved and every block of it
    (every state [st] in which the block loop begins an iteration, with
    [rest] the values not yet encoded), of a width [w <= 73]: the bits of
    the packed buffer at the cursor of the block are those of the grammar
    for the previous width [w_prev] and [w], namely the single bit 1 when
    [w = w_prev], else 0 followed by the 3-bit field holding [w] when
    [w <= 6], by three ones and the 2-bit field holding [w - 7] when
    [7 <= w <= 9], by five ones and the 6-bit field holding [w - 10] when
    [10 <= w <= 73], least significant bit first; the header parse of the
    decoder on the packed buffer returns [w] and the cursor after the
    header; the previous width becomes [w]; and [w_prev] is 0 for the first
    block of the frame. *)
Theorem header_grammar (T : int_type) (t t' : Terse) (data : list Z)
    (st_end st : enc_state) (fuel from : nat) (rest : list Z) :
  let B := d_block t in
  let N := d_size t in
  let w := block_width T (firstn (Nat.min N (from + B) - from) rest) in
  let w_prev := e_prevbits st in
  f_compress T t data = Done t' ->
  f_compress_run T t data = Some st_end ->
  e_bitp st_end <= 8 * length (e_data st_end) ->
  loop_reaches T B N N 0 data (f_compress_init T t) fuel from rest st ->
  from < N ->
  w <= 73 ->
  bits_at (d_terse_data t') (e_bitp st) (length (header_bits w_prev w))
  = header_bits w_prev w
  /\ header_bits w_prev w
     = (if w =? w_prev then [true]
        else if w <=? 6 then false :: lsb_bits 3 (Z.of_nat w)
        else if w <=? 9 then
          false :: [true; true; true] ++ lsb_bits 2 (Z.of_nat (w - 7))
        else false :: [true; true; true; true; true]
                   ++ lsb_bits 6 (Z.of_nat (w - 10)))
  /\ parse_header (d_terse_data t') (e_bitp st) w_prev
     = (w, e_bitp st + length (header_bits w_prev w))
  /\ e_prevbits (fst (f_compress_block T B N from rest st)) = w
  /\ e_prevbits (f_compress_init T t) = 0.
Proof.
  intros B N w w_prev Ht Hr Hc Hv Hf Hw.
  pose proof (loop_reaches_run _ _ _ _ _ _ _ _ _ _ _ Hv) as R.
  pose proof (loop_reaches_frame _ _ _ _ _ _ _ _ _ _ _ Hv) as (V1 & V2 & V3).
  unfold f_compress_run in Hr. fold B N in Hr. rewrite R in Hr.
  specialize (V3 (zero_from_resize _ _)).
  destruct fuel as [|fuel]; cbn [f_compress_loop] in Hr;
    replace (from <? N) with true in Hr
      by (symmetry; apply Nat.ltb_lt; exact Hf);
    [discriminate|].
  destruct (f_compress_block T B N from rest st) as [st1 data1] eqn:EB.
  pose proof (f_compress_loop_frame _ _ _ _ _ _ _ _ Hr)
    as (L1 & L2 & L3 & _).
  pose proof (f_compress_block_frame _ _ _ _ _ _ _ _ _ _ EB
                eq_refl eq_refl) as (K1 & K2 & K3 & K4 & K5 & K6 & K7).
  fold w in K1, K4. fold w_prev in K4.
  assert (Hc1 : e_bitp (fst (f_compress_block T B N from rest st))
                <= 8 * length (e_data st))
    by (rewrite EB; cbn [fst]; lia).
  pose proof (header_grammar_block T B N from rest st Hw V3 Hc1)
    as (G1 & G2 & G3).
  rewrite EB in G1, G2, G3. cbn [fst] in G1, G2, G3.
  fold w w_prev in G1, G3.
  assert (Ha : agree (e_data st1) (d_terse_data t') (e_bitp st)
                 (e_bitp st + length (header_bits w_prev w))).
  { unfold f_compress, f_compress_run in Ht. fold B N in Ht.
    rewrite R in Ht. cbn [f_compress_loop] in Ht.
    replace (from <? N) with true in Ht
      by (symmetry; apply Nat.ltb_lt; exact Hf).
    rewrite EB, Hr in Ht.
    set (n := 1 + e_bitp st_end / 8) in Ht.
    assert (Hn : n = 1 + e_bitp st_end / 8) by reflexivity. clearbody n.
    injection Ht as <-. cbn [d_terse_data].
    intros q Hq.
    rewrite (agree_resize (e_data st_end) n (e_bitp st_end)) by lia.
    apply L3. lia. }
  split; [|split; [reflexivity|split; [|split; [exact G2|reflexivity]]]].
  - etransitivity; [|exact G1]. apply bits_at_ext. exact Ha.
  - apply G3. exact Ha.
Qed.

Lemma header_grammar_witness :
  exists t' st_end,
    (f_compress UInt16 (Terse_init UInt16 S3_frame 12) S3_frame = Done t'
     /\ f_compress_run UInt16 (Terse_init UInt16 S3_frame 12) S3_frame
        = Some st_end
     /\ e_bitp st_end <= 8 * length (e_data st_end)
     /\ loop_reaches UInt16 12 12 12 0 S3_frame
          (f_compress_init UInt16 (Terse_init UInt16 S3_frame 12))
          12 0 S3_frame
          (f_compress_init UInt16 (Terse_init UInt16 S3_frame 12))
     /\ 0 < 12
     /\ block_width UInt16 (firstn (Nat.min 12 (0 + 12) - 0) S3_frame) <= 73)
    /\ bits_at (d_terse_data t') 0 12
       = [false; true; true; true; true; true;
          false; true; true; false; false; false]
    /\ parse_header (d_terse_data t') 0 0 = (16, 12).
Proof.
  destruct (f_compress UInt16 (Terse_init UInt16 S3_frame 12) S3_frame)
    as [t'| |] eqn:E1; try (vm_compute in E1; discriminate).
  destruct (f_compress_run UInt16 (Terse_init UInt16 S3_frame 12) S3_frame)
    as [st_end|] eqn:E2; try (vm_compute in E2; discriminate).
  exists t', st_end.
  assert (H3 : e_bitp st_end <= 8 * length (e_data st_end)).
  { vm_compute in E2. injection E2 as <-. vm_compute. lia. }
  assert (H4 : loop_reaches UInt16 12 12 12 0 S3_frame
                 (f_compress_init UInt16 (Terse_init UInt16 S3_frame 12))
                 12 0 S3_frame
                 (f_compress_init UInt16 (Terse_init UInt16 S3_frame 12)))
    by apply loop_here.
  assert (H5 : 0 < 12) by lia.
  assert (H6 : block_width UInt16
                 (firstn (Nat.min 12 (0 + 12) - 0) S3_frame) <= 73)
    by (vm_compute; lia).
  pose proof (header_grammar UInt16 (Terse_init UInt16 S3_frame 12) t'
                S3_frame st_end
                (f_compress_init UInt16 (Terse_init UInt16 S3_frame 12))
                12 0 S3_frame E1 E2 H3 H4 H5 H6) as (G1 & _ & G3 & _).
  split; [repeat split; assumption|].
  split; [exact G1|exact G3].
Defined.

(** The first [k] iterations of the block loop, as states the loop
    reaches. *)
Lemma after_blocks_reaches T B N k :
  forall fuel from data st,
  from + k * B < N + B ->
  loop_reaches T B N (k + fuel) from data st
    fuel (fst (fst (after_blocks k T B N from data st)))
    (snd (fst (after_blocks k T B N from data st)))
    (snd (after_blocks k T B N from data st)).
Proof.
  induction k as [|k IH]; intros fuel from data st H; cbn [after_blocks].
  - apply loop_here.
  - destruct (f_compress_block T B N from data st) as [st1 data1] eqn:EB.
    apply (loop_step T B N (k + fuel) from data st st1 data1);
      [cbn in H; lia|exact EB|].
    apply IH. cbn in H. lia.
Qed.

(** C2 fails where the encoder runs past the bytes it reserved.  The 17
    blocks of [minima_frame] have width 9, the 8 bits of 128 and the sign
    bit; line 504 reserves 8 bits a value and 12 a block, 434 bytes.  The
    loop begins its last iteration at bit 3477, past the 3472 bits of the
    vector, with the previous width 9: the grammar gives this block the
    single bit 1.  The packed buffer, which line 548 grows with zero bytes
    from byte 434 on, holds 0 there; the header parse of the decoder
    returns the width 0, not 9; and an unpack reads the last 25 values
    as 0. *)
Theorem header_lost_past_reserve :
  exists t' rest st,
    Terse_of Int8 minima_frame 24 = Done t'
    /\ loop_reaches Int8 24 408 408 0 minima_frame
         (f_compress_init Int8 (Terse_init Int8 minima_frame 24))
         392 384 rest st
    /\ block_width Int8 (firstn (Nat.min 408 (384 + 24) - 384) rest) = 9
    /\ e_prevbits st = 9
    /\ e_bitp st = 3477
    /\ 8 * length (e_data st) = 3472
    /\ header_bits 9 9 = [true]
    /\ bits_at (d_terse_data t') 3477 1 = [false]
    /\ parse_header (d_terse_data t') 3477 9 = (0, 3481)
    /\ unpacked (prolix Int16 t' 0)
       = Done (repeat (-128)%Z 383 ++ repeat 0%Z 25).
Proof.
  pose proof (after_blocks_reaches Int8 24 408 16 392 0 minima_frame
                (f_compress_init Int8 (Terse_init Int8 minima_frame 24))
                ltac:(lia)) as R.
  change (16 + 392) with 408 in R.
  replace (fst (fst (after_blocks 16 Int8 24 408 0 minima_frame
                       (f_compress_init Int8
                          (Terse_init Int8 minima_frame 24)))))
    with 384 in R by (vm_compute; reflexivity).
  destruct (Terse_of Int8 minima_frame 24) as [t'| |] eqn:E;
    try (vm_compute in E; discriminate).
  exists t'. eexists. eexists.
  split; [reflexivity|]. split; [exact R|].
  vm_compute in E. injection E as <-.
  repeat split; vm_compute; reflexivity.
Qed.

(** ** What an unpack writes and what it leaves alone *)

Lemma get_range_length U d w cnt :
  forall p, length (fst (get_range U d p w cnt)) = cnt.
Proof.
  induction cnt as [|cnt IH]; intros p; cbn [get_range]; [reflexivity|].
  specialize (IH (p + w)).
  destruct (get_range U d (p + w) w cnt) as [vs q]. cbn in *. lia.
Qed.

Lemma prolix_loop_length fuel U B N d :
  forall from bitp sb vs c,
  prolix_loop fuel U B N from d bitp sb = Some (vs, c) ->
  length vs = N - from.
Proof.
  induction fuel as [|fuel IH]; intros from bitp sb vs c H;
    cbn [prolix_loop] in H.
  - destruct (from <? N) eqn:E; [discriminate|].
    injection H as <- <-. apply Nat.ltb_ge in E. cbn. lia.
  - destruct (from <? N) eqn:E.
    + destruct (parse_header d bitp sb) as [w h].
      destruct (if w =? 0
                then (repeat 0%Z (Nat.min N (from + B) - from), h)
                else get_range U d h w (Nat.min N (from + B) - from))
        as [vs0 q] eqn:V.
      destruct (prolix_loop fuel U B N (from + B) d q w)
        as [[rest q']|] eqn:R; [|discriminate].
      injection H as <- <-. apply IH in R. rewrite length_app, R.
      assert (L : length vs0 = Nat.min N (from + B) - from).
      { destruct (w =? 0).
        - injection V as <- _. apply repeat_length.
        - pose proof (get_range_length U d w
                        (Nat.min N (from + B) - from) h) as G.
          rewrite V in G. exact G. }
      apply Nat.ltb_lt in E. lia.
    + injection H as <- <-. apply Nat.ltb_ge in E. cbn. lia.
Qed.

(** An unpack that returns has written [size()] elements. *)
Lemma prolix_length U t frame vs t' :
  prolix U t frame = Done (vs, t') -> length vs = size t.
Proof.
  intros H. unfold prolix in H.
  destruct (negb (frame <? number_of_frames t)); [discriminate|].
  destruct (f_find_terse_frame t frame) as [[t1 b]|] eqn:F; [|discriminate].
  destruct (d_signed t1 && negb (is_signed_v U)); [discriminate|].
  destruct (prolix_loop (d_size t1) U (d_block t1) (d_size t1) 0
              (d_terse_data t1) (8 * b) 0) as [[vs1 c]|] eqn:P;
    [|discriminate].
  injection H as <- _. apply prolix_loop_length in P.
  destruct (f_find_fields _ _ _ _ F) as (_ & _ & Hn & _).
  unfold size. lia.
Qed.

(** With a block size of at least 1, an unpack of a frame the store has,
    into an output its signedness allows, returns. *)
Lemma prolix_returns U t frame :
  1 <= d_block t ->
  frame < number_of_frames t ->
  d_signed t && negb (is_signed_v U) = false ->
  exists vs t', prolix U t frame = Done (vs, t').
Proof.
  intros HB E Sg. unfold prolix.
  replace (frame <? number_of_frames t) with true
    by (symmetry; apply Nat.ltb_lt; exact E).
  cbn [negb].
  destruct (f_find_returns frame t (or_introl HB)) as [[t1 b] F].
  rewrite F. destruct (f_find_fields _ _ _ _ F)
    as (Hs & Hb & Hn & _ & _ & _ & _ & _).
  rewrite Hs, Hb, Hn, Sg.
  destruct (prolix_loop_terminates (d_size t) U (d_block t) (d_size t)
              (d_terse_data t1) 0 (8 * b) 0 HB) as [[vs c] P]; [nia|].
  rewrite P. eauto.
Qed.

(** X1.  A call of [Terse::prolix(Iterator, frame)] that returns has
    written exactly [size()] elements, the short last block included, and
    has passed both assertions: the frame index is below the number of
    frames, and the stored data are unsigned or the output type is
    signed. *)
Theorem prolix_writes_size (U : int_type) (t t' : Terse) (frame : nat)
    (vs : list Z) :
  prolix U t frame = Done (vs, t') ->
  length vs = size t
  /\ frame < number_of_frames t
  /\ (d_signed t = false \/ is_signed_v U = true).
Proof.
  intros H. split; [exact (prolix_length _ _ _ _ _ H)|].
  unfold prolix in H.
  destruct (frame <? number_of_frames t) eqn:E; [|discriminate].
  cbn [negb] in H. apply Nat.ltb_lt in E. split; [exact E|].
  destruct (f_find_terse_frame t frame) as [[t1 b]|] eqn:F; [|discriminate].
  destruct (f_find_fields _ _ _ _ F) as (Hs & _).
  rewrite Hs in H.
  destruct (d_signed t), (is_signed_v U); cbn [andb negb] in H;
    try discriminate; auto.
Qed.

(** The stores of S4 are those the constructor and the push build. *)
Lemma S4_one_built : Terse_of UInt32 S4_first 3 = Done S4_one.
Proof. vm_compute. reflexivity. Qed.

Lemma S4_two_built : push_back UInt32 S4_one S4_second = Done S4_two.
Proof. vm_compute. reflexivity. Qed.

(** The second frame of the store of S4, of 3 values. *)
Lemma prolix_writes_size_witness :
  exists t',
    prolix UInt32 S4_two 1 = Done (S4_second, t')
    /\ length S4_second = size S4_two
    /\ 1 < number_of_frames S4_two.
Proof.
  destruct (prolix UInt32 S4_two 1) as [[vs t']| |] eqn:E;
    try (vm_compute in E; discriminate).
  assert (V : vs = S4_second)
    by (vm_compute in E; injection E as <- _; reflexivity).
  subst vs. exists t'.
  destruct (prolix_writes_size UInt32 S4_two t' 1 S4_second E) as (L & N & _).
  split; [reflexivity|]. split; [exact L|exact N].
Defined.

(** The offset look-up for frame [k] leaves the entries after [k] alone. *)
Lemma f_find_above k :
  forall t t' o i,
  f_find_terse_frame t k = Some (t', o) -> k < i ->
  nth i (d_terse_frames t') 0 = nth i (d_terse_frames t) 0.
Proof.
  induction k as [|k IH]; intros t t' o i H Hi; cbn [f_find_terse_frame] in H.
  - injection H as <- _. reflexivity.
  - destruct (nth (S k) (d_terse_frames t) 0 =? 0).
    + destruct (f_find_terse_frame t k) as [[t1 b]|] eqn:F; [|discriminate].
      destruct (scan_loop (d_size t1) (d_block t1) (d_size t1) 0
                  (d_terse_data t1) (8 * b) 0) as [bitp|]; [|discriminate].
      injection H as <- _. cbn [with_frames d_terse_frames].
      rewrite nth_set_frame.
      replace (i =? S k) with false by (symmetry; apply Nat.eqb_neq; lia).
      cbn [andb]. apply (IH _ _ _ _ F). lia.
    + injection H as <- _. reflexivity.
Qed.

(** What a returning unpack went through. *)
Lemma prolix_inv U t frame vs t' :
  prolix U t frame = Done (vs, t') ->
  exists t1 b c,
    frame < number_of_frames t
    /\ f_find_terse_frame t frame = Some (t1, b)
    /\ d_signed t1 && negb (is_signed_v U) = false
    /\ prolix_loop (d_size t1) U (d_block t1) (d_size t1) 0
         (d_terse_data t1) (8 * b) 0 = Some (vs, c).
Proof.
  intros H. unfold prolix in H.
  destruct (frame <? number_of_frames t) eqn:E; [|discriminate].
  cbn [negb] in H. apply Nat.ltb_lt in E.
  destruct (f_find_terse_frame t frame) as [[t1 b]|] eqn:F; [|discriminate].
  destruct (d_signed t1 && negb (is_signed_v U)) eqn:Sg; [discriminate|].
  destruct (prolix_loop (d_size t1) U (d_block t1) (d_size t1) 0
              (d_terse_data t1) (8 * b) 0) as [[vs1 c]|] eqn:P;
    [|discriminate].
  injection H as <- _. exists t1, b, c. auto.
Qed.

(** An unpack changes no member but the frame offsets, and of these none
    but entry [frame + 1] beyond what the offset look-up changed. *)
Lemma prolix_fields U t frame vs t' :
  prolix U t frame = Done (vs, t') ->
  d_signed t' = d_signed t /\ d_block t' = d_block t
  /\ d_size t' = d_size t /\ d_prolix_bits t' = d_prolix_bits t
  /\ d_dim t' = d_dim t /\ d_terse_data t' = d_terse_data t
  /\ length (d_terse_frames t') = length (d_terse_frames t)
  /\ exists t1 b,
       f_find_terse_frame t frame = Some (t1, b)
       /\ forall i, i <> S frame ->
            nth i (d_terse_frames t') 0 = nth i (d_terse_frames t1) 0.
Proof.
  intros H. unfold prolix in H.
  destruct (negb (frame <? number_of_frames t)); [discriminate|].
  destruct (f_find_terse_frame t frame) as [[t1 b]|] eqn:F; [|discriminate].
  destruct (d_signed t1 && negb (is_signed_v U)); [discriminate|].
  destruct (prolix_loop (d_size t1) U (d_block t1) (d_size t1) 0
              (d_terse_data t1) (8 * b) 0) as [[vs1 c]|]; [|discriminate].
  injection H as _ <-.
  destruct (f_find_fields _ _ _ _ F) as (A1 & A2 & A3 & A4 & A5 & A6 & A7 & A8).
  match goal with |- d_signed ?x = _ /\ _ => set (t2 := x) end.
  assert (E : forall i, i <> S frame ->
                nth i (d_terse_frames t2) 0 = nth i (d_terse_frames t1) 0).
  { intros i Hi. subst t2.
    destruct (S frame <? length (d_terse_frames t1)); [|reflexivity].
    cbn [with_frames d_terse_frames]. rewrite nth_set_frame.
    replace (i =? S frame) with false by (symmetry; apply Nat.eqb_neq; lia).
    reflexivity. }
  assert (Q : d_signed t2 = d_signed t1 /\ d_block t2 = d_block t1
              /\ d_size t2 = d_size t1
              /\ d_prolix_bits t2 = d_prolix_bits t1
              /\ d_dim t2 = d_dim t1 /\ d_terse_data t2 = d_terse_data t1
              /\ length (d_terse_frames t2) = length (d_terse_frames t1)).
  { subst t2. destruct (S frame <? length (d_terse_frames t1));
      cbn [with_frames d_signed d_block d_size d_prolix_bits d_dim
           d_terse_data d_terse_frames];
      rewrite ?length_set_frame; repeat split; reflexivity. }
  clearbody t2. destruct Q as (Q1 & Q2 & Q3 & Q4 & Q5 & Q6 & Q7).
  repeat split; try congruence.
  exists t1, b. split; [reflexivity|exact E].
Qed.

(** X2.  [Terse::prolix] changes nothing of the store but the memoised frame
    offsets: signedness, block size, frame length, [max_bits], dimensions,
    packed bytes and number of frames are the same after the call; entry 0
    of the offsets is the same; the entries past [frame + 1] are the same;
    and an entry up to [frame] that was resolved (not 0) is the same. *)
Theorem prolix_changes_offsets_only (U : int_type) (t t' : Terse)
    (frame : nat) (vs : list Z) :
  prolix U t frame = Done (vs, t') ->
  d_signed t' = d_signed t /\ d_block t' = d_block t
  /\ d_size t' = d_size t /\ d_prolix_bits t' = d_prolix_bits t
  /\ d_dim t' = d_dim t /\ d_terse_data t' = d_terse_data t
  /\ number_of_frames t' = number_of_frames t
  /\ nth 0 (d_terse_frames t') 0 = nth 0 (d_terse_frames t) 0
  /\ (forall i, frame + 1 < i ->
        nth i (d_terse_frames t') 0 = nth i (d_terse_frames t) 0)
  /\ (forall i, i <= frame ->
        nth i (d_terse_frames t) 0 <> 0 ->
        nth i (d_terse_frames t') 0 = nth i (d_terse_frames t) 0).
Proof.
  intros H.
  destruct (prolix_fields _ _ _ _ _ H)
    as (Q1 & Q2 & Q3 & Q4 & Q5 & Q6 & Q7 & t1 & b & F & E).
  destruct (f_find_fields _ _ _ _ F) as (_ & _ & _ & _ & _ & _ & _ & A8).
  unfold number_of_frames. repeat split; try assumption.
  - rewrite (E 0) by lia. exact A8.
  - intros i Hi. rewrite (E i) by lia.
    apply (f_find_above _ _ _ _ _ F). lia.
  - intros i Hi Hz. rewrite (E i) by lia.
    destruct (f_find_entries _ _ _ _ F i) as [G|[G _]];
      [exact G|contradiction].
Qed.

(** Unpacking frame 0 of the store of S4 sets entry 1 and nothing else. *)
Lemma prolix_changes_offsets_only_witness :
  prolix UInt32 S4_two 0 = Done (S4_first, with_frames S4_two [0; 2])
  /\ d_terse_data (with_frames S4_two [0; 2]) = d_terse_data S4_two
  /\ number_of_frames (with_frames S4_two [0; 2]) = number_of_frames S4_two.
Proof.
  assert (H : prolix UInt32 S4_two 0
              = Done (S4_first, with_frames S4_two [0; 2]))
    by (vm_compute; reflexivity).
  destruct (prolix_changes_offsets_only _ _ _ _ _ H)
    as (_ & _ & _ & _ & _ & D & N & _).
  split; [exact H|]. split; [exact D|exact N].
Defined.

(** The offset the look-up returns for a frame the store has is the entry it
    leaves for it, and is not 0 but for frame 0. *)
Lemma f_find_result k :
  forall t t1 b,
  f_find_terse_frame t k = Some (t1, b) ->
  k < length (d_terse_frames t) ->
  nth k (d_terse_frames t1) 0 = b /\ (k = 0 \/ b <> 0).
Proof.
  destruct k as [|k]; intros t t1 b H Hk; cbn [f_find_terse_frame] in H.
  - injection H as <- <-. auto.
  - destruct (nth (S k) (d_terse_frames t) 0 =? 0) eqn:E.
    + destruct (f_find_terse_frame t k) as [[t0 b0]|] eqn:F; [|discriminate].
      destruct (scan_loop (d_size t0) (d_block t0) (d_size t0) 0
                  (d_terse_data t0) (8 * b0) 0) as [bitp|]; [|discriminate].
      injection H as <- <-. cbn [with_frames d_terse_frames].
      destruct (f_find_fields _ _ _ _ F) as (_ & _ & _ & _ & _ & _ & L & _).
      rewrite nth_set_frame, Nat.eqb_refl.
      replace (S k <? length (d_terse_frames t0)) with true
        by (symmetry; apply Nat.ltb_lt; lia).
      cbn [andb]. split; [reflexivity|right; lia].
    + injection H as <- <-. apply Nat.eqb_neq in E. auto.
Qed.

(** X3.  Unpacking the same frame again, from the store the first unpack
    left, writes the same values. *)
Theorem prolix_repeatable (U : int_type) (t t' : Terse) (frame : nat)
    (vs : list Z) :
  prolix U t frame = Done (vs, t') ->
  unpacked (prolix U t' frame) = Done vs.
Proof.
  intros H.
  destruct (prolix_inv _ _ _ _ _ H) as (t1 & b & c & Hf & F & Sg & P).
  destruct (prolix_fields _ _ _ _ _ H)
    as (Q1 & Q2 & Q3 & Q4 & Q5 & Q6 & Q7 & t1' & b' & F' & E).
  rewrite F in F'. injection F' as <- <-.
  destruct (f_find_fields _ _ _ _ F) as (A1 & A2 & A3 & A4 & A5 & A6 & A7 & A8).
  destruct (f_find_result _ _ _ _ F Hf) as [R1 R2].
  assert (F2 : f_find_terse_frame t' frame = Some (t', b)).
  { destruct frame as [|k]; cbn [f_find_terse_frame].
    - rewrite (E 0) by lia. rewrite R1. reflexivity.
    - rewrite (E (S k)) by lia. rewrite R1.
      replace (b =? 0) with false by (symmetry; apply Nat.eqb_neq; lia).
      reflexivity. }
  unfold prolix, number_of_frames. rewrite Q7.
  replace (frame <? length (d_terse_frames t)) with true
    by (symmetry; apply Nat.ltb_lt; exact Hf).
  cbn [negb]. rewrite F2.
  rewrite Q1, Q2, Q3, Q6, <- A1, <- A2, <- A3, <- A6, Sg, P. reflexivity.
Qed.

(** The second frame of the store of S4, unpacked twice. *)
Lemma prolix_repeatable_witness :
  prolix UInt32 S4_two 1 = Done (S4_second, with_frames S4_two [0; 2])
  /\ unpacked (prolix UInt32 (with_frames S4_two [0; 2]) 1) = Done S4_second.
Proof.
  assert (H : prolix UInt32 S4_two 1
              = Done (S4_second, with_frames S4_two [0; 2]))
    by (vm_compute; reflexivity).
  split; [exact H|]. exact (prolix_repeatable _ _ _ _ _ H).
Defined.

(** ** What a push checks and what it appends *)



Lemma firstn_upd (d : buffer) :
  forall k i b, k <= i -> firstn k (upd d i b) = firstn k d.
Proof.
  induction d as [|x d IH]; intros [|k] [|i] b H; cbn; try reflexivity;
    try lia.
  f_equal. apply IH. lia.
Qed.

Lemma firstn_set_bit d p k : 8 * k <= p -> firstn k (set_bit d p) = firstn k d.
Proof.
  intros H. unfold set_bit. destruct (p / 8 <? length d); [|reflexivity].
  apply firstn_upd. lia.
Qed.

Lemma firstn_or_bits n :
  forall d p v k, 8 * k <= p -> firstn k (or_bits d p n v) = firstn k d.
Proof.
  induction n as [|n IH]; intros d p v k H; cbn [or_bits]; [reflexivity|].
  rewrite IH by lia. destruct (Z.odd v); [|reflexivity].
  apply firstn_set_bit. exact H.
Qed.

Lemma firstn_append_range w vs :
  forall d p k, 8 * k <= p ->
  firstn k (fst (append_range d p w vs)) = firstn k d.
Proof.
  induction vs as [|v vs IH]; intros d p k H; cbn [append_range];
    [reflexivity|].
  rewrite IH by lia. apply firstn_or_bits. exact H.
Qed.

Lemma firstn_emit_header d bitp prev w k :
  8 * k <= bitp ->
  firstn k (fst (fst (emit_header d bitp prev w))) = firstn k d
  /\ 8 * k <= snd (fst (emit_header d bitp prev w)).
Proof.
  intros H. cbv beta delta [emit_header].
  destruct (prev =? w); [|destruct (w <? 7); [|destruct (w <? 10)]];
    cbn [fst snd]; (split; [|lia]).
  - apply firstn_set_bit. lia.
  - apply firstn_or_bits. lia.
  - apply firstn_or_bits. lia.
  - apply firstn_or_bits. lia.
Qed.

Lemma f_compress_block_prefix T B N from data st st1 data1 k :
  f_compress_block T B N from data st = (st1, data1) ->
  8 * k <= e_bitp st ->
  firstn k (e_data st1) = firstn k (e_data st) /\ 8 * k <= e_bitp st1.
Proof.
  intros H Hk. split.
  2:{ destruct (f_compress_block_frame _ _ _ _ _ _ _ _ _ _ H eq_refl eq_refl)
        as (_ & _ & _ & C & _). lia. }
  cbv beta delta [f_compress_block] in H. cbv zeta in H.
  set (blk := firstn (Nat.min N (from + B) - from) data) in *.
  set (w := f_highest_set_bit T (f_setbits T blk)) in *.
  destruct (firstn_emit_header (e_data st) (e_bitp st) (e_prevbits st) w k Hk)
    as [Hd Hb].
  destruct (emit_header (e_data st) (e_bitp st) (e_prevbits st) w)
    as [[d bitp] prev] eqn:E.
  cbn [fst snd] in Hd, Hb.
  destruct (w =? 0).
  - injection H as <- _. exact Hd.
  - destruct (append_range d bitp w blk) as [d' bitp'] eqn:A.
    injection H as <- _. cbn [e_data].
    pose proof (firstn_append_range w blk d bitp k Hb) as G.
    rewrite A in G. cbn [fst] in G. congruence.
Qed.

Lemma f_compress_loop_prefix fuel T B N k :
  forall from data st st',
  f_compress_loop fuel T B N from data st = Some st' ->
  8 * k <= e_bitp st ->
  firstn k (e_data st') = firstn k (e_data st).
Proof.
  induction fuel as [|fuel IH]; intros from data st st' H Hk;
    cbn [f_compress_loop] in H.
  - destruct (from <? N); [discriminate|]. injection H as <-. reflexivity.
  - destruct (from <? N); [|injection H as <-; reflexivity].
    destruct (f_compress_block T B N from data st) as [st1 data1] eqn:E.
    destruct (f_compress_block_prefix _ _ _ _ _ _ _ _ k E Hk) as [P1 P2].
    rewrite (IH _ _ _ _ H P2). exact P1.
Qed.

Lemma firstn_resize d n k :
  k <= n -> k <= length d -> firstn k (resize d n) = firstn k d.
Proof.
  intros Hn Hd. unfold resize.
  rewrite firstn_app, firstn_firstn, length_firstn.
  replace (k - Nat.min n (length d)) with 0 by lia.
  replace (Nat.min k n) with k by lia.
  cbn [firstn]. apply app_nil_r.
Qed.

(** [f_compress] leaves the bytes packed before it as they are. *)
Lemma f_compress_prefix T t data t' :
  f_compress T t data = Done t' ->
  firstn (length (d_terse_data t)) (d_terse_data t') = d_terse_data t.
Proof.
  intros H. cbv beta delta [f_compress] in H.
  destruct (f_compress_run T t data) as [st|] eqn:R; [|discriminate].
  injection H as <-. cbn [d_terse_data]. unfold f_compress_run in R.
  pose proof (f_compress_loop_prefix _ _ _ _ (length (d_terse_data t))
                _ _ _ _ R) as P.
  destruct (f_compress_loop_frame _ _ _ _ _ _ _ _ R) as (L & C & _).
  unfold f_compress_init in P, L, C. cbn [e_data e_bitp] in P, L, C.
  rewrite length_resize in L.
  assert (X : length (d_terse_data t) <= 1 + e_bitp st / 8) by lia.
  rewrite firstn_resize; [|exact X|lia].
  rewrite P by lia.
  rewrite firstn_resize by lia. apply firstn_all.
Qed.

(** X5.  A push that returns, on a store with a block size of at least 1:
    one unresolved entry is appended to the frame offsets and the others
    are kept; the block size and the dimensions are kept; [size()] is the
    length of the frame and [is_signed()] the signedness of its element
    type; the bytes packed before the push are a prefix of the packed bytes
    after it; and the packed bytes grow by at least one byte. *)
Theorem push_back_appends (T : int_type) (t t' : Terse) (data : list Z) :
  1 <= d_block t ->
  push_back T t data = Done t' ->
  d_terse_frames t' = d_terse_frames t ++ [0]
  /\ d_block t' = d_block t /\ d_dim t' = d_dim t
  /\ size t' = length data /\ is_signed t' = is_signed_v T
  /\ firstn (terse_size t) (d_terse_data t') = d_terse_data t
  /\ terse_size t < terse_size t'.
Proof.
  intros _ H. unfold push_back in H.
  assert (G : forall s,
             d_terse_frames s = d_terse_frames t ++ [0] ->
             d_block s = d_block t -> d_dim s = d_dim t ->
             d_size s = length data -> d_signed s = is_signed_v T ->
             d_terse_data s = d_terse_data t ->
             f_compress T s data = Done t' ->
             d_terse_frames t' = d_terse_frames t ++ [0]
             /\ d_block t' = d_block t /\ d_dim t' = d_dim t
             /\ size t' = length data /\ is_signed t' = is_signed_v T
             /\ firstn (terse_size t) (d_terse_data t') = d_terse_data t
             /\ terse_size t < terse_size t').
  { intros s F1 F2 F3 F4 F5 F6 Hf.
    destruct (f_compress_fields _ _ _ _ Hf) as (B1 & B2 & B3 & B4 & B5 & _).
    destruct (f_compress_keeps _ _ _ _ Hf) as [K _].
    pose proof (f_compress_prefix _ _ _ _ Hf) as P.
    unfold size, is_signed, terse_size. rewrite F6 in *.
    repeat split; congruence || lia. }
  destruct (number_of_frames t =? 0); [eapply G; [| | | | | |exact H];
                                       reflexivity|].
  destruct (negb (size t =? length data)) eqn:E1; [discriminate|].
  destruct (negb (Bool.eqb (d_signed t) (is_signed_v T))) eqn:E2;
    [discriminate|].
  apply negb_false_iff, Nat.eqb_eq in E1.
  apply negb_false_iff, Bool.eqb_prop in E2.
  eapply G; [| | | | | |exact H]; try reflexivity; assumption.
Qed.

(** The second push of S4. *)
Lemma push_back_appends_witness :
  (1 <= d_block S4_one /\ push_back UInt32 S4_one S4_second = Done S4_two)
  /\ d_terse_frames S4_two = d_terse_frames S4_one ++ [0]
  /\ firstn (terse_size S4_one) (d_terse_data S4_two) = d_terse_data S4_one
  /\ terse_size S4_one < terse_size S4_two.
Proof.
  assert (H : 1 <= d_block S4_one) by (cbn; lia).
  destruct (push_back_appends _ _ _ _ H S4_two_built)
    as (F & _ & _ & _ & _ & P & L).
  split; [split; [exact H|exact S4_two_built]|].
  split; [exact F|]. split; [exact P|exact L].
Defined.

Lemma push_back_dim T t t' data :
  push_back T t data = Done t' -> d_dim t' = d_dim t.
Proof.
  intros H. unfold push_back in H.
  destruct (number_of_frames t =? 0).
  - apply f_compress_fields in H. destruct H as (_ & _ & _ & D & _).
    exact D.
  - destruct (negb (size t =? length data)); [discriminate|].
    destruct (negb (Bool.eqb (d_signed t) (is_signed_v T)));
      [discriminate|].
    apply f_compress_fields in H. destruct H as (_ & _ & _ & D & _).
    exact D.
Qed.

(** ** Frames are packed one after the other *)

(** The encoder in a vector that has bytes in front: every write lands the
    same number of bytes further. *)
Lemma upd_app (pre d : buffer) i b :
  upd (pre ++ d) (length pre + i) b = pre ++ upd d i b.
Proof.
  induction pre as [|x pre IH]; cbn [app length Nat.add upd];
    [reflexivity|].
  f_equal. exact IH.
Qed.

Lemma set_bit_app (pre d : buffer) p :
  set_bit (pre ++ d) (8 * length pre + p) = pre ++ set_bit d p.
Proof.
  unfold set_bit.
  replace ((8 * length pre + p) / 8) with (length pre + p / 8) by lia.
  replace ((8 * length pre + p) mod 8) with (p mod 8) by lia.
  rewrite length_app, app_nth2_plus.
  destruct (p / 8 <? length d) eqn:E.
  - replace (length pre + p / 8 <? length pre + length d) with true
      by (symmetry; apply Nat.ltb_lt; apply Nat.ltb_lt in E; lia).
    apply upd_app.
  - replace (length pre + p / 8 <? length pre + length d) with false
      by (symmetry; apply Nat.ltb_ge; apply Nat.ltb_ge in E; lia).
    reflexivity.
Qed.

Lemma or_bits_app n :
  forall (pre d : buffer) p v,
  or_bits (pre ++ d) (8 * length pre + p) n v = pre ++ or_bits d p n v.
Proof.
  induction n as [|n IH]; intros pre d p v; cbn [or_bits]; [reflexivity|].
  replace (S (8 * length pre + p)) with (8 * length pre + S p) by lia.
  destruct (Z.odd v); [rewrite set_bit_app|]; apply IH.
Qed.

Lemma append_range_app w vs :
  forall (pre d : buffer) p,
  append_range (pre ++ d) (8 * length pre + p) w vs
  = (pre ++ fst (append_range d p w vs),
     8 * length pre + snd (append_range d p w vs)).
Proof.
  induction vs as [|v vs IH]; intros pre d p; cbn [append_range];
    [reflexivity|].
  rewrite or_bits_app.
  replace (8 * length pre + p + w) with (8 * length pre + (p + w)) by lia.
  apply IH.
Qed.

Lemma emit_header_app (pre d : buffer) p prev w :
  emit_header (pre ++ d) (8 * length pre + p) prev w
  = (pre ++ fst (fst (emit_header d p prev w)),
     8 * length pre + snd (fst (emit_header d p prev w)),
     snd (emit_header d p prev w)).
Proof.
  cbv beta delta [emit_header].
  replace (S (8 * length pre + p)) with (8 * length pre + S p) by lia.
  destruct (prev =? w); [|destruct (w <? 7); [|destruct (w <? 10)]];
    cbn [fst snd]; rewrite ?set_bit_app, ?or_bits_app;
    rewrite <- ?Nat.add_assoc; reflexivity.
Qed.

Lemma f_compress_block_app T B N from data pre st st' :
  shifted pre st st' ->
  shifted pre (fst (f_compress_block T B N from data st))
    (fst (f_compress_block T B N from data st'))
  /\ snd (f_compress_block T B N from data st')
     = snd (f_compress_block T B N from data st).
Proof.
  intros (S1 & S2 & S3). cbv beta delta [f_compress_block]. cbv zeta.
  set (blk := firstn (Nat.min N (from + B) - from) data).
  set (w := f_highest_set_bit T (f_setbits T blk)).
  rewrite S1, S2, S3, emit_header_app.
  destruct (emit_header (e_data st) (e_bitp st) (e_prevbits st) w)
    as [[d bitp] prev].
  cbn [fst snd].
  destruct (w =? 0).
  - cbn [fst snd]. unfold shifted. cbn [e_data e_bitp e_prevbits]. auto.
  - rewrite append_range_app.
    destruct (append_range d bitp w blk) as [d' bitp'].
    cbn [fst snd]. unfold shifted. cbn [e_data e_bitp e_prevbits]. auto.
Qed.

Lemma f_compress_loop_app fuel T B N pre :
  forall from data st st',
  shifted pre st st' ->
  match f_compress_loop fuel T B N from data st,
        f_compress_loop fuel T B N from data st' with
  | Some r, Some r' => shifted pre r r'
  | None, None => True
  | _, _ => False
  end.
Proof.
  induction fuel as [|fuel IH]; intros from data st st' Hs;
    cbn [f_compress_loop].
  - destruct (from <? N); [exact I|exact Hs].
  - destruct (from <? N); [|exact Hs].
    destruct (f_compress_block_app T B N from data pre st st' Hs) as [A1 A2].
    destruct (f_compress_block T B N from data st) as [st1 data1].
    destruct (f_compress_block T B N from data st') as [st1' data1'].
    cbn [fst snd] in A1, A2. subst data1'.
    apply (IH _ _ _ _ A1).
Qed.

Lemma resize_app (pre d : buffer) n :
  resize (pre ++ d) (length pre + n) = pre ++ resize d n.
Proof.
  unfold resize. rewrite firstn_app, length_app.
  replace (length pre + n - length pre) with n by lia.
  rewrite firstn_all2 by lia.
  replace (length pre + n - (length pre + length d)) with (n - length d)
    by lia.
  rewrite <- app_assoc. reflexivity.
Qed.

(** The bytes [f_compress] appends are the bytes it packs into an empty
    store. *)
Lemma f_compress_concatenates T s data t' :
  f_compress T s data = Done t' ->
  d_size s = length data ->
  exists fresh,
    Terse_of T data (d_block s) = Done fresh
    /\ d_terse_data t' = d_terse_data s ++ d_terse_data fresh.
Proof.
  intros H Hs. unfold Terse_of.
  cbv beta delta [f_compress] in *.
  destruct (f_compress_run T s data) as [st|] eqn:R; [|discriminate].
  injection H as <-. cbn [d_terse_data].
  unfold f_compress_run in *.
  cbn [Terse_init d_size d_block]. rewrite <- Hs.
  assert (I : shifted (d_terse_data s)
                (f_compress_init T
                   (Terse_init T data (d_block s)))
                (f_compress_init T s)).
  { unfold shifted, f_compress_init.
    cbn [Terse_init e_data e_bitp e_prevbits d_terse_data d_size d_block
         d_prolix_bits length Nat.add].
    rewrite <- Hs. repeat split; try lia.
    rewrite <- (app_nil_r (d_terse_data s)) at 1.
    apply resize_app. }
  pose proof (f_compress_loop_app (d_size s) T (d_block s) (d_size s)
                (d_terse_data s) 0 data _ _ I) as L.
  rewrite R in L.
  destruct (f_compress_loop (d_size s) T (d_block s) (d_size s) 0 data
              (f_compress_init T (Terse_init T data (d_block s))))
    as [r0|]; [|contradiction].
  destruct L as (S1 & S2 & S3).
  eexists. split; [reflexivity|].
  cbn [d_terse_data]. rewrite S1, S2.
  change (S (fst (Nat.divmod (8 * length (d_terse_data s) + e_bitp r0)
                    7 0 7)))
    with (1 + (8 * length (d_terse_data s) + e_bitp r0) / 8).
  replace (1 + (8 * length (d_terse_data s) + e_bitp r0) / 8)
    with (length (d_terse_data s) + (1 + e_bitp r0 / 8)) by lia.
  apply resize_app.
Qed.

(** X6.  Frames are packed one after the other, each from a byte boundary
    and each on its own: after a push that returns, on a store with a block
    size of at least 1, the packed bytes are the packed bytes before the
    push followed by the packed bytes of the store the constructor builds
    from the frame alone with the same block size. *)
Theorem push_back_concatenates (T : int_type) (t t' : Terse)
    (data : list Z) :
  1 <= d_block t ->
  push_back T t data = Done t' ->
  exists fresh,
    Terse_of T data (d_block t) = Done fresh
    /\ d_terse_data t' = d_terse_data t ++ d_terse_data fresh.
Proof.
  intros _ H. unfold push_back in H.
  destruct (number_of_frames t =? 0).
  - apply f_compress_concatenates in H; [exact H|reflexivity].
  - destruct (negb (size t =? length data)) eqn:E1; [discriminate|].
    destruct (negb (Bool.eqb (d_signed t) (is_signed_v T)));
      [discriminate|].
    apply negb_false_iff, Nat.eqb_eq in E1.
    apply f_compress_concatenates in H; [exact H|exact E1].
Qed.

(** The second push of S4. *)
Lemma push_back_concatenates_witness :
  (1 <= d_block S4_one /\ push_back UInt32 S4_one S4_second = Done S4_two)
  /\ exists fresh,
       Terse_of UInt32 S4_second 3 = Done fresh
       /\ d_terse_data S4_two = d_terse_data S4_one ++ d_terse_data fresh.
Proof.
  assert (H : 1 <= d_block S4_one) by (cbn; lia).
  split; [split; [exact H|exact S4_two_built]|].
  exact (push_back_concatenates _ _ _ _ H S4_two_built).
Defined.

(** ** The width of a value and [max_bits] *)

(** X7.  [Terse::f_highest_set_bit] on a value [val] of type [T] whose
    absolute value it computes ([has_abs]: for a signed [T], not the
    minimum, and below [2 ^ 31] in absolute value, the argument of [abs]
    being an [int]): the result [r] is 0 for 0; for another value it is the
    number of bits of [|val|]
    ([2 ^ (r' - 1) <= |val| < 2 ^ r']) for an unsigned [T] ([r' = r]) and
    one more for a signed [T] ([r' = r - 1]); and it is at most the width
    of [T]. *)
Theorem f_highest_set_bit_fits (T : int_type) (val : Z) :
  has_abs T val ->
  let r := f_highest_set_bit T val in
  let s := if is_signed_v T then 1 else 0 in
  (val = 0%Z -> r = 0)
  /\ (val <> 0%Z ->
      s < r
      /\ (2 ^ Z.of_nat (r - s - 1) <= Z.abs val < 2 ^ Z.of_nat (r - s))%Z)
  /\ r <= bits T.
Proof.
  intros H r s.
  assert (M := magnitude_bound T val H).
  assert (Hb := bits_bounds T).
  rewrite max_value_pow in M.
  assert (R : r = if (val =? 0)%Z then 0
                  else bits_needed (Z.abs val) + s).
  { subst r s. unfold f_highest_set_bit, magnitude in *.
    destruct (is_signed_v T) eqn:Sg.
    - destruct (Z.eqb_spec val 0) as [->|Hz]; [reflexivity|].
      rewrite c_abs_exact by (apply (magnitude_int T val H Sg)).
      unfold make_unsigned. rewrite Z.mod_small.
      + rewrite highest_set_bit_loop_spec; [lia|].
        split; [lia|].
        apply Z.lt_le_trans with (2 ^ Z.of_nat (bits T - 1))%Z; [lia|].
        apply Z.pow_le_mono_r; lia.
      + split; [lia|].
        apply Z.lt_le_trans with (2 ^ Z.of_nat (bits T - 1))%Z; [lia|].
        apply Z.pow_le_mono_r; lia.
    - destruct H as [[H0 _] _]. unfold min_value in H0. rewrite Sg in H0.
      rewrite Z.abs_eq by lia.
      rewrite highest_set_bit_loop_spec.
      + destruct (Z.eqb_spec val 0) as [->|Hz]; [reflexivity|].
        cbn [Nat.add]. lia.
      + split; [lia|].
        apply Z.lt_le_trans with (2 ^ Z.of_nat (bits T))%Z; [lia|].
        apply Z.pow_le_mono_r; lia. }
  assert (A : (0 <= Z.abs val)%Z) by lia.
  assert (Ma : (Z.abs val
                < 2 ^ Z.of_nat (if is_signed_v T then bits T - 1
                                else bits T))%Z).
  { unfold magnitude in M. destruct (is_signed_v T); [lia|].
    rewrite Z.abs_eq; [lia|]. lia. }
  apply (bits_needed_bound _ _ A) in Ma.
  split; [|split].
  - intros ->. rewrite R. reflexivity.
  - intros Hz. rewrite R.
    destruct (Z.eqb_spec val 0) as [E|_]; [contradiction|].
    assert (P : bits_needed (Z.abs val) <> 0).
    { intros E. apply (bits_needed_0 _ A) in E. lia. }
    split; [lia|].
    replace (bits_needed (Z.abs val) + s - s) with (bits_needed (Z.abs val))
      by lia.
    split; [|apply bits_needed_lt; exact A].
    destruct (Z_lt_le_dec (Z.abs val)
                (2 ^ Z.of_nat (bits_needed (Z.abs val) - 1))) as [L|L];
      [|exact L].
    apply (bits_needed_bound _ _ A) in L. lia.
  - rewrite R. destruct (val =? 0)%Z; [lia|].
    subst s. destruct (is_signed_v T); lia.
Qed.

(** The signed 16-bit value -5 takes 4 bits. *)
Lemma f_highest_set_bit_fits_witness :
  has_abs Int16 (-5)%Z
  /\ f_highest_set_bit Int16 (-5)%Z = 4
  /\ (2 ^ Z.of_nat (4 - 1 - 1)
      <= Z.abs (-5) < 2 ^ Z.of_nat (4 - 1))%Z.
Proof.
  assert (A : has_abs Int16 (-5)%Z) by (apply has_absb_ok; reflexivity).
  destruct (f_highest_set_bit_fits Int16 (-5)%Z A) as (_ & F & _).
  split; [exact A|]. split; [reflexivity|].
  apply F. discriminate.
Defined.

(** Over values whose absolute value the encoder computes no block is
    wider than the element type. *)
Lemma blocks_width_le T B data :
  Forall (has_abs T) data ->
  max_width (map (block_width T) (blocks B data)) <= bits T.
Proof.
  intros Hd. apply max_width_le. apply Forall_forall.
  intros w Hin. apply in_map_iff in Hin. destruct Hin as (block & <- & Hin).
  apply block_width_le_bits.
  apply (blocks_of_Forall (has_abs T) _ _ _ _ Hd Hin).
Qed.

Lemma Terse_of_max_bits T xs B t :
  Terse_of T xs B = Done t -> Forall (has_abs T) xs ->
  d_prolix_bits t <= bits T.
Proof.
  intros H Hx.
  change (Terse_of T xs B)
    with (push_back T (mkTerse false B 0 0 [] [] []) xs) in H.
  destruct (push_back_max_bits _ _ _ _ H) as [E _].
  unfold bits_per_val in E. cbn [d_prolix_bits d_block] in E.
  pose proof (blocks_width_le T B xs Hx). lia.
Qed.

(** X8.  [max_bits] after a push that returns, on a store with a block size
    of at least 1: it is the larger of its value before and of the widths
    [f_compress] gives the blocks of the frame; it does not decrease; it is
    at most the larger of its value before and the width of the element
    type plus one; and at most the larger of its value before and the width
    of the element type when the encoder computes the absolute value of
    every value of the frame ([has_abs]: for a signed type, no minimum and
    no value of [2 ^ 31] or more in absolute value). *)
Theorem max_bits_after_push (T : int_type) (t t' : Terse) (data : list Z) :
  1 <= d_block t ->
  push_back T t data = Done t' ->
  bits_per_val t'
  = Nat.max (bits_per_val t)
      (max_width (map (block_width T) (blocks (d_block t) data)))
  /\ bits_per_val t <= bits_per_val t'
  /\ (Forall (in_range T) data ->
      bits_per_val t' <= Nat.max (bits_per_val t) (bits T + 1))
  /\ (Forall (has_abs T) data ->
      bits_per_val t' <= Nat.max (bits_per_val t) (bits T)).
Proof.
  intros _ H. destruct (push_back_max_bits _ _ _ _ H) as [E _].
  assert (G : forall (P : Z -> Prop) n,
             (forall block, Forall P block -> block_width T block <= n) ->
             Forall P data ->
             max_width (map (block_width T) (blocks (d_block t) data)) <= n).
  { intros P n Hw Hd. apply max_width_le. apply Forall_forall.
    intros w Hin. apply in_map_iff in Hin. destruct Hin as (block & <- & Hin).
    apply Hw. apply (blocks_of_Forall P _ _ _ _ Hd Hin). }
  split; [exact E|]. split; [lia|]. split; intros Hd.
  - pose proof (G _ _ (block_width_bound T) Hd). lia.
  - pose proof (G _ _ (block_width_le_bits T) Hd). lia.
Qed.

(** The second push of S4. *)
Lemma max_bits_after_push_witness :
  (1 <= d_block S4_one
   /\ push_back UInt32 S4_one S4_second = Done S4_two
   /\ Forall (has_abs UInt32) S4_second)
  /\ bits_per_val S4_one <= bits_per_val S4_two
  /\ bits_per_val S4_two <= Nat.max (bits_per_val S4_one) (bits UInt32).
Proof.
  assert (A : Forall (has_abs UInt32) S4_second)
    by (apply all_has_abs; vm_compute; reflexivity).
  assert (H : 1 <= d_block S4_one) by (cbn; lia).
  destruct (max_bits_after_push _ _ _ _ H S4_two_built) as (_ & M & _ & B).
  split; [repeat split; assumption || exact S4_two_built|].
  split; [exact M|exact (B A)].
Defined.

(** ** The bytes a frame takes *)

(** X9.  When the frame length is a multiple of the block size (at least 1)
    and the encoder computes the absolute value of every value of the frame
    ([has_abs]), the block loop of [f_compress] ends with its cursor no
    further than the bytes packed before plus the exact value of the
    expression of line 504.  The vector the code grew before encoding has
    at least these bytes, so no bit of the frame is written outside it. *)
Theorem encoder_stays_in_reserve (T : int_type) (t : Terse) (data : list Z)
    (k : nat) (st : enc_state) :
  1 <= d_block t ->
  d_size t = length data ->
  length data = k * d_block t ->
  Forall (has_abs T) data ->
  f_compress_run T t data = Some st ->
  e_bitp st <= 8 * (terse_size t + reserve T (d_size t) (d_block t)).
Proof.
  intros HB Hs Hk Hd R.
  pose proof (within_reserve_full_blocks T t data k HB Hs Hk Hd st R) as W.
  unfold f_compress_run in R.
  destruct (f_compress_loop_frame _ _ _ _ _ _ _ _ R) as (L & _).
  rewrite L in W. unfold f_compress_init in W. cbn [e_data] in W.
  rewrite length_resize in W. exact W.
Qed.

(** The first frame of S4: 10 bits, 14 bytes reserved. *)
Lemma encoder_stays_in_reserve_witness :
  (1 <= d_block (Terse_init UInt32 S4_first 3)
   /\ d_size (Terse_init UInt32 S4_first 3) = length S4_first
   /\ length S4_first = 1 * d_block (Terse_init UInt32 S4_first 3)
   /\ Forall (has_abs UInt32) S4_first
   /\ f_compress_run UInt32 (Terse_init UInt32 S4_first 3) S4_first
      = Some (mkEnc ([148; 3] ++ repeat 0 12)%Z 10 2 2))
  /\ 10 <= 8 * (0 + 14).
Proof.
  assert (H1 : 1 <= d_block (Terse_init UInt32 S4_first 3)) by (cbn; lia).
  assert (H2 : d_size (Terse_init UInt32 S4_first 3) = length S4_first)
    by reflexivity.
  assert (H3 : length S4_first = 1 * d_block (Terse_init UInt32 S4_first 3))
    by reflexivity.
  assert (H4 : Forall (has_abs UInt32) S4_first)
    by (apply all_has_abs; vm_compute; reflexivity).
  assert (H5 : f_compress_run UInt32 (Terse_init UInt32 S4_first 3) S4_first
               = Some (mkEnc ([148; 3] ++ repeat 0 12)%Z 10 2 2))
    by (vm_compute; reflexivity).
  split; [repeat split; assumption|].
  exact (encoder_stays_in_reserve _ _ _ _ _ H1 H2 H3 H4 H5).
Defined.

(** Every block takes at least the bit of its header. *)
Lemma f_compress_loop_cursor_ge fuel T B N :
  1 <= B ->
  forall from data st st',
  f_compress_loop fuel T B N from data st = Some st' ->
  e_bitp st + block_count (N - from) B <= e_bitp st'.
Proof.
  intros HB. induction fuel as [|fuel IH]; intros from data st st' H;
    cbn [f_compress_loop] in H; destruct (Nat.ltb_spec from N);
    try discriminate;
    try (injection H as <-; replace (N - from) with 0 by lia;
         rewrite block_count_0 by exact HB; lia).
  destruct (f_compress_block T B N from data st) as [st1 data1] eqn:EB.
  pose proof (f_compress_block_frame _ _ _ _ _ _ _ _ _ _ EB
                eq_refl eq_refl) as (K1 & K2 & K3 & K4 & K5 & K6 & K7).
  apply IH in H.
  pose proof (header_bits_length (e_prevbits st)
                (block_width T
                   (firstn (Nat.min N (from + B) - from) data))) as HH.
  rewrite (block_count_step (N - from) B) by lia.
  replace (N - from - B) with (N - (from + B)) by lia.
  destruct (e_prevbits st
            =? block_width T (firstn (Nat.min N (from + B) - from) data));
    [|destruct (block_width T (firstn (Nat.min N (from + B) - from) data)
                <? 7);
      [|destruct (block_width T
                    (firstn (Nat.min N (from + B) - from) data) <? 10)]];
    lia.
Qed.

(** No block takes more than 12 bits of header and [max_bits] bits per value. *)
Lemma f_compress_loop_cursor_max fuel T B N :
  1 <= B ->
  forall from data st st',
  f_compress_loop fuel T B N from data st = Some st' ->
  e_bitp st'
  <= e_bitp st + 12 * block_count (N - from) B
     + e_prolix_bits st' * (N - from).
Proof.
  intros HB. induction fuel as [|fuel IH]; intros from data st st' H;
    cbn [f_compress_loop] in H; destruct (Nat.ltb_spec from N);
    try discriminate; try (injection H as <-; lia).
  destruct (f_compress_block T B N from data st) as [st1 data1] eqn:EB.
  pose proof (f_compress_block_frame _ _ _ _ _ _ _ _ _ _ EB
                eq_refl eq_refl) as (K1 & K2 & K3 & K4 & K5 & K6 & K7).
  destruct (f_compress_loop_frame _ _ _ _ _ _ _ _ H) as (_ & _ & _ & _ & M).
  apply IH in H.
  pose proof (header_bits_le_12 (e_prevbits st)
                (block_width T
                   (firstn (Nat.min N (from + B) - from) data))) as HH.
  pose proof (firstn_le_length (Nat.min N (from + B) - from) data) as HL.
  rewrite (block_count_step (N - from) B) by lia.
  replace (N - from - B) with (N - (from + B)) by lia.
  set (w := block_width T (firstn (Nat.min N (from + B) - from) data)) in *.
  set (len := length (firstn (Nat.min N (from + B) - from) data)) in *.
  assert (W : w <= e_prolix_bits st') by lia.
  assert (w * len <= e_prolix_bits st' * (Nat.min N (from + B) - from))
    by (apply Nat.mul_le_mono; lia).
  assert (e_prolix_bits st' * (Nat.min N (from + B) - from)
          + e_prolix_bits st' * (N - (from + B))
          = e_prolix_bits st' * (N - from)) by nia.
  lia.
Qed.

(** X10.  The bytes a push adds, on a store with a block size [B] of at
    least 1: at least one byte more than an eighth (rounded down) of the
    number of blocks of the frame, every block taking at least one bit; at
    most one byte more than an eighth (rounded down) of 12 bits per block
    plus [max_bits] (its value after the push) bits per value; and, when
    the encoder computes the absolute value of every value of the frame
    ([has_abs]: for a signed type, no minimum and no value of [2 ^ 31] or
    more in absolute value), at most one byte more than an eighth (rounded
    down) of 12 bits per block plus the width of the element type per
    value. *)
Theorem push_back_size_bounds (T : int_type) (t t' : Terse) (data : list Z) :
  1 <= d_block t ->
  push_back T t data = Done t' ->
  1 + block_count (length data) (d_block t) / 8
  <= terse_size t' - terse_size t
  /\ terse_size t' - terse_size t
     <= 1 + (12 * block_count (length data) (d_block t)
             + bits_per_val t' * length data) / 8
  /\ (Forall (has_abs T) data ->
      terse_size t' - terse_size t
      <= 1 + (12 * block_count (length data) (d_block t)
              + bits T * length data) / 8).
Proof.
  intros HB H. unfold push_back in H.
  assert (G : forall s,
             d_block s = d_block t -> d_size s = length data ->
             d_terse_data s = d_terse_data t ->
             f_compress T s data = Done t' ->
             1 + block_count (length data) (d_block t) / 8
             <= terse_size t' - terse_size t
             /\ terse_size t' - terse_size t
                <= 1 + (12 * block_count (length data) (d_block t)
                        + bits_per_val t' * length data) / 8
             /\ (Forall (has_abs T) data ->
                 terse_size t' - terse_size t
                 <= 1 + (12 * block_count (length data) (d_block t)
                         + bits T * length data) / 8)).
  { intros s F1 F2 F3 Hf. cbv beta delta [f_compress] in Hf.
    destruct (f_compress_run T s data) as [st|] eqn:R; [|discriminate].
    injection Hf as <-. clear H. unfold terse_size, bits_per_val.
    cbn [d_terse_data d_prolix_bits].
    rewrite length_resize. unfold f_compress_run in R.
    change (S (fst (Nat.divmod (e_bitp st) 7 0 7)))
      with (1 + e_bitp st / 8).
    assert (HBs : 1 <= d_block s) by lia.
    pose proof (f_compress_loop_cursor_ge _ _ _ _ HBs _ _ _ _ R) as Lo.
    pose proof (f_compress_loop_cursor_max _ _ _ _ HBs _ _ _ _ R) as Mx.
    unfold f_compress_init in Lo, Mx. cbn [e_bitp] in Lo, Mx.
    rewrite F1, F2, F3, Nat.sub_0_r in Lo, Mx.
    split; [|split].
    - set (bc := block_count (length data) (d_block t)) in *.
      clearbody bc. lia.
    - set (bc := block_count (length data) (d_block t)) in *.
      set (bl := e_prolix_bits st * length data) in *. clearbody bc bl. lia.
    - intros Hd.
      apply f_compress_loop_cursor in R; [|lia|lia|exact Hd].
      unfold f_compress_init in R. cbn [e_bitp] in R.
      rewrite F1, F2, F3, Nat.sub_0_r in R.
      set (bc := block_count (length data) (d_block t)) in *.
      set (bl := bits T * length data) in *. clearbody bc bl. lia. }
  destruct (number_of_frames t =? 0);
    [eapply G; [| | |exact H]; reflexivity|].
  destruct (negb (size t =? length data)) eqn:E1; [discriminate|].
  destruct (negb (Bool.eqb (d_signed t) (is_signed_v T))); [discriminate|].
  apply negb_false_iff, Nat.eqb_eq in E1.
  eapply G; [| | |exact H]; try reflexivity. exact E1.
Qed.

(** The second push of S4. *)
Lemma push_back_size_bounds_witness :
  (1 <= d_block S4_one
   /\ push_back UInt32 S4_one S4_second = Done S4_two
   /\ Forall (has_abs UInt32) S4_second)
  /\ 1 + block_count 3 3 / 8 <= terse_size S4_two - terse_size S4_one
  /\ terse_size S4_two - terse_size S4_one
     <= 1 + (12 * block_count 3 3 + 20 * 3) / 8
  /\ terse_size S4_two - terse_size S4_one
     <= 1 + (12 * block_count 3 3 + bits UInt32 * 3) / 8.
Proof.
  assert (H : 1 <= d_block S4_one) by (cbn; lia).
  assert (A : Forall (has_abs UInt32) S4_second)
    by (apply all_has_abs; vm_compute; reflexivity).
  destruct (push_back_size_bounds _ _ _ _ H S4_two_built) as (Lo & Mx & Hi).
  split; [repeat split; assumption|].
  split; [exact Lo|]. split; [exact Mx|exact (Hi A)].
Defined.

(** ** The second frame *)

(** When the block size divides the frame length, the scan of
    [f_find_terse_frame] ends where the decoder ends. *)
Lemma scan_loop_full_blocks fuel U B N d :
  forall from bitp sb vs c k,
  N - from = k * B ->
  prolix_loop fuel U B N from d bitp sb = Some (vs, c) ->
  scan_loop fuel B N from d bitp sb = Some c.
Proof.
  induction fuel as [|fuel IH]; intros from bitp sb vs c k Hk H;
    cbn [prolix_loop scan_loop] in *.
  - destruct (from <? N); [discriminate|]. injection H as _ <-. reflexivity.
  - destruct (from <? N) eqn:E; [|injection H as _ <-; reflexivity].
    apply Nat.ltb_lt in E.
    destruct (parse_header d bitp sb) as [w h].
    destruct (if w =? 0
              then (repeat 0%Z (Nat.min N (from + B) - from), h)
              else get_range U d h w (Nat.min N (from + B) - from))
      as [vs0 q] eqn:V.
    destruct (prolix_loop fuel U B N (from + B) d q w)
      as [[rest q']|] eqn:R; [|discriminate].
    injection H as _ <-.
    apply block_values_cursor in V.
    assert (Hk1 : 1 <= k) by (destruct k; [cbn in Hk; lia|lia]).
    assert (HB : B <= N - from) by nia.
    replace (Nat.min N (from + B) - from) with B in V by lia.
    assert (Q : q = h + w * B).
    { rewrite V. destruct (w =? 0) eqn:W; [|reflexivity].
      apply Nat.eqb_eq in W. subst w. lia. }
    rewrite <- Q. apply (IH _ _ _ _ _ (k - 1)) in R; [exact R|nia].
Qed.

(** A store of two frames: the first decodes from bit 0, and the second from
    the byte at which the packed bytes of the first end. *)
Lemma two_frames_layout T T2 U xs ys B t t2 :
  1 <= B ->
  Forall (has_abs T) xs ->
  Forall (has_abs T2) ys ->
  within_reserve T (Terse_init T xs B) xs ->
  within_reserve T2 t ys ->
  is_signed_v U = is_signed_v T ->
  Terse_of T xs B = Done t ->
  push_back T2 t ys = Done t2 ->
  bits_per_val t2 <= bits U ->
  exists c c2,
    d_signed t2 = is_signed_v T /\ d_block t2 = B
    /\ d_size t2 = length xs /\ d_terse_frames t2 = [0; 0]
    /\ prolix_loop (length xs) U B (length xs) 0 (d_terse_data t2) 0 0
       = Some (xs, c)
    /\ terse_size t = 1 + c / 8
    /\ prolix_loop (length xs) U B (length xs) 0 (d_terse_data t2)
         (8 * terse_size t) 0
       = Some (ys, c2).
Proof.
  intros HB Hx Hy Hc Hc2 Sg Ht H2 Hp.
  destruct (f_compress_fields _ _ _ _ Ht) as (F1 & F2 & F3 & F4 & F5 & F6).
  cbn [Terse_init d_signed d_block d_size d_terse_frames] in F1, F2, F3, F5.
  assert (N1 : 1 <= number_of_frames t)
    by (unfold number_of_frames; rewrite F5; cbn; lia).
  assert (Ev : evolves t t2)
    by (eapply evolves_push_back; [apply evolves_refl|exact H2]).
  destruct (evolves_keeps t t2 N1 Ev)
    as (K1 & K2 & K3 & K4 & K5 & K6 & K7 & K8).
  unfold bits_per_val in Hp.
  destruct (f_compress_decodes T U _ _ _ Ht eq_refl Hx Hc Sg)
    as (c & D1 & D2 & D3); [lia|].
  cbn [Terse_init d_size d_block d_terse_data length Nat.mul] in D1, D3.
  unfold push_back in H2.
  replace (number_of_frames t =? 0) with false in H2
    by (symmetry; apply Nat.eqb_neq; lia).
  destruct (negb (size t =? length ys)) eqn:E1; [discriminate|].
  destruct (negb (Bool.eqb (d_signed t) (is_signed_v T2))) eqn:E2;
    [discriminate|].
  apply negb_false_iff, Nat.eqb_eq in E1. unfold size in E1.
  apply negb_false_iff, Bool.eqb_prop in E2.
  destruct (f_compress_fields _ _ _ _ H2) as (G1 & G2 & G3 & G4 & G5 & G6).
  cbn [d_signed d_block d_size d_terse_frames] in G1, G2, G3, G5.
  assert (Sg2 : is_signed_v U = is_signed_v T2) by congruence.
  destruct (f_compress_decodes T2 U _ _ _ H2 (eq_sym E1) Hy Hc2 Sg2 Hp)
    as (c2 & D4 & D5 & D6).
  cbn [d_size d_block d_terse_data] in D4.
  rewrite F2, F3 in D4.
  exists c, c2. repeat split; try congruence.
  - rewrite G5, F5. reflexivity.
  - apply (prolix_loop_local _ _ _ _ (d_terse_data t)); [exact D1|].
    intros q Hq. apply K8. lia.
  - exact D3.
  - exact D4.
Qed.

(** In a store of two frames whose block size divides the frame length,
    the scan of [f_find_terse_frame] resolves entry 1 to the packed size
    after the first push. *)
Lemma second_frame_scanned T T2 U xs ys B k t t2 :
  1 <= B ->
  length xs = k * B ->
  Forall (has_abs T) xs ->
  Forall (has_abs T2) ys ->
  within_reserve T (Terse_init T xs B) xs ->
  within_reserve T2 t ys ->
  is_signed_v U = is_signed_v T ->
  Terse_of T xs B = Done t ->
  push_back T2 t ys = Done t2 ->
  bits_per_val t2 <= bits U ->
  f_find_terse_frame t2 1
  = Some (with_frames t2 (set_frame t2 1 (terse_size t)), terse_size t).
Proof.
  intros HB Hk Hx Hy Hc Hc2 Sg Ht H2 Hp.
  destruct (two_frames_layout _ _ _ _ _ _ _ _ HB Hx Hy Hc Hc2 Sg Ht H2 Hp)
    as (c & c2 & L1 & L2 & L3 & L4 & L5 & L6 & L7).
  cbn [f_find_terse_frame]. rewrite L4. cbn [nth Nat.eqb].
  rewrite L2, L3. change (8 * 0) with 0.
  rewrite (scan_loop_full_blocks _ U _ _ _ 0 0 0 xs c k); [|lia|exact L5].
  rewrite Nat.sub_0_r, <- L6. reflexivity.
Qed.

(** ** Round trip of the first and of the second frame *)

(** C1, as amended.  For every element type [T], block size [B >= 1] and
    sequence [xs] of values of [T] whose absolute values the encoder
    computes ([has_abs]: no minimum of a signed [T], and below [2 ^ 31] in
    absolute value for a signed [T]) and whose encoding stays within the
    bytes [f_compress] reserves, the store constructed from [xs] exists;
    from this store and from every store it becomes by further pushes and
    unpacks, unpacking frame 0 into an output type of the signedness of [T]
    and of a width of at least [max_bits] yields exactly [xs]; and when a
    frame [ys] of such values, encoded within the reserved bytes, is pushed
    next, unpacking frame 0 and then frame 1 into such an output yields
    exactly [xs] and then exactly [ys], and so does unpacking frame 1 at
    once when [B] divides the length of the frames. *)
Theorem roundtrip_same_signedness (T U : int_type) (xs : list Z) (B : nat) :
  1 <= B ->
  Forall (has_abs T) xs ->
  within_reserve T (Terse_init T xs B) xs ->
  is_signed_v U = is_signed_v T ->
  exists t,
    Terse_of T xs B = Done t
    /\ (forall t',
          evolves t t' -> bits_per_val t' <= bits U ->
          unpacked (prolix U t' 0) = Done xs)
    /\ (forall T2 ys t2,
          Forall (has_abs T2) ys ->
          within_reserve T2 t ys ->
          push_back T2 t ys = Done t2 ->
          bits_per_val t2 <= bits U ->
          (exists t3,
             prolix U t2 0 = Done (xs, t3)
             /\ unpacked (prolix U t3 1) = Done ys)
          /\ (forall k, length xs = k * B ->
                unpacked (prolix U t2 1) = Done ys)).
Proof.
  intros HB Hl Hc Sg.
  destruct (f_compress_returns T (Terse_init T xs B) xs HB) as [t Ht].
  exists t. split; [exact Ht|]. split.
  - intros t' Ev Hp.
    destruct (f_compress_fields _ _ _ _ Ht) as (F1 & F2 & F3 & F4 & F5 & F6).
    assert (N1 : 1 <= number_of_frames t)
      by (unfold number_of_frames; rewrite F5; cbn; lia).
    destruct (evolves_keeps t t' N1 Ev)
      as (K1 & K2 & K3 & K4 & K5 & K6 & K7 & K8).
    unfold bits_per_val in Hp.
    destruct (f_compress_decodes T U _ _ _ Ht eq_refl Hl Hc Sg)
      as (c & D1 & D2 & D3); [lia|].
    cbn [Terse_init d_size d_block d_terse_data length Nat.mul] in D1.
    apply (prolix_first_frame U t' xs c).
    + rewrite K2, F5. reflexivity.
    + exact K1.
    + rewrite K3, F1. cbn [Terse_init d_signed]. rewrite <- Sg.
      destruct (is_signed_v U); reflexivity.
    + rewrite K4, K5, F2, F3.
      apply (prolix_loop_local _ _ _ _ (d_terse_data t)); [exact D1|].
      intros q Hq. apply K8. lia.
  - intros T2 ys t2 Hy Hc2 H2 Hp.
    destruct (two_frames_layout _ _ _ _ _ _ _ _ HB Hl Hy Hc Hc2 Sg Ht H2 Hp)
      as (c & c2 & L1 & L2 & L3 & L4 & L5 & L6 & L7).
    assert (Sg' : is_signed_v T && negb (is_signed_v U) = false)
      by (rewrite Sg; destruct (is_signed_v T); reflexivity).
    split.
    2:{ intros k Hk.
        pose proof (second_frame_scanned _ _ _ _ _ _ _ _ _
                      HB Hk Hl Hy Hc Hc2 Sg Ht H2 Hp) as F.
        unfold prolix, number_of_frames. rewrite L4.
        cbn [length Nat.ltb Nat.leb negb]. rewrite F.
        cbn [with_frames d_signed d_block d_size d_terse_data
             d_terse_frames].
        rewrite L1, L2, L3, Sg', L7. reflexivity. }
    destruct (prolix_returns U t2 0) as (vs & t3 & P);
      [lia|unfold number_of_frames; rewrite L4; cbn; lia
      |rewrite L1; exact Sg'|].
    destruct (second_offset_after_unpack _ _ _ _ _ _ _ _ _ _
                HB Hl Hc Sg Ht H2 Hp P) as [-> O1].
    exists t3. split; [exact P|].
    destruct (prolix_fields _ _ _ _ _ P)
      as (Q1 & Q2 & Q3 & Q4 & Q5 & Q6 & Q7 & _).
    unfold prolix, number_of_frames. rewrite Q7, L4.
    cbn [length Nat.ltb Nat.leb negb f_find_terse_frame].
    rewrite O1.
    replace (terse_size t =? 0) with false
      by (symmetry; apply Nat.eqb_neq; lia).
    rewrite Q1, Q2, Q3, Q6, L1, L2, L3, Sg', L7. reflexivity.
Qed.

(** Two signed 16-bit frames of eight values, block size 3, unpacked into
    32 bits. *)
Lemma roundtrip_same_signedness_witness :
  (1 <= 3
   /\ Forall (has_abs Int16) S1_first
   /\ within_reserve Int16 (Terse_init Int16 S1_first 3) S1_first
   /\ is_signed_v Int32 = is_signed_v Int16)
  /\ exists t,
       Terse_of Int16 S1_first 3 = Done t
       /\ (forall t',
             evolves t t' -> bits_per_val t' <= bits Int32 ->
             unpacked (prolix Int32 t' 0) = Done S1_first)
       /\ (Forall (has_abs Int16) S1_second
           /\ within_reserve Int16 t S1_second
           /\ push_back Int16 t S1_second = Done S1_two
           /\ bits_per_val S1_two <= bits Int32)
       /\ (exists t3,
             prolix Int32 S1_two 0 = Done (S1_first, t3)
             /\ unpacked (prolix Int32 t3 1) = Done S1_second)
       /\ (forall k, length S1_first = k * 3 ->
             unpacked (prolix Int32 S1_two 1) = Done S1_second).
Proof.
  assert (H1 : 1 <= 3) by lia.
  assert (H2 : Forall (has_abs Int16) S1_first)
    by (apply all_has_abs; vm_compute; reflexivity).
  assert (H3 : within_reserve Int16 (Terse_init Int16 S1_first 3) S1_first)
    by (apply within_reserveb_ok; vm_compute; reflexivity).
  assert (H4 : is_signed_v Int32 = is_signed_v Int16) by reflexivity.
  split; [auto|].
  destruct (roundtrip_same_signedness Int16 Int32 S1_first 3 H1 H2 H3 H4)
    as (t & Ht & F0 & F1).
  assert (E : t = S1_one).
  { assert (C : Terse_of Int16 S1_first 3 = Done S1_one)
      by (vm_compute; reflexivity).
    rewrite C in Ht. injection Ht as <-. reflexivity. }
  subst t.
  assert (H5 : Forall (has_abs Int16) S1_second)
    by (apply all_has_abs; vm_compute; reflexivity).
  assert (H6 : within_reserve Int16 S1_one S1_second)
    by (apply within_reserveb_ok; vm_compute; reflexivity).
  assert (H7 : push_back Int16 S1_one S1_second = Done S1_two)
    by (vm_compute; reflexivity).
  assert (H8 : bits_per_val S1_two <= bits Int32) by (vm_compute; lia).
  exists S1_one. split; [exact Ht|]. split; [exact F0|].
  split; [auto|]. exact (F1 Int16 S1_second S1_two H5 H6 H7 H8).
Defined.

(** C1 as stated fails: the unsigned 16-bit frame [65535] has
    [max_bits = 16]; unpacked into a signed 32-bit output, which is wide
    enough and of a compatible signedness, its 16-bit field of ones is
    sign-extended and the value read is -1. *)
Lemma roundtrip_unsigned_into_signed_fails :
  exists t,
    Terse_of UInt16 [65535%Z] 1 = Done t
    /\ bits_per_val t = 16
    /\ bits_per_val t <= bits Int32
    /\ unpacked (prolix Int32 t 0) = Done [(-1)%Z]
    /\ unpacked (prolix Int32 t 0) <> Done [65535%Z].
Proof.
  eexists. split; [vm_compute; reflexivity|].
  split; [vm_compute; reflexivity|].
  split; [vm_compute; lia|].
  split; [vm_compute; reflexivity|].
  vm_compute. discriminate.
Qed.

(** ** The second frame by the lazy scan *)

(** X11.  The lazy scan finds the second frame.  A store is constructed
    from [xs] and [ys] is pushed, both of values whose absolute values the
    encoder computes ([has_abs]) and both encoded within the reserved
    bytes; the block size divides the frame length.  Then, no frame having
    been unpacked before, the scan of [f_find_terse_frame] for frame 1
    returns the packed size after the first push, the byte at which the
    second frame was appended (the value an unpack of frame 0 stores in
    entry 1); and unpacking frame 1 from there, into an output of the
    signedness of the data and of at least [max_bits] bits, writes exactly
    [ys]. *)
Theorem second_frame_lazy_scan (T T2 U : int_type) (xs ys : list Z)
    (B k : nat) (t t2 : Terse) :
  1 <= B ->
  length xs = k * B ->
  Forall (has_abs T) xs ->
  Forall (has_abs T2) ys ->
  within_reserve T (Terse_init T xs B) xs ->
  within_reserve T2 t ys ->
  is_signed_v U = is_signed_v T ->
  Terse_of T xs B = Done t ->
  push_back T2 t ys = Done t2 ->
  bits_per_val t2 <= bits U ->
  offset_of t2 1 = Some (terse_size t)
  /\ unpacked (prolix U t2 1) = Done ys.
Proof.
  intros HB Hk Hx Hy Hc Hc2 Sg Ht H2 Hp.
  destruct (two_frames_layout _ _ _ _ _ _ _ _ HB Hx Hy Hc Hc2 Sg Ht H2 Hp)
    as (c & c2 & L1 & L2 & L3 & L4 & L5 & L6 & L7).
  pose proof (second_frame_scanned _ _ _ _ _ _ _ _ _
                HB Hk Hx Hy Hc Hc2 Sg Ht H2 Hp) as F.
  split; [unfold offset_of; rewrite F; reflexivity|].
  assert (Sg' : is_signed_v T && negb (is_signed_v U) = false)
    by (rewrite Sg; destruct (is_signed_v T); reflexivity).
  unfold prolix, number_of_frames. rewrite L4.
  cbn [length Nat.ltb Nat.leb negb]. rewrite F.
  cbn [with_frames d_signed d_block d_size d_terse_data d_terse_frames].
  rewrite L1, L2, L3, Sg', L7. reflexivity.
Qed.

(** The two frames of S4. *)
Lemma second_frame_lazy_scan_witness :
  (1 <= 3
   /\ length S4_first = 1 * 3
   /\ Forall (has_abs UInt32) S4_first
   /\ Forall (has_abs UInt32) S4_second
   /\ within_reserve UInt32 (Terse_init UInt32 S4_first 3) S4_first
   /\ within_reserve UInt32 S4_one S4_second
   /\ is_signed_v UInt32 = is_signed_v UInt32
   /\ Terse_of UInt32 S4_first 3 = Done S4_one
   /\ push_back UInt32 S4_one S4_second = Done S4_two
   /\ bits_per_val S4_two <= bits UInt32)
  /\ offset_of S4_two 1 = Some (terse_size S4_one)
  /\ unpacked (prolix UInt32 S4_two 1) = Done S4_second.
Proof.
  assert (H1 : 1 <= 3) by lia.
  assert (H8 : length S4_first = 1 * 3) by reflexivity.
  assert (H2 : Forall (has_abs UInt32) S4_first)
    by (apply all_has_abs; vm_compute; reflexivity).
  assert (H3 : Forall (has_abs UInt32) S4_second)
    by (apply all_has_abs; vm_compute; reflexivity).
  assert (H4 : within_reserve UInt32 (Terse_init UInt32 S4_first 3) S4_first)
    by (apply within_reserveb_ok; vm_compute; reflexivity).
  assert (H5 : within_reserve UInt32 S4_one S4_second)
    by (apply within_reserveb_ok; vm_compute; reflexivity).
  assert (H6 : is_signed_v UInt32 = is_signed_v UInt32) by reflexivity.
  assert (H7 : bits_per_val S4_two <= bits UInt32) by (vm_compute; lia).
  split; [repeat split; assumption || exact S4_one_built
                        || exact S4_two_built|].
  exact (second_frame_lazy_scan UInt32 UInt32 UInt32 S4_first S4_second 3 1
           S4_one S4_two H1 H8 H2 H3 H4 H5 H6 S4_one_built S4_two_built H7).
Defined.

(** ** A store read back from a stream *)

(** X12.  A store read back.  For every store a program can hold, the store
    the stream constructor builds from the values [write] puts in the
    header and from the packed bytes unpacks frame 0 to the same outcome as
    the store itself. *)
Theorem reload_first_frame (U : int_type) (t : Terse) :
  reachable t ->
  unpacked
    (prolix U
       (Terse_of_stream (d_prolix_bits t) (d_signed t) (d_block t) (size t)
          (d_dim t) (d_terse_data t) (number_of_frames t)) 0)
  = unpacked (prolix U t 0).
Proof.
  intros H. pose proof (reachable_first_offset t H) as Z0.
  unfold prolix, Terse_of_stream, number_of_frames, size.
  cbn [d_terse_frames d_signed d_block d_size d_terse_data
       f_find_terse_frame].
  rewrite repeat_length, Z0.
  destruct (0 <? length (d_terse_frames t)) eqn:E; cbn [negb];
    [|reflexivity].
  assert (R0 : nth 0 (repeat 0 (length (d_terse_frames t))) 0 = 0).
  { destruct (length (d_terse_frames t)); reflexivity. }
  rewrite R0.
  destruct (d_signed t && negb (is_signed_v U)); [reflexivity|].
  destruct (prolix_loop (d_size t) U (d_block t) (d_size t) 0
              (d_terse_data t) (8 * 0) 0) as [[vs c]|]; reflexivity.
Qed.

(** The store of S4 after its first frame. *)
Lemma reload_first_frame_witness :
  reachable S4_one
  /\ unpacked (prolix UInt32 (Terse_of_stream 2 false 3 3 [] [148; 3]%Z 1) 0)
     = unpacked (prolix UInt32 S4_one 0).
Proof.
  assert (R : reachable S4_one)
    by (apply (reach_of UInt32 S4_first 3); exact S4_one_built).
  split; [exact R|]. exact (reload_first_frame UInt32 S4_one R).
Defined.

(** ** Containers and dimensions *)

(** The loop over the dimensions: every assertion holds when [over] is a
    prefix of [other]; the loop leaves [other] when [other] is a proper
    prefix of [over]; an assertion fails when the two differ at an index
    both have, and agree before it. *)
Lemma dims_agree_prefix over :
  forall other,
  (dims_agree over other = Some true <-> exists rest, other = over ++ rest)
  /\ (dims_agree over other = None
      <-> exists x rest, over = other ++ x :: rest)
  /\ (dims_agree over other = Some false
      <-> exists i, i < length over /\ i < length other
                    /\ nth i over 0 <> nth i other 0
                    /\ firstn i over = firstn i other).
Proof.
  induction over as [|x over IH]; intros other; cbn [dims_agree].
  - split; [|split]; split; try discriminate.
    + intros _. exists other. reflexivity.
    + reflexivity.
    + intros (y & rest & H). destruct other; discriminate.
    + intros (i & H & _). cbn in H. lia.
  - destruct other as [|y other].
    + split; [|split]; split; try discriminate; try (intros _; reflexivity).
      * intros (rest & H). discriminate.
      * intros _. exists x, over. reflexivity.
      * intros (i & _ & H & _). cbn in H. lia.
    + destruct (Nat.eqb_spec x y) as [->|Hxy].
      * destruct (IH other) as (I1 & I2 & I3).
        split; [|split]; split.
        -- intros H. apply I1 in H. destruct H as [rest ->].
           exists rest. reflexivity.
        -- intros (rest & H). injection H as H. apply I1. eauto.
        -- intros H. apply I2 in H. destruct H as (z & rest & ->).
           exists z, rest. reflexivity.
        -- intros (z & rest & H). injection H as H. apply I2. eauto.
        -- intros H. apply I3 in H.
           destruct H as (i & H1 & H2 & H3 & H4).
           exists (S i). cbn [length nth firstn].
           repeat split; try lia; try assumption. f_equal. exact H4.
        -- intros (i & H1 & H2 & H3 & H4). apply I3.
           destruct i as [|i]; [cbn in H3; contradiction|].
           cbn [length nth firstn] in *. injection H4 as H4.
           exists i. repeat split; try lia; assumption.
      * split; [|split]; split; try discriminate;
          try (intros _; reflexivity).
        -- intros (rest & H). injection H as H _. congruence.
        -- intros (z & rest & H). injection H as H _. congruence.
        -- intros _. exists 0. cbn. repeat split; try lia; auto.
Qed.

Lemma dims_agree_refl ds : dims_agree ds ds = Some true.
Proof.
  apply (dims_agree_prefix ds ds). exists []. symmetry. apply app_nil_r.
Qed.

(** X13.  [Terse::prolix(Container&, frame)].  A container of another size
    than [size()] fails the first assertion, whatever the frame index and
    the dimensions.  A call that returns has replaced the elements of the
    container by what [prolix(Iterator, frame)] writes, as many as before,
    and has left its dimensions, of which the dimensions of the store are a
    prefix.  And for a container of [size()] elements that has no
    dimensions, or those of the store, the call does what
    [prolix(Iterator, frame)] does. *)
Theorem prolix_container_checks (U : int_type) (t : Terse) (data : container)
    (frame : nat) :
  (size t <> length (c_values data) ->
   prolix_container U t data frame = Some (Fails ShapeMismatch))
  /\ (forall data' t',
        prolix_container U t data frame = Some (Done (data', t')) ->
        prolix U t frame = Done (c_values data', t')
        /\ c_dim data' = c_dim data
        /\ length (c_values data') = length (c_values data)
        /\ (forall ds, c_dim data = Some ds ->
              exists rest, ds = d_dim t ++ rest))
  /\ (size t = length (c_values data) ->
      c_dim data = None \/ c_dim data = Some (d_dim t) ->
      prolix_container U t data frame
      = Some match prolix U t frame with
             | Done (vs, t') => Done (mkContainer vs (c_dim data), t')
             | Fails e => Fails e
             | Loops => Loops
             end).
Proof.
  unfold prolix_container. split; [|split].
  - intros H. apply Nat.eqb_neq in H. rewrite H. reflexivity.
  - intros data' t' H.
    destruct (size t =? length (c_values data)) eqn:E; [|discriminate].
    apply Nat.eqb_eq in E. cbn [negb] in H.
    destruct (match c_dim data with
              | Some ds => dims_agree (d_dim t) ds
              | None => Some true
              end) as [[|]|] eqn:D; try discriminate.
    destruct (negb (frame <? number_of_frames t)); [discriminate|].
    destruct (prolix U t frame) as [[vs t1]|e|] eqn:P; try discriminate.
    injection H as <- <-. cbn [c_values c_dim].
    pose proof (prolix_length _ _ _ _ _ P) as L.
    rewrite skipn_all2 by lia. rewrite app_nil_r.
    repeat split; try reflexivity; try lia.
    intros ds Hd. rewrite Hd in D. apply dims_agree_prefix in D. exact D.
  - intros E D. apply Nat.eqb_eq in E. rewrite E. cbn [negb].
    assert (A : match c_dim data with
                | Some ds => dims_agree (d_dim t) ds
                | None => Some true
                end = Some true).
    { destruct D as [->| ->]; [reflexivity|apply dims_agree_refl]. }
    rewrite A.
    destruct (frame <? number_of_frames t) eqn:F; cbn [negb].
    + destruct (prolix U t frame) as [[vs t1]|e|] eqn:P; try reflexivity.
      pose proof (prolix_length _ _ _ _ _ P) as L.
      rewrite skipn_all2 by (apply Nat.eqb_eq in E; lia).
      rewrite app_nil_r. reflexivity.
    + unfold prolix. rewrite F. reflexivity.
Qed.

(** X14.  [Terse::push_back(Container const&)] on a store that has a frame,
    for a container with dimensions [ds].  When [ds] is a prefix of the
    dimensions of the store (the loop runs over the indices of [ds] only)
    the call is the push of the elements.  The loop reads the dimensions of
    the store past their end exactly when they are a proper prefix of
    [ds].  When the two differ at an index both have, and agree before it,
    the assertion fails.  And a call that returns has left the dimensions
    of the store as they were. *)
Theorem push_back_container_dims (T : int_type) (t : Terse)
    (data : container) (ds : list nat) :
  c_dim data = Some ds ->
  1 <= number_of_frames t ->
  ((exists rest, d_dim t = ds ++ rest) ->
   push_back_container T t data = Some (push_back T t (c_values data)))
  /\ (push_back_container T t data = None
      <-> exists x rest, ds = d_dim t ++ x :: rest)
  /\ ((exists i, i < length ds /\ i < length (d_dim t)
                 /\ nth i ds 0 <> nth i (d_dim t) 0
                 /\ firstn i ds = firstn i (d_dim t)) ->
      push_back_container T t data = Some (Fails ShapeMismatch))
  /\ (forall t', push_back_container T t data = Some (Done t') ->
        d_dim t' = d_dim t
        /\ push_back T t (c_values data) = Done t').
Proof.
  intros Hd Hn. unfold push_back_container. rewrite Hd.
  replace (number_of_frames t =? 0) with false
    by (symmetry; apply Nat.eqb_neq; lia).
  destruct (dims_agree_prefix ds (d_dim t)) as (P1 & P2 & P3).
  split; [|split; [|split]].
  - intros H. apply P1 in H. rewrite H. reflexivity.
  - rewrite <- P2.
    destruct (dims_agree ds (d_dim t)) as [[|]|]; split; intros H;
      try discriminate; reflexivity.
  - intros H. apply P3 in H. rewrite H. reflexivity.
  - intros t' H.
    destruct (dims_agree ds (d_dim t)) as [[|]|]; try discriminate.
    injection H as H. split; [|exact H].
    exact (push_back_dim _ _ _ _ H).
Qed.

(** A container of dimensions [1] pushed onto a store of dimensions 1 x 3. *)
Lemma push_back_container_dims_witness :
  (c_dim (mkContainer S4_second (Some [1])) = Some [1]
   /\ 1 <= number_of_frames S4_dims
   /\ exists rest, d_dim S4_dims = [1] ++ rest)
  /\ push_back_container UInt32 S4_dims (mkContainer S4_second (Some [1]))
     = Some (push_back UInt32 S4_dims S4_second).
Proof.
  assert (H1 : c_dim (mkContainer S4_second (Some [1])) = Some [1])
    by reflexivity.
  assert (H2 : 1 <= number_of_frames S4_dims) by (cbn; lia).
  assert (H3 : exists rest, d_dim S4_dims = [1] ++ rest)
    by (exists [3]; reflexivity).
  split; [repeat split; assumption|].
  exact (proj1 (push_back_container_dims UInt32 S4_dims _ [1] H1 H2) H3).
Defined.

(** X15.  Round trip through the container overloads.  A store constructed
    from a container (of values whose absolute value the encoder computes,
    [has_abs], encoded within the reserved bytes) has the dimensions of the
    container, and unpacking
    frame 0 into a container of the same size and dimensions, of an element
    type of the same signedness and at least as wide, fills it with the
    elements of the first. *)
Theorem container_roundtrip (T U : int_type) (data out : container)
    (t : Terse) :
  Forall (has_abs T) (c_values data) ->
  within_reserve T (Terse_init T (c_values data) 12) (c_values data) ->
  is_signed_v U = is_signed_v T ->
  bits T <= bits U ->
  Terse_of_container T data = Done t ->
  length (c_values out) = length (c_values data) ->
  c_dim out = c_dim data ->
  dim t = match c_dim data with Some ds => ds | None => [] end
  /\ exists t',
       prolix_container U t out 0
       = Some (Done (mkContainer (c_values data) (c_dim data), t')).
Proof.
  intros Hx Hc Sg Hb Ht Hl Hd. unfold Terse_of_container in Ht.
  destruct (Terse_of T (c_values data) 12) as [t0|e|] eqn:T0;
    try discriminate.
  injection Ht as Ht.
  destruct (f_compress_fields _ _ _ _ T0) as (F1 & F2 & F3 & F4 & F5 & F6).
  cbn [Terse_init d_signed d_block d_size d_dim d_terse_frames]
    in F1, F2, F3, F4, F5.
  pose proof (Terse_of_max_bits _ _ _ _ T0 Hx) as Hp.
  destruct (f_compress_decodes T U _ _ _ T0 eq_refl Hx Hc Sg)
    as (c & D1 & D2 & D3); [lia|].
  cbn [Terse_init d_size d_block d_terse_data length Nat.mul] in D1.
  assert (A : d_signed t = is_signed_v T /\ d_block t = 12
              /\ d_size t = length (c_values data)
              /\ d_terse_frames t = [0] /\ d_terse_data t = d_terse_data t0
              /\ d_dim t = match c_dim data with
                           | Some ds => ds
                           | None => []
                           end).
  { subst t. destruct (c_dim data);
      cbn [with_dim d_signed d_block d_size d_dim d_terse_data
           d_terse_frames]; rewrite ?F4; repeat split; assumption. }
  destruct A as (A1 & A2 & A3 & A4 & A5 & A6).
  split; [exact A6|].
  assert (P : unpacked (prolix U t 0) = Done (c_values data)).
  { apply (prolix_first_frame U t (c_values data) c).
    - rewrite A4. reflexivity.
    - unfold number_of_frames. rewrite A4. cbn. lia.
    - rewrite A1, Sg. destruct (is_signed_v T); reflexivity.
    - rewrite A2, A3, A5. exact D1. }
  destruct (prolix U t 0) as [[vs t']|e|] eqn:P0; try discriminate.
  cbn [unpacked] in P. injection P as ->.
  exists t'. unfold prolix_container, size. rewrite A3, Hl, Nat.eqb_refl.
  cbn [negb]. rewrite Hd, A6.
  assert (Q : match c_dim data with
              | Some ds => dims_agree match c_dim data with
                                      | Some ds0 => ds0
                                      | None => []
                                      end ds
              | None => Some true
              end = Some true).
  { destruct (c_dim data); [apply dims_agree_refl|reflexivity]. }
  rewrite Q. unfold number_of_frames. rewrite A4.
  cbn [length Nat.ltb Nat.leb negb]. rewrite P0.
  rewrite skipn_all2 by lia. rewrite app_nil_r. reflexivity.
Qed.

(** The first frame of S4 as a container of dimensions [3]. *)
Lemma container_roundtrip_witness :
  (Forall (has_abs UInt32) (c_values (mkContainer S4_first (Some [3])))
   /\ within_reserve UInt32 (Terse_init UInt32 S4_first 12) S4_first
   /\ is_signed_v UInt32 = is_signed_v UInt32
   /\ bits UInt32 <= bits UInt32
   /\ Terse_of_container UInt32 (mkContainer S4_first (Some [3]))
      = Done (mkTerse false 12 3 2 [3] [148; 3]%Z [0]))
  /\ dim (mkTerse false 12 3 2 [3] [148; 3]%Z [0]) = [3]
  /\ exists t',
       prolix_container UInt32 (mkTerse false 12 3 2 [3] [148; 3]%Z [0])
         (mkContainer [0; 0; 0]%Z (Some [3])) 0
       = Some (Done (mkContainer S4_first (Some [3]), t')).
Proof.
  assert (H1 : Forall (has_abs UInt32)
                 (c_values (mkContainer S4_first (Some [3]))))
    by (apply all_has_abs; vm_compute; reflexivity).
  assert (H2 : within_reserve UInt32 (Terse_init UInt32 S4_first 12)
                 S4_first)
    by (apply within_reserveb_ok; vm_compute; reflexivity).
  assert (H3 : is_signed_v UInt32 = is_signed_v UInt32) by reflexivity.
  assert (H4 : bits UInt32 <= bits UInt32) by lia.
  assert (H5 : Terse_of_container UInt32 (mkContainer S4_first (Some [3]))
               = Done (mkTerse false 12 3 2 [3] [148; 3]%Z [0]))
    by (vm_compute; reflexivity).
  split; [repeat split; assumption|].
  exact (container_roundtrip UInt32 UInt32 (mkContainer S4_first (Some [3]))
           (mkContainer [0; 0; 0]%Z (Some [3])) _ H1 H2 H3 H4 H5
           eq_refl eq_refl).
Defined.

(** X16.  [Terse::dim(std::vector<std::size_t> const&)]: on a store without
    dimensions the call sets them, and once they are set and not empty
    every further call fails its assertion; on a store with dimensions the
    call fails; and so it does on a store constructed from a container that
    has dimensions. *)
Theorem dim_set_once (t : Terse) (ds : list nat) :
  (dim t = [] ->
   dim_set t ds = Some (with_dim t ds)
   /\ dim (with_dim t ds) = ds
   /\ (ds <> [] -> forall ds', dim_set (with_dim t ds) ds' = None))
  /\ (dim t <> [] -> dim_set t ds = None)
  /\ (forall T data d ds0 t0,
        Terse_of_container T data = Done t0 ->
        c_dim data = Some (d :: ds0) ->
        dim_set t0 ds = None).
Proof.
  unfold dim_set, dim. split; [|split].
  - intros ->. cbn [length Nat.eqb]. split; [reflexivity|].
    split; [reflexivity|]. intros H ds'. cbn [with_dim d_dim].
    destruct ds; [contradiction|reflexivity].
  - intros H. destruct (d_dim t); [contradiction|reflexivity].
  - intros T data d ds0 t0 H Hd. unfold Terse_of_container in H.
    destruct (Terse_of T (c_values data) 12) as [t1|e|]; try discriminate.
    injection H as <-. rewrite Hd. cbn [with_dim d_dim].
    rewrite length_app. cbn [length].
    replace (length (d_dim t1) + S (length ds0) =? 0) with false
      by (symmetry; apply Nat.eqb_neq; lia).
    reflexivity.
Qed.

(** ** The header [write] emits *)

(** Printing is injective: a string literal, a number, and the list of the
    dimensions; and no number holds a quote or a space. *)
Lemma text_inj s1 :
  forall s2, Text.text s1 = Text.text s2 -> s1 = s2.
Proof.
  induction s1 as [|c s1 IH]; intros [|c2 s2] H; try discriminate;
    [reflexivity|].
  unfold Text.text in H. cbn [String.list_ascii_of_string map] in H.
  injection H as Hc Hs. f_equal.
  - apply N2Z.inj in Hc.
    rewrite <- (Ascii.ascii_N_embedding c), <- (Ascii.ascii_N_embedding c2).
    congruence.
  - apply IH. exact Hs.
Qed.

Lemma decimal_digits n :
  Forall (fun z => (48 <= z <= 57)%Z) (Text.decimal n).
Proof.
  unfold Text.decimal. generalize (Nat.to_uint n) as d.
  induction d; cbn; constructor; (lia || assumption).
Qed.

Lemma decimal_inj n m : Text.decimal n = Text.decimal m -> n = m.
Proof.
  intros H. apply text_inj in H.
  assert (E : Some (Nat.to_uint n) = Some (Nat.to_uint m)).
  { rewrite <- !DecimalString.NilEmpty.usu. rewrite H. reflexivity. }
  injection E as E.
  rewrite <- (DecimalNat.Unsigned.of_to n), <- (DecimalNat.Unsigned.of_to m).
  congruence.
Qed.

(** Two streams that agree, each a field without [sep] followed by [sep],
    agree on the field and on the rest. *)
Lemma split_at_sep (sep : Z) :
  forall v1 v2 r1 r2,
  ~ In sep v1 -> ~ In sep v2 ->
  v1 ++ sep :: r1 = v2 ++ sep :: r2 -> v1 = v2 /\ r1 = r2.
Proof.
  induction v1 as [|x v1 IH]; intros [|y v2] r1 r2 H1 H2 H;
    cbn [app] in H.
  - injection H as <-. auto.
  - injection H as -> _. exfalso. apply H2. left. reflexivity.
  - injection H as -> _. exfalso. apply H1. left. reflexivity.
  - injection H as -> H.
    destruct (IH v2 r1 r2) as [-> ->]; auto.
    + intros G. apply H1. right. exact G.
    + intros G. apply H2. right. exact G.
Qed.

Lemma decimal_no (sep : Z) n :
  (sep < 48)%Z -> ~ In sep (Text.decimal n).
Proof.
  intros Hs G. pose proof (decimal_digits n) as D.
  rewrite Forall_forall in D. apply D in G. lia.
Qed.

Lemma boolean_no_quote b : ~ In 34%Z (Text.boolean b).
Proof. destruct b; cbn; intros [H|[]]; discriminate. Qed.

Lemma dimensions_no_quote ds : ~ In 34%Z (Text.dimensions ds).
Proof.
  induction ds as [|d ds IH]; [intros []|].
  cbn [Text.dimensions]. destruct ds as [|d' ds].
  - apply decimal_no. lia.
  - intros G. apply in_app_or in G. destruct G as [G|G].
    + revert G. apply decimal_no. lia.
    + apply in_app_or in G. destruct G as [G|G]; [|exact (IH G)].
      cbn in G. destruct G as [G|[]]. discriminate.
Qed.

Lemma dimensions_inj ds1 :
  forall ds2, Text.dimensions ds1 = Text.dimensions ds2 ->
  ds1 <> [] -> ds2 <> [] -> ds1 = ds2.
Proof.
  induction ds1 as [|d1 r1 IH]; intros [|d2 r2] H N1 N2;
    try contradiction.
  cbn [Text.dimensions] in H.
  assert (S32 : forall n, ~ In 32%Z (Text.decimal n))
    by (intros n; apply decimal_no; lia).
  destruct r1 as [|e1 r1], r2 as [|e2 r2].
  - apply decimal_inj in H. congruence.
  - exfalso. apply (S32 d1). rewrite H. apply in_or_app. right.
    left. reflexivity.
  - exfalso. apply (S32 d2). rewrite <- H. apply in_or_app. right.
    left. reflexivity.
  - change Text.space with [32%Z] in H. cbn [app] in H.
    apply split_at_sep in H; [|apply S32|apply S32].
    destruct H as [Hd Hr]. apply decimal_inj in Hd.
    rewrite (IH (e2 :: r2) Hr); [congruence|discriminate|discriminate].
Qed.

Ltac quoted_literal H :=
  first [apply app_inv_head in H; injection H as H | injection H as H].

Ltac quoted_field H E :=
  apply split_at_sep in H;
  [ destruct H as [E H]
  | first [ apply decimal_no; lia | apply boolean_no_quote
          | apply dimensions_no_quote ]
  | first [ apply decimal_no; lia | apply boolean_no_quote
          | apply dimensions_no_quote ] ].

(** X17.  What [Terse::write] emits determines every member of the store but
    the memoised frame offsets: two stores with the same output have the
    same [max_bits], signedness, block size, frame length, dimensions,
    number of frames and packed bytes. *)
Theorem write_injective (t1 t2 : Terse) :
  write t1 = write t2 ->
  d_prolix_bits t1 = d_prolix_bits t2 /\ d_signed t1 = d_signed t2
  /\ d_block t1 = d_block t2 /\ size t1 = size t2
  /\ d_dim t1 = d_dim t2
  /\ number_of_frames t1 = number_of_frames t2
  /\ d_terse_data t1 = d_terse_data t2.
Proof.
  intros H. unfold write, Text.header in H.
  rewrite <- !app_assoc in H.
  remember (Text.frames_attribute (length (d_terse_frames t1))
            ++ d_terse_data t1) as R1 eqn:HR1.
  remember (Text.frames_attribute (length (d_terse_frames t2))
            ++ d_terse_data t2) as R2 eqn:HR2.
  change Text.quote with [34%Z] in H. cbn [app] in H.
  quoted_literal H. quoted_field H E1. quoted_literal H. quoted_field H E2. quoted_literal H. quoted_field H E3.
  quoted_literal H. quoted_field H E4. quoted_literal H. quoted_field H E5.
  apply decimal_inj in E1, E3, E5.
  assert (E2' : d_signed t1 = d_signed t2).
  { destruct (d_signed t1), (d_signed t2); try reflexivity;
      cbn in E2; discriminate. }
  assert (D : d_dim t1 = d_dim t2 /\ R1 = R2).
  { cbv beta delta [Text.dimensions_attribute] in H.
    remember (Text.dimensions (d_dim t1)) as D1 eqn:HD1.
    remember (Text.dimensions (d_dim t2)) as D2 eqn:HD2.
    destruct (d_dim t1) as [|a1 r1] eqn:Q1, (d_dim t2) as [|a2 r2] eqn:Q2.
    - split; [reflexivity|exact H].
    - exfalso. subst R1. apply (f_equal (fun l => nth 1 l 0%Z)) in H.
      cbn in H. discriminate.
    - exfalso. subst R2. apply (f_equal (fun l => nth 1 l 0%Z)) in H.
      cbn in H. discriminate.
    - rewrite <- !app_assoc in H.
      change Text.quote with [34%Z] in H. cbn [app] in H.
      quoted_literal H.
      apply split_at_sep in H;
        [|subst D1; apply dimensions_no_quote
         |subst D2; apply dimensions_no_quote].
      destruct H as [E6 H]. subst D1 D2.
      apply dimensions_inj in E6; [|discriminate|discriminate].
      split; [exact E6|exact H]. }
  destruct D as [E6 H']. subst R1 R2. clear H.
  unfold Text.frames_attribute in H'. rewrite <- !app_assoc in H'.
  change Text.quote with [34%Z] in H'. cbn [app] in H'.
  quoted_literal H'. quoted_field H' E7. quoted_literal H'.
  apply decimal_inj in E7.
  unfold size, number_of_frames. repeat split; assumption.
Qed.

(** The store of S4 before and after an unpack: the same output. *)
Lemma write_injective_witness :
  write S4_two = write (with_frames S4_two [0; 2])
  /\ d_terse_data S4_two = d_terse_data (with_frames S4_two [0; 2])
  /\ number_of_frames S4_two = number_of_frames (with_frames S4_two [0; 2]).
Proof.
  assert (H : write S4_two = write (with_frames S4_two [0; 2]))
    by (vm_compute; reflexivity).
  destruct (write_injective _ _ H) as (_ & _ & _ & _ & _ & N & D).
  split; [exact H|]. split; [exact D|exact N].
Defined.
